(** * Ordered event delivery and retry subsystem

    A shallow embedding of the event-ordering core of the e-commerce
    services: the in-memory [EventBufferService], the two copies of
    [RetryService], the [SequenceService] counter allocator and the order
    service's [EventPublisher.publishOrderCreated]; and, around them, the
    other two publishing methods, the retry headers, [DLQService]'s header
    handling, the order status rules and [OrderService], which calls the
    publisher.

    Conventions of the embedding.
    - JavaScript numbers that hold sequence numbers and retry budgets are
      integers, modelled as [Z].
    - Objects that the code mutates through a reference ([OrderedEvent]) live
      in a heap, a list indexed by reference; a reference is the allocation
      index of the object. An index outside the heap is the reference of no
      object: it reads as an empty event and writing through it does
      nothing.
    - Every [async] method is run to completion before the next one starts
      (each call is awaited, as in the callers and the tests); a promise is
      its [Completion]: resolved with a value or rejected with the thrown
      value.
    - What the code takes from outside is an explicit parameter: the
      business callback of the buffer, the faults of the storage layer and
      of the repositories, the broker, the identifiers of [uuidv4], the
      inventory validation and the payment service.
    - Clocks are read, never advanced; sleeping and logging are not
      modelled. *)

From stdpp Require Import gmap strings list fin_maps sorting pretty.
From Stdlib Require Import ZArith Lia.

Open Scope Z_scope.

(** ** JavaScript errors and promise completions *)

Module Js.

(** An [Error] object: [name], [message] and the optional [code] that the
    test utilities attach. *)
Record Error := mkError {
  name : string;
  message : string;
  code : option string }.

(** [new Error(msg)] *)
Definition newError (msg : string) : Error :=
  {| name := "Error"; message := msg; code := None |}.

(** What a [throw] can carry in the modelled code: an error object, or
    [undefined] (the never-assigned [lastError]). *)
Inductive Thrown :=
  | ThrowError (e : Error)
  | ThrowUndefined.

(** The settled state of a promise. *)
Inductive Completion (A : Type) :=
  | Resolved (a : A)
  | Rejected (t : Thrown).
Arguments Resolved {A} a.
Arguments Rejected {A} t.

Definition isResolved {A} (c : Completion A) : bool :=
  match c with Resolved _ => true | Rejected _ => false end.

End Js.

Import Js.

(** ** EventBufferService *)

Module EventBuffer.

(** [OrderedEvent extends BaseEvent]: dates are epoch milliseconds. *)
Record OrderedEvent := mkEvent {
  id : string;
  timestamp : Z;
  version : string;
  sequenceNumber : Z;
  entityId : string;
  correlationId : option string;
  processed : bool;
  processedAt : option Z }.

#[global] Instance OrderedEvent_inhabited : Inhabited OrderedEvent :=
  populate (mkEvent "" 0 "" 0 "" None false None).

(** [EventBuffer]: [pendingEvents] holds references to event objects. *)
Record EventBuffer := mkBuffer {
  bufferEntityId : string;
  pendingEvents : list nat;
  lastProcessedSequence : Z }.

(** One invocation of [processEvent]: the reference passed, the object as it
    was at the call, and the error thrown ([None] when the call resolved). *)
Record Call := mkCall {
  callRef : nat;
  callArg : OrderedEvent;
  callError : option Thrown }.

(** What the service acts on besides its own fields: the heap of event
    objects, the log of [processEvent] invocations, and the clock. *)
Record World := mkWorld {
  heap : list OrderedEvent;
  calls : list Call;
  now : Z }.

(** The service instance: [this.buffers], the clean-up timers it has
    scheduled (by entity), and the world. *)
Record State := mkState {
  world : World;
  buffers : gmap string EventBuffer;
  timers : list string }.

Definition logCall (c : Call) (x : World) : World :=
  {| heap := heap x; calls := calls x ++ [c]; now := now x |}.

(** [event.processed = true; event.processedAt = new Date()] *)
Definition setProcessed (time : Z) (ev : OrderedEvent) : OrderedEvent :=
  {| id := id ev; timestamp := timestamp ev; version := version ev;
     sequenceNumber := sequenceNumber ev; entityId := entityId ev;
     correlationId := correlationId ev;
     processed := true; processedAt := Some time |}.

(** The two assignments on the object behind the reference. *)
Definition markProcessed (r : nat) (x : World) : World :=
  {| heap := alter (setProcessed (now x)) r (heap x);
     calls := calls x; now := now x |}.

(** [Array.prototype.sort] with the comparator
    [(a, b) => a.sequenceNumber - b.sequenceNumber]: a stable sort, here by
    insertion of each element after the elements that are not greater. *)
Fixpoint insertBySequence (h : list OrderedEvent) (x : nat) (l : list nat)
  : list nat :=
  match l with
  | [] => [x]
  | y :: l' =>
      if sequenceNumber (h !!! x) <? sequenceNumber (h !!! y)
      then x :: y :: l'
      else y :: insertBySequence h x l'
  end.

Definition sortBySequence (h : list OrderedEvent) (l : list nat) : list nat :=
  fold_left (fun acc x => insertBySequence h x acc) l [].

Section Service.

(** The business callback behind [processEvent]. The source's
    [handleGenericEvent] only waits and resolves; the tests replace it by
    mocks that reject, so the service is modelled over an arbitrary handler,
    which sees the earlier invocations and the event. *)
Variable handleGenericEvent : list Call -> OrderedEvent -> option Thrown.

(** [processEvent]: the handler's error is caught, logged and thrown again. *)
Definition processEvent (r : nat) (x : World) : World * Completion unit :=
  let event := heap x !!! r in
  match handleGenericEvent (calls x) event with
  | None => (logCall (mkCall r event None) x, Resolved tt)
  | Some error => (logCall (mkCall r event (Some error)) x, Rejected error)
  end.

(** The block that [processBufferedEvents] repeats three times after
    [buffer.pendingEvents.shift()]: try to process the event; on success mark
    it and give the new [lastProcessedSequence], on failure give [None] (the
    caller puts the event back and leaves the loop). *)
Definition processHead (nextEvent : nat) (x : World) : World * option Z :=
  match processEvent nextEvent x with
  | (x1, Resolved _) =>
      let x2 := markProcessed nextEvent x1 in
      (x2, Some (sequenceNumber (heap x2 !!! nextEvent)))
  | (x1, Rejected _) => (x1, None)
  end.

(** The [while (buffer.pendingEvents.length > 0)] loop, on the buffer's
    pending list and watermark. Every iteration either removes the head for
    good or leaves the loop, so the loop is a recursion on the pending list;
    the result is the list and the watermark the buffer is left with. *)
Fixpoint drain (pending : list nat) (last : Z) (x : World)
  : list nat * Z * World :=
  match pending with
  | [] => ([], last, x)
  | nextEvent :: rest =>
      let seq := sequenceNumber (heap x !!! nextEvent) in
      let expectedSequence := last + 1 in
      if seq =? expectedSequence then
        match processHead nextEvent x with
        | (x', Some last') => drain rest last' x'
        | (x', None) => (nextEvent :: rest, last, x')
        end
      else if seq <? expectedSequence then
        drain rest last x
      else
        let sequenceGap := seq - expectedSequence in
        if (sequenceGap =? 1) && (last =? 0) then
          match processHead nextEvent x with
          | (x', Some last') => drain rest last' x'
          | (x', None) => (nextEvent :: rest, last, x')
          end
        else if 5 <? sequenceGap then
          match processHead nextEvent x with
          | (x', Some last') => drain rest last' x'
          | (x', None) => (nextEvent :: rest, last, x')
          end
        else (nextEvent :: rest, last, x)
  end.

(** [processBufferedEvents]: drain the entity's buffer, keep what is left,
    and schedule the idle clean-up when nothing is pending. *)
Definition processBufferedEvents (entity : string) (w : State)
  : State * Completion unit :=
  match buffers w !! entity with
  | None => (w, Resolved tt)
  | Some buffer =>
      match pendingEvents buffer with
      | [] => (w, Resolved tt)
      | _ :: _ =>
          let '(pending', last', x') :=
            drain (pendingEvents buffer) (lastProcessedSequence buffer)
                  (world w) in
          (mkState x'
             (<[entity := mkBuffer (bufferEntityId buffer) pending' last']>
                (buffers w))
             (match pending' with
              | [] => timers w ++ [entity]
              | _ :: _ => timers w
              end),
           Resolved tt)
      end
  end.

(** [addEvent]: find or create the buffer, push, sort, drain. *)
Definition addEvent (event : nat) (w : State) : State * Completion unit :=
  let entity := entityId (heap (world w) !!! event) in
  let buffer :=
    match buffers w !! entity with
    | Some buffer => buffer
    | None => mkBuffer entity [] 0
    end in
  let pending :=
    sortBySequence (heap (world w)) (pendingEvents buffer ++ [event]) in
  processBufferedEvents entity
    (mkState (world w)
       (<[entity := mkBuffer (bufferEntityId buffer) pending
                      (lastProcessedSequence buffer)]> (buffers w))
       (timers w)).

(** [getBufferStatus] and [clearBuffer]. *)
Definition getBufferStatus (entity : string) (w : State) : option EventBuffer :=
  buffers w !! entity.

Definition clearBuffer (entity : string) (w : State) : State :=
  mkState (world w) (delete entity (buffers w)) (timers w).

(** The clean-up scheduled by [setTimeout], when it fires. *)
Definition cleanupTimerFires (entity : string) (w : State) : State :=
  match buffers w !! entity with
  | Some currentBuffer =>
      match pendingEvents currentBuffer with
      | [] => mkState (world w) (delete entity (buffers w)) (timers w)
      | _ :: _ => w
      end
  | None => w
  end.

(** Admitting a list of events one after the other, each call awaited. *)
Fixpoint addEvents (events : list nat) (w : State) : State :=
  match events with
  | [] => w
  | event :: events' => addEvents events' (fst (addEvent event w))
  end.

End Service.

(** A service that has not seen any event, over a heap of event objects. *)
Definition freshService (h : list OrderedEvent) (t : Z) : State :=
  {| world := {| heap := h; calls := []; now := t |};
     buffers := ∅; timers := [] |}.

(** The handler of the source: it resolves. *)
Definition sourceHandler : list Call -> OrderedEvent -> option Thrown :=
  fun _ _ => None.

(** [createMockOrderedEvent({ entityId, sequenceNumber })] *)
Definition mockEvent (entity : string) (seq : Z) : OrderedEvent :=
  mkEvent "test-event" 0 "1.0" seq entity (Some "test-correlation") false None.

(** Three events of entity [e] with the sequence numbers 3, 1 and 2, and
    three with the sequence numbers 1, 2 and 3. *)
Definition heap312 : list OrderedEvent :=
  [mockEvent "e" 3; mockEvent "e" 1; mockEvent "e" 2].

Definition heap123 : list OrderedEvent :=
  [mockEvent "e" 1; mockEvent "e" 2; mockEvent "e" 3].

(** A handler that throws on every call, as [mockRejectedValue] makes. *)
Definition failingHandler : list Call -> OrderedEvent -> option Thrown :=
  fun _ _ => Some (ThrowError (newError "Processing failed")).

(** *** Notions used in the statements *)

(** The order of the comparator, on references. *)
Definition bySequence (h : list OrderedEvent) (a b : nat) : Prop :=
  sequenceNumber (h !!! a) <= sequenceNumber (h !!! b).


(** The sequence numbers of the invocations that resolved for events of one
    entity, in invocation order. *)
Definition processedSequences (entity : string) (cs : list Call) : list Z :=
  omap (fun c =>
          match callError c with
          | None =>
              if decide (entityId (callArg c) = entity)
              then Some (sequenceNumber (callArg c)) else None
          | Some _ => None
          end) cs.

(** The sequence numbers of all invocations for events of one entity. *)
Definition invokedSequencesOf (entity : string) (cs : list Call) : list Z :=
  omap (fun c =>
          if decide (entityId (callArg c) = entity)
          then Some (sequenceNumber (callArg c)) else None) cs.

(** The sequence numbers of all invocations, in invocation order. *)
Definition invokedSequences (cs : list Call) : list Z :=
  (fun c => sequenceNumber (callArg c)) <$> cs.

(** The entity's watermark, [0] when it has no buffer. *)
Definition watermark (entity : string) (w : State) : Z :=
  match buffers w !! entity with
  | Some buffer => lastProcessedSequence buffer
  | None => 0
  end.

(** The head is handed to the callback when it is the expected event, when
    the cold-start exception applies, or when the gap is large. *)
Definition released (last seq : Z) : bool :=
  (seq =? last + 1)
  || (last + 1 <? seq) && (((seq - (last + 1) =? 1) && (last =? 0))
                          || (5 <? seq - (last + 1))).

(** Every pending reference of a buffer denotes an event of its entity. *)
Definition pendingOwned (w : State) : Prop :=
  forall entity buffer, buffers w !! entity = Some buffer ->
    Forall (fun r => entityId (heap (world w) !!! r) = entity)
           (pendingEvents buffer).

(** Per entity, the processed sequence numbers ascend strictly and stay
    below the watermark. *)
Definition ascendingPerEntity (w : State) : Prop :=
  forall entity,
    StronglySorted Z.lt (processedSequences entity (calls (world w)))
    /\ Forall (fun s => s <= watermark entity w)
              (processedSequences entity (calls (world w))).

(** An event that is marked processed was so from the start, or the
    callback resolved on it. *)
Definition flagsJustified (h0 : list OrderedEvent) (x : World) : Prop :=
  forall r, processed (heap x !!! r) = true ->
    processed (h0 !!! r) = true
    \/ exists c, c ∈ calls x /\ callRef c = r /\ callError c = None.

(** The call log is the handler's: every logged outcome is what the handler
    answers on the log before it. *)
Inductive answeredBy (handler : list Call -> OrderedEvent -> option Thrown)
  : list Call -> Prop :=
  | answered_nil : answeredBy handler []
  | answered_snoc cs r ev :
      answeredBy handler cs ->
      answeredBy handler (cs ++ [mkCall r ev (handler cs ev)]).

(** What the loop keeps while it drains the buffer of [entity], from the
    world [x1] in which the loop is entered. *)
Definition loopKeeps (handler : list Call -> OrderedEvent -> option Thrown)
    (h0 : list OrderedEvent) (entity : string) (x1 : World)
    (last : Z) (x : World) : Prop :=
  (forall r, entityId (heap x !!! r) = entityId (heap x1 !!! r))
  /\ (forall entity', entity' <> entity ->
        processedSequences entity' (calls x)
        = processedSequences entity' (calls x1))
  /\ StronglySorted Z.lt (processedSequences entity (calls x))
  /\ Forall (fun s => s <= last) (processedSequences entity (calls x))
  /\ flagsJustified h0 x
  /\ answeredBy handler (calls x).

(** The invariants of the service together. *)
Definition bufferInvariant (handler : list Call -> OrderedEvent -> option Thrown)
    (h0 : list OrderedEvent) (w : State) : Prop :=
  pendingOwned w /\ ascendingPerEntity w /\ flagsJustified h0 (world w)
  /\ answeredBy handler (calls (world w)).

(** *** Observability *)

(** The result of [getBufferStats]. *)
Record BufferStats := mkStats {
  totalBuffers : nat;
  totalPendingEvents : nat }.

(** [getBufferStats]: the number of buffers, and the pending events summed
    over [this.buffers.values()] (the order of the iteration does not matter
    to the sum). *)
Definition getBufferStats (w : State) : BufferStats :=
  {| totalBuffers := size (buffers w);
     totalPendingEvents :=
       map_fold (fun _ buffer total =>
                   (total + length (pendingEvents buffer))%nat)
                0%nat (buffers w) |}.

(** [getAllBuffers]: a new map with the same entries. *)
Definition getAllBuffers (w : State) : gmap string EventBuffer := buffers w.

End EventBuffer.

(** ** RetryService *)

Module Retry.

(** [String.prototype.includes] *)
Fixpoint includes (s sub : string) : bool :=
  if String.prefix sub s then true
  else match s with
       | EmptyString => false
       | String _ s' => includes s' sub
       end.

(** [Error.prototype.toString] *)
Definition toString (e : Error) : string :=
  if decide (name e = "") then message e
  else if decide (message e = "") then name e
  else name e +:+ ": " +:+ message e.

(** The [TypeError] of reading a property of [undefined]. *)
Definition typeErrorUndefined (prop : string) : Error :=
  {| name := "TypeError";
     message := "Cannot read properties of undefined (reading '" +:+ prop +:+ "')";
     code := None |}.

(** [operationType]: [database], [rabbitmq], [http] or [default]. *)
Inductive OperationType := opDatabase | opRabbitmq | opHttp | opDefault.

(** [RetryOptions], every field optional. The delay fields ([baseDelay],
    [maxDelay], [backoffMultiplier], [jitterEnabled]) only set how long the
    caller sleeps between two attempts; sleeping and its duration (floating
    point, random jitter) are not modelled. *)
Record RetryOptions := mkOptions {
  maxRetries : option Z;
  retryableErrors : option (list string);
  operationType : option OperationType }.

Definition noOptions : RetryOptions := mkOptions None None None.

(** The [for (let attempt = 0; attempt <= maxRetries; attempt++)] loop of
    both variants, over the state the operation acts on. The variants differ
    in [isRetryable], in what they throw when the last allowed attempt failed
    with a retryable error ([onExhausted]), and in the property they read
    first from the caught value (reading it from [undefined] is a
    [TypeError]). [fuel] counts the iterations that the loop condition still
    allows; when none is left the code falls out of the loop to
    [throw lastError]. *)
Section Loop.

Context {Sigma Result : Type}.
Variable operation : Sigma -> Sigma * Completion Result.
Variable isRetryable : Error -> bool.
Variable maxRetries' : Z.
Variable onExhausted : Error -> Thrown.
(** The property of the caught value that [isRetryableError] reads first. *)
Variable firstProperty : string.

Fixpoint retryLoop (fuel : nat) (attempt : Z) (lastError : Thrown) (s : Sigma)
  : Sigma * Completion Result :=
  match fuel with
  | O => (s, Rejected lastError)
  | S fuel' =>
      match operation s with
      | (s', Resolved result) => (s', Resolved result)
      | (s', Rejected ThrowUndefined) =>
          (s', Rejected (ThrowError (typeErrorUndefined firstProperty)))
      | (s', Rejected (ThrowError error)) =>
          if negb (isRetryable error) then (s', Rejected (ThrowError error))
          else if attempt =? maxRetries' then (s', Rejected (onExhausted error))
          else retryLoop fuel' (attempt + 1) (ThrowError error) s'
      end
  end.

End Loop.

(** The state after [n] invocations of the operation, one after the
    other. *)
Definition invocations {Sigma Result} (operation : Sigma -> Sigma * Completion Result) (n : nat)
    (s : Sigma) : Sigma :=
  Nat.iter n (fun s => (operation s).1) s.

(** The operation fails on every state, with an error that is retryable. *)
Definition failsRetryably {Sigma Result} (operation : Sigma -> Sigma * Completion Result)
    (isRetryable : Error -> bool) : Prop :=
  forall s, exists e,
    (operation s).2 = Rejected (ThrowError e) /\ isRetryable e = true.

(** An operation on a counter of its invocations that is always refused
    by the broker. *)
Definition refused : nat -> nat * Completion unit :=
  fun n => (S n,
            Rejected (ThrowError (newError "ECONNREFUSED: Connection refused"))).

(** An operation on a counter of its invocations that is refused by the
    broker while the counter is below [k] and resolves with the counter
    from then on. *)
Definition flaky (k : nat) : nat -> nat * Completion nat :=
  fun n => (S n,
            if (n <? k)%nat
            then Rejected (ThrowError (newError "ECONNREFUSED: Connection refused"))
            else Resolved n).

(** An operation that fails with a validation error, which no list of
    retryable signatures of the source names. *)
Definition invalid : nat -> nat * Completion unit :=
  fun n => (S n, Rejected (ThrowError (newError "Validation failed"))).

(** *** The order service's variant ([retry.service.ts]) *)

Module Order.

(** The retry settings of the configuration service that is injected:
    the number that [configService.get<number>('RETRY_MAX_ATTEMPTS', 3)]
    finds, as the configuration service of the unit test holds it, and
    [None] where the setting is absent (the call then returns its default,
    the number 3). A configuration service that hands on the text of an
    environment variable unconverted is no instance of this record: a
    string budget is never [===] the number of an attempt. *)
Record ConfigService := mkConfig {
  RETRY_MAX_ATTEMPTS : option Z }.

(** [this.defaultRetryOptions], as the constructor builds it. *)
Definition defaultRetryOptions (configService : ConfigService) : RetryOptions :=
  {| maxRetries := Some (default 3 (RETRY_MAX_ATTEMPTS configService));
     retryableErrors := Some
       ["ECONNREFUSED"; "ENOTFOUND"; "ETIMEDOUT"; "ECONNRESET";
        "Connection closed"; "Channel closed"; "Connection lost";
        "Connection terminated"; "Connection timeout";
        "PRECONDITION_FAILED"; "SERVICE_UNAVAILABLE"; "TIMEOUT"];
     operationType := None |}.

Definition getRetryConfigByType (t : OperationType) : RetryOptions :=
  match t with
  | opDatabase => mkOptions (Some 5) None None
  | opRabbitmq => mkOptions (Some 3) None None
  | opHttp => mkOptions (Some 3) None None
  | opDefault => noOptions
  end.

(** [a || b] on optional fields, and the object spread
    [{...a, ...b}]: the later object wins where it has the field. *)
Definition orElse {A} (a b : option A) : option A :=
  match a with Some _ => a | None => b end.

Definition mergeOptions (configService : ConfigService)
    (options : RetryOptions) : RetryOptions :=
  let defaultRetryOptions := defaultRetryOptions configService in
  let operationType' :=
    match operationType options with Some t => t | None => opDefault end in
  let typeSpecificOptions := getRetryConfigByType operationType' in
  {| maxRetries :=
       orElse (maxRetries options)
         (orElse (maxRetries typeSpecificOptions)
                 (maxRetries defaultRetryOptions));
     retryableErrors :=
       orElse (retryableErrors options)
         (orElse (retryableErrors typeSpecificOptions)
                 (retryableErrors defaultRetryOptions));
     operationType :=
       orElse (operationType options)
         (orElse (operationType typeSpecificOptions)
                 (operationType defaultRetryOptions)) |}.

(** [isRetryableError]: a listed signature occurs in the error's message
    (or in its string form, when the message is empty). *)
Definition isRetryableError (error : Error) (signatures : list string) : bool :=
  let errorMessage :=
    if decide (message error = "") then toString error else message error in
  existsb (fun retryableError => includes errorMessage retryableError)
          signatures.

(** The error thrown when the attempts are used up. *)
Definition exhausted (maxRetries' : Z) (context : string) (error : Error)
  : Thrown :=
  ThrowError (newError
    ("Operation failed after " +:+ pretty (maxRetries' + 1) +:+ " attempts: "
     +:+ context +:+ ". Last error: " +:+ message error)).

(** [executeWithRetry(operation, options, context)] *)
Definition executeWithRetry {Sigma Result} (configService : ConfigService)
    (operation : Sigma -> Sigma * Completion Result)
    (options : RetryOptions) (context : string) (s : Sigma) : Sigma * Completion Result :=
  let config := mergeOptions configService options in
  let maxRetries' := default 0 (maxRetries config) in
  let signatures := default [] (retryableErrors config) in
  retryLoop operation (fun e => isRetryableError e signatures) maxRetries'
    (exhausted maxRetries' context) "message"
    (Z.to_nat (maxRetries' + 1)) 0 ThrowUndefined s.

End Order.

(** *** The variant without a configuration service (second copy of
    [retry.service.ts]) *)

Module Plain.

Definition defaultRetryableErrors : list string :=
  ["ECONNREFUSED"; "TIMEOUT"; "DATABASE_ERROR"; "SERVICE_UNAVAILABLE"].

(** [isRetryableError]: the signature occurs in
    [error.code || error.name || error.message] or in the message. *)
Definition isRetryableError (error : Error) (signatures : list string) : bool :=
  let errorCode :=
    match code error with
    | Some c => if decide (c = "") then None else Some c
    | None => None
    end in
  let errorCode :=
    match errorCode with
    | Some c => c
    | None => if decide (name error = "") then message error else name error
    end in
  existsb (fun retryableError =>
             includes errorCode retryableError
             || includes (message error) retryableError)
          signatures.

(** [executeWithRetry(operation, options)]: when the attempts are used up
    the caught error itself is thrown. *)
Definition executeWithRetry {Sigma Result} (operation : Sigma -> Sigma * Completion Result)
    (options : RetryOptions) (s : Sigma) : Sigma * Completion Result :=
  let maxRetries' := default 3 (maxRetries options) in
  let signatures := default defaultRetryableErrors (retryableErrors options) in
  retryLoop operation (fun e => isRetryableError e signatures) maxRetries'
    ThrowError "code"
    (Z.to_nat (maxRetries' + 1)) 0 ThrowUndefined s.

End Plain.

End Retry.

(** ** SequenceService *)

Module Sequence.

(** An [EventSequenceEntity] object. *)
Record EventSequenceEntity := mkSequence {
  entityId : string;
  entityType : string;
  lastSequenceNumber : Z;
  updatedAt : Z }.

(** The columns of a row of [event_sequences] besides its primary key
    [(entityId, entityType)]. *)
Record Counter := mkCounter {
  counterValue : Z;
  counterUpdatedAt : Z }.

(** The database: the table by primary key, the clock, and the number of
    transactions started so far. *)
Record Db := mkDb {
  rows : gmap (string * string) Counter;
  dbNow : Z;
  transactions : nat }.

(** What the storage layer may refuse: [findOne] and [save] of the
    transaction with the given index can throw. *)
Record Storage := mkStorage {
  findOneFault : nat -> string -> string -> option Thrown;
  saveFault : nat -> EventSequenceEntity -> option Thrown }.

(** A storage layer that never fails. *)
Definition reliable : Storage := mkStorage (fun _ _ _ => None) (fun _ _ => None).

Section Service.

Variable storage : Storage.

(** [manager.findOne(EventSequenceEntity, { where: { entityId, entityType } })]
    inside the transaction. *)
Definition findOne (tx : nat) (entityId' entityType' : string)
    (table : gmap (string * string) Counter)
  : Completion (option EventSequenceEntity) :=
  match findOneFault storage tx entityId' entityType' with
  | Some t => Rejected t
  | None =>
      Resolved
        (match table !! (entityId', entityType') with
         | Some row =>
             Some (mkSequence entityId' entityType' (counterValue row)
                              (counterUpdatedAt row))
         | None => None
         end)
  end.

(** [manager.save(sequence)] inside the transaction. *)
Definition save (tx : nat) (sequence : EventSequenceEntity)
    (table : gmap (string * string) Counter)
  : gmap (string * string) Counter * Completion unit :=
  match saveFault storage tx sequence with
  | Some t => (table, Rejected t)
  | None =>
      (<[(entityId sequence, entityType sequence) :=
           mkCounter (lastSequenceNumber sequence) (updatedAt sequence)]> table,
       Resolved tt)
  end.

(** The body of the transaction of [getNextSequenceNumber], on the table as
    the transaction sees it. *)
Definition nextInTransaction (tx : nat) (time : Z)
    (entityId' entityType' : string)
    (table : gmap (string * string) Counter)
  : gmap (string * string) Counter * Completion Z :=
  match findOne tx entityId' entityType' table with
  | Rejected t => (table, Rejected t)
  | Resolved None =>
      let sequence := mkSequence entityId' entityType' 1 time in
      match save tx sequence table with
      | (table', Resolved _) => (table', Resolved 1)
      | (table', Rejected t) => (table', Rejected t)
      end
  | Resolved (Some sequence) =>
      let sequence' :=
        mkSequence (entityId sequence) (entityType sequence)
                   (lastSequenceNumber sequence + 1) time in
      match save tx sequence' table with
      | (table', Resolved _) =>
          (table', Resolved (lastSequenceNumber sequence'))
      | (table', Rejected t) => (table', Rejected t)
      end
  end.

(** [getNextSequenceNumber]: the transaction commits what its body wrote
    when the body resolves, and rolls back when it throws. *)
Definition getNextSequenceNumber (entityId' entityType' : string) (db : Db)
  : Db * Completion Z :=
  let tx := transactions db in
  match nextInTransaction tx (dbNow db) entityId' entityType' (rows db) with
  | (table', Resolved n) => (mkDb table' (dbNow db) (S tx), Resolved n)
  | (_, Rejected t) => (mkDb (rows db) (dbNow db) (S tx), Rejected t)
  end.

(** [getCurrentSequence]: [sequence?.lastSequenceNumber || 0] *)
Definition getCurrentSequence (entityId' entityType' : string) (db : Db) : Z :=
  match rows db !! (entityId', entityType') with
  | Some row => counterValue row
  | None => 0
  end.

(** [resetSequence] *)
Definition resetSequence (entityId' entityType' : string) (db : Db) : Db :=
  mkDb (delete (entityId', entityType') (rows db)) (dbNow db) (transactions db).

(** Allocations for a list of pairs, each awaited before the next: the
    final database and the completions in call order. *)
Fixpoint allocateAll (requests : list (string * string)) (db : Db)
  : Db * list (Completion Z) :=
  match requests with
  | [] => (db, [])
  | (entityId', entityType') :: requests' =>
      let '(db', c) := getNextSequenceNumber entityId' entityType' db in
      let '(db'', cs) := allocateAll requests' db' in
      (db'', c :: cs)
  end.

End Service.

(** The values that the allocations for one pair resolved with, in call
    order. *)
Fixpoint resolvedFor (entityId' entityType' : string)
    (requests : list (string * string)) (cs : list (Completion Z)) : list Z :=
  match requests, cs with
  | request :: requests', c :: cs' =>
      match c with
      | Resolved n =>
          if decide (request = (entityId', entityType'))
          then n :: resolvedFor entityId' entityType' requests' cs'
          else resolvedFor entityId' entityType' requests' cs'
      | Rejected _ => resolvedFor entityId' entityType' requests' cs'
      end
  | _, _ => []
  end.

(** [first + 1, ..., first + n] *)
Definition consecutive (first : Z) (n : nat) : list Z :=
  (fun i => first + Z.of_nat i) <$> seq 1 n.

End Sequence.

(** ** EventPublisher of the order service *)

Module Publisher.

(** The fields of an order that the publisher reads. *)
Record Order := mkOrder {
  id : string;
  customerId : string }.

Inductive Sink := inventoryClient | notificationClient.

(** One call of [client.emit(routingKey, ...).toPromise()]: where it went,
    the headers that identify the message, and the error it was rejected
    with ([None] when the broker took the message). *)
Record Emission := mkEmission {
  sink : Sink;
  routingKey : string;
  messageId : string;
  emissionCorrelationId : string;
  emissionError : option Thrown }.

(** The publisher with its three services and the world they act on:
    the sequence table, the event buffer, the emissions attempted so far and
    the number of identifiers drawn from [uuidv4]. *)
Record System := mkSystem {
  db : Sequence.Db;
  bufferService : EventBuffer.State;
  emissions : list Emission;
  uuids : nat }.

(** [OrderCreatedEvent], without its payload. *)
Record DomainEvent := mkDomainEvent {
  eventId : string;
  eventType : string;
  eventTimestamp : Z;
  eventVersion : string;
  eventSequenceNumber : Z;
  eventEntityId : string;
  eventCorrelationId : string }.

(** The [OrderedEvent] object literal that the publisher builds from the
    event. *)
Definition orderedEventOf (event : DomainEvent) : EventBuffer.OrderedEvent :=
  EventBuffer.mkEvent (eventId event) (eventTimestamp event)
    (eventVersion event) (eventSequenceNumber event)
    (eventEntityId event) (Some (eventCorrelationId event)) false None.

(** A new object on the heap; its reference is the next free index. *)
Definition newObject (object : EventBuffer.OrderedEvent)
    (b : EventBuffer.State) : EventBuffer.State :=
  let x := EventBuffer.world b in
  EventBuffer.mkState
    (EventBuffer.mkWorld (EventBuffer.heap x ++ [object])
       (EventBuffer.calls x) (EventBuffer.now x))
    (EventBuffer.buffers b) (EventBuffer.timers b).

Section Service.

Variable storage : Sequence.Storage.
Variable configService : Retry.Order.ConfigService.
Variable handleGenericEvent :
  list EventBuffer.Call -> EventBuffer.OrderedEvent -> option Thrown.
(** The [n]-th identifier that [uuidv4()] returns. *)
Variable uuid : nat -> string.
(** The broker: whether the [n]-th emission of the run is rejected. *)
Variable broker : nat -> Sink -> string -> option Thrown.

Definition uuidv4 (w : System) : string * System :=
  (uuid (uuids w),
   mkSystem (db w) (bufferService w) (emissions w) (S (uuids w))).

(** [client.emit(routingKey, message).toPromise()] *)
Definition emit (client : Sink) (key messageId' correlationId' : string)
    (w : System) : System * Completion unit :=
  let outcome := broker (length (emissions w)) client key in
  (mkSystem (db w) (bufferService w)
     (emissions w ++ [mkEmission client key messageId' correlationId' outcome])
     (uuids w),
   match outcome with
   | None => Resolved tt
   | Some t => Rejected t
   end).

(** [publishToInventory]: the error of [executeWithRetry] is caught, logged
    and thrown again. *)
Definition publishToInventory (event : DomainEvent) (key : string) (w : System)
  : System * Completion unit :=
  Retry.Order.executeWithRetry configService
    (emit inventoryClient key (eventId event) (eventCorrelationId event))
    (Retry.mkOptions None None (Some Retry.opRabbitmq))
    ("publish-inventory-event-" +:+ eventId event) w.

(** [publishToNotification]: the notification carries neither an id nor a
    correlation id, so every attempt draws three identifiers (the message's
    correlation id and the two headers), and the context string one more. *)
Definition publishToNotification (key : string) (w : System)
  : System * Completion unit :=
  let '(contextId, w0) := uuidv4 w in
  Retry.Order.executeWithRetry configService
    (fun w1 =>
       let '(_, w2) := uuidv4 w1 in
       let '(messageId', w3) := uuidv4 w2 in
       let '(correlationId', w4) := uuidv4 w3 in
       emit notificationClient key messageId' correlationId' w4)
    (Retry.mkOptions None None (Some Retry.opRabbitmq))
    ("publish-notification-event-" +:+ contextId) w0.

(** The first half of [publishOrderCreated(order, correlationId)]: allocate
    the sequence number, build the event and the [OrderedEvent] object, and
    hand the latter to the buffer. It resolves with the event to emit. *)
Definition admitOrderCreated (order : Order) (correlationId : option string)
    (w : System) : System * Completion DomainEvent :=
  match Sequence.getNextSequenceNumber storage (id order) "order" (db w) with
  | (db1, Rejected t) =>
      (mkSystem db1 (bufferService w) (emissions w) (uuids w), Rejected t)
  | (db1, Resolved sequenceNumber) =>
      let w1 := mkSystem db1 (bufferService w) (emissions w) (uuids w) in
      let '(eventId', w2) := uuidv4 w1 in
      let time := EventBuffer.now (EventBuffer.world (bufferService w2)) in
      let '(correlationId', w3) :=
        match correlationId with
        | Some c => if decide (c = "") then uuidv4 w2 else (c, w2)
        | None => uuidv4 w2
        end in
      let event :=
        mkDomainEvent eventId' "order.created" time "1.0" sequenceNumber
                      (id order) correlationId' in
      let b := bufferService w3 in
      let ref := length (EventBuffer.heap (EventBuffer.world b)) in
      let b1 := newObject (orderedEventOf event) b in
      match EventBuffer.addEvent handleGenericEvent ref b1 with
      | (b2, Rejected t) =>
          (mkSystem (db w3) b2 (emissions w3) (uuids w3), Rejected t)
      | (b2, Resolved _) =>
          (mkSystem (db w3) b2 (emissions w3) (uuids w3), Resolved event)
      end
  end.

(** [publishOrderCreated(order, correlationId)]: after the admission, the
    emission to the inventory service and then to the notification
    service; the first rejection is the method's. *)
Definition publishOrderCreated (order : Order) (correlationId : option string)
    (w : System) : System * Completion unit :=
  match admitOrderCreated order correlationId w with
  | (w4, Rejected t) => (w4, Rejected t)
  | (w4, Resolved event) =>
      match publishToInventory event "order.created" w4 with
      | (w5, Rejected t) => (w5, Rejected t)
      | (w5, Resolved _) => publishToNotification "order.notification" w5
      end
  end.

End Service.

(** The part of the system that emissions leave alone: the sequence table
    and the event buffer. *)
Definition ordering (w : System) : Sequence.Db * EventBuffer.State :=
  (db w, bufferService w).

(** A system that has published nothing yet. *)
Definition freshSystem : System :=
  mkSystem (Sequence.mkDb ∅ 0 0) (EventBuffer.freshService [] 0) [] 0.

(** A broker that refuses every emission. *)
Definition brokerDown : nat -> Sink -> string -> option Thrown :=
  fun _ _ _ => Some (ThrowError (newError "ECONNREFUSED: Connection refused")).

(** *** The other two events of an order *)

Section Lifecycle.

Variable storage : Sequence.Storage.
Variable configService : Retry.Order.ConfigService.
Variable handleGenericEvent :
  list EventBuffer.Call -> EventBuffer.OrderedEvent -> option Thrown.
Variable uuid : nat -> string.
Variable broker : nat -> Sink -> string -> option Thrown.

(** The first half of [publishOrderCancelled(orderId, items, reason,
    correlationId)] and of [publishOrderDelivered(orderId, items,
    correlationId)], which are the same statements up to the event's
    [type]: allocate the sequence number of the order, build the event and
    the [OrderedEvent] object, and hand the latter to the buffer. *)
Definition admitOrderEvent (type orderId : string)
    (correlationId : option string) (w : System)
  : System * Completion DomainEvent :=
  match Sequence.getNextSequenceNumber storage orderId "order" (db w) with
  | (db1, Rejected t) =>
      (mkSystem db1 (bufferService w) (emissions w) (uuids w), Rejected t)
  | (db1, Resolved sequenceNumber) =>
      let w1 := mkSystem db1 (bufferService w) (emissions w) (uuids w) in
      let '(eventId', w2) := uuidv4 uuid w1 in
      let time := EventBuffer.now (EventBuffer.world (bufferService w2)) in
      let '(correlationId', w3) :=
        match correlationId with
        | Some c => if decide (c = "") then uuidv4 uuid w2 else (c, w2)
        | None => uuidv4 uuid w2
        end in
      let event :=
        mkDomainEvent eventId' type time "1.0" sequenceNumber
                      orderId correlationId' in
      let b := bufferService w3 in
      let ref := length (EventBuffer.heap (EventBuffer.world b)) in
      let b1 := newObject (orderedEventOf event) b in
      match EventBuffer.addEvent handleGenericEvent ref b1 with
      | (b2, Rejected t) =>
          (mkSystem (db w3) b2 (emissions w3) (uuids w3), Rejected t)
      | (b2, Resolved _) =>
          (mkSystem (db w3) b2 (emissions w3) (uuids w3), Resolved event)
      end
  end.

(** [publishOrderCancelled(orderId, items, reason, correlationId)] *)
Definition publishOrderCancelled (orderId : string)
    (correlationId : option string) (w : System) : System * Completion unit :=
  match admitOrderEvent "order.cancelled" orderId correlationId w with
  | (w4, Rejected t) => (w4, Rejected t)
  | (w4, Resolved event) =>
      match publishToInventory configService broker event "order.cancelled"
              w4 with
      | (w5, Rejected t) => (w5, Rejected t)
      | (w5, Resolved _) =>
          publishToNotification configService uuid broker
            "order.cancelled.notification" w5
      end
  end.

(** [publishOrderDelivered(orderId, items, correlationId)] *)
Definition publishOrderDelivered (orderId : string)
    (correlationId : option string) (w : System) : System * Completion unit :=
  match admitOrderEvent "order.delivered" orderId correlationId w with
  | (w4, Rejected t) => (w4, Rejected t)
  | (w4, Resolved event) =>
      match publishToInventory configService broker event "order.delivered"
              w4 with
      | (w5, Rejected t) => (w5, Rejected t)
      | (w5, Resolved _) =>
          publishToNotification configService uuid broker
            "order.notification" w5
      end
  end.

(** A call of one of the three publishing methods. *)
Inductive Publication :=
  | created (order : Order)
  | cancelled (orderId : string)
  | delivered (orderId : string).

Definition publish (p : Publication) (correlationId : option string)
    (w : System) : System * Completion unit :=
  match p with
  | created order =>
      publishOrderCreated storage configService handleGenericEvent uuid
        broker order correlationId w
  | cancelled orderId => publishOrderCancelled orderId correlationId w
  | delivered orderId => publishOrderDelivered orderId correlationId w
  end.

(** Calls of the publishing methods, each awaited before the next, by a
    caller that goes on after a rejection. *)
Fixpoint publishAll (ps : list (Publication * option string)) (w : System)
  : System :=
  match ps with
  | [] => w
  | (p, correlationId) :: ps' =>
      publishAll ps' (publish p correlationId w).1
  end.

End Lifecycle.

(** The order that a call is about, the [type] of its event (which is
    also the routing key to the inventory service), and the routing key
    of its notification. *)
Definition orderOf (p : Publication) : string :=
  match p with
  | created order => id order
  | cancelled orderId | delivered orderId => orderId
  end.

Definition typeOf (p : Publication) : string :=
  match p with
  | created _ => "order.created"
  | cancelled _ => "order.cancelled"
  | delivered _ => "order.delivered"
  end.

Definition notificationKeyOf (p : Publication) : string :=
  match p with
  | created _ | delivered _ => "order.notification"
  | cancelled _ => "order.cancelled.notification"
  end.

(** Attempts of which every one was refused, and attempts of which the
    last one, and only it, was accepted. *)
Definition refusedAll (es : list Emission) : Prop :=
  Forall (fun e => emissionError e <> None) es.

Definition acceptedLast (es : list Emission) : Prop :=
  exists failures ok,
    es = failures ++ [ok] /\ refusedAll failures /\ emissionError ok = None.

(** The sequence counter of the order and its buffer are in step: the
    buffer has nothing pending and its watermark is the counter (no buffer
    counts as watermark 0). *)
Definition inStep (orderId : string) (w : System) : Prop :=
  default (EventBuffer.mkBuffer orderId [] 0)
          (EventBuffer.buffers (bufferService w) !! orderId)
  = EventBuffer.mkBuffer orderId []
      (Sequence.getCurrentSequence orderId "order" (db w)).

End Publisher.

(** ** The order status rules ([order-status-rules.util.ts]) *)

Module OrderRules.

(** [OrderStatus]; every member's value is its name. *)
Inductive OrderStatus := PENDING | CONFIRMED | CANCELLED | SHIPPED | DELIVERED.

#[global] Instance OrderStatus_eq_dec : EqDecision OrderStatus.
Proof. solve_decision. Defined.

Definition statusString (status : OrderStatus) : string :=
  match status with
  | PENDING => "PENDING"
  | CONFIRMED => "CONFIRMED"
  | CANCELLED => "CANCELLED"
  | SHIPPED => "SHIPPED"
  | DELIVERED => "DELIVERED"
  end.

Definition ORDER_STATUS_TRANSITIONS (status : OrderStatus) : list OrderStatus :=
  match status with
  | PENDING => [CONFIRMED; CANCELLED]
  | CONFIRMED => [SHIPPED; CANCELLED]
  | SHIPPED => [DELIVERED; CANCELLED]
  | DELIVERED => []
  | CANCELLED => []
  end.

(** [Array.prototype.includes] on statuses. *)
Definition includesStatus (l : list OrderStatus) (status : OrderStatus) : bool :=
  existsb (fun s => bool_decide (s = status)) l.

Definition isValidStatusTransition (currentStatus newStatus : OrderStatus)
  : bool :=
  let allowedTransitions := ORDER_STATUS_TRANSITIONS currentStatus in
  includesStatus allowedTransitions newStatus.

(** [Array.prototype.join] *)
Fixpoint join (separator : string) (l : list string) : string :=
  match l with
  | [] => ""
  | [s] => s
  | s :: l' => s +:+ separator +:+ join separator l'
  end.

Definition getInvalidTransitionMessage (currentStatus newStatus : OrderStatus)
  : string :=
  let allowedTransitions := ORDER_STATUS_TRANSITIONS currentStatus in
  if (length allowedTransitions =? 0)%nat
  then "Order status '" +:+ statusString currentStatus
       +:+ "' is final and cannot be changed"
  else "Invalid status transition from '" +:+ statusString currentStatus
       +:+ "' to '" +:+ statusString newStatus
       +:+ "'. Allowed transitions: "
       +:+ join ", " (statusString <$> allowedTransitions).

Definition getNextPossibleStatuses (currentStatus : OrderStatus)
  : list OrderStatus :=
  ORDER_STATUS_TRANSITIONS currentStatus.

Definition isFinalStatus (status : OrderStatus) : bool :=
  (length (ORDER_STATUS_TRANSITIONS status) =? 0)%nat.

Definition isCancellableStatus (status : OrderStatus) : bool :=
  includesStatus (ORDER_STATUS_TRANSITIONS status) CANCELLED.

(** How far a status is along the life of an order. *)
Definition statusRank (status : OrderStatus) : nat :=
  match status with
  | PENDING => 0
  | CONFIRMED => 1
  | SHIPPED => 2
  | DELIVERED | CANCELLED => 3
  end.

(** A list of statuses of which each is a valid transition from the one
    before. *)
Fixpoint validChain (statuses : list OrderStatus) : bool :=
  match statuses with
  | a :: (b :: _) as rest => isValidStatusTransition a b && validChain rest
  | _ => true
  end.

End OrderRules.

(** ** OrderService ([order.service.ts]) *)

Module OrderService.

Export OrderRules.

(** What the methods throw: the HTTP exceptions of the service with their
    message (and, for the invalid transition, the [details.reason] of the
    response), or whatever a collaborator threw. *)
Inductive Failure :=
  | BadRequestException (message : string) (reason : option string)
  | NotFoundException (message : string)
  | InternalServerErrorException (message : string) (cause : Failure)
  | Other (t : Thrown).

Inductive Outcome (A : Type) :=
  | Returns (a : A)
  | Throws (f : Failure).
Arguments Returns {A} a.
Arguments Throws {A} f.

(** The columns of the [orders] table that the service reads, besides the
    primary key [id]; the items and the amount are only carried along. *)
Record OrderRow := mkRow {
  rowCustomerId : string;
  rowStatus : OrderStatus }.

(** An [Order] entity object. *)
Record OrderEntity := mkEntity {
  orderId : string;
  orderCustomerId : string;
  orderStatus : OrderStatus }.

Inductive OrderHistoryAction := actionCancelled | actionStatusUpdated.

(** The fields that [createHistoryRecord] is given. *)
Record OrderHistory := mkHistory {
  historyOrderId : string;
  action : OrderHistoryAction;
  previousStatus : OrderStatus;
  newStatus : OrderStatus;
  historyCustomerId : option string;
  adminId : option string;
  reason : option string;
  notes : string }.

(** The service's world: the two tables and the publisher with the world
    it acts on. *)
Record App := mkApp {
  orders : gmap string OrderRow;
  history : list OrderHistory;
  publisher : Publisher.System }.

(** What the repositories may refuse, given the world at the call. *)
Record Repositories := mkRepositories {
  findOneFault : App -> string -> option Thrown;
  saveFault : App -> OrderEntity -> option Thrown;
  historyFault : App -> OrderHistory -> option Thrown }.

(** Repositories that never fail. *)
Definition sound : Repositories :=
  mkRepositories (fun _ _ => None) (fun _ _ => None) (fun _ _ => None).

(** [PaymentResult], as far as [create] reads it. *)
Record PaymentResult := mkPayment {
  success : bool;
  errorMessage : option string }.

(** A template literal prints an absent string as [undefined]. *)
Definition interpolate (s : option string) : string :=
  match s with Some s => s | None => "undefined" end.

(** [!s] on an optional string. *)
Definition absent (s : option string) : bool :=
  match s with
  | None => true
  | Some s => bool_decide (s = "")
  end.

Section Service.

Variable repositories : Repositories.
Variable storage : Sequence.Storage.
Variable configService : Retry.Order.ConfigService.
Variable handleGenericEvent :
  list EventBuffer.Call -> EventBuffer.OrderedEvent -> option Thrown.
Variable uuid : nat -> string.
Variable broker : nat -> Publisher.Sink -> string -> option Thrown.
(** [inventoryValidationService.validateInventoryItems(items)]: a request
    to the inventory service and its reply; what it throws, if it does. *)
Variable validateInventoryItems : App -> option Failure.
(** [mockPaymentService.processPayment(request)] *)
Variable mockPaymentService : App -> OrderEntity -> Completion PaymentResult.

(** [orderRepository.save(order)] *)
Definition save (order : OrderEntity) (app : App) : App * Outcome OrderEntity :=
  match saveFault repositories app order with
  | Some t => (app, Throws (Other t))
  | None =>
      (mkApp (<[orderId order :=
                  mkRow (orderCustomerId order) (orderStatus order)]>
                (orders app))
             (history app) (publisher app),
       Returns order)
  end.

(** [createHistoryRecord(historyData)] *)
Definition createHistoryRecord (historyData : OrderHistory) (app : App)
  : App * Outcome unit :=
  match historyFault repositories app historyData with
  | Some t => (app, Throws (Other t))
  | None =>
      (mkApp (orders app) (history app ++ [historyData]) (publisher app),
       Returns tt)
  end.

(** [findOne(id)] *)
Definition findOne (id : string) (app : App) : Outcome OrderEntity :=
  match findOneFault repositories app id with
  | Some t => Throws (Other t)
  | None =>
      match orders app !! id with
      | Some row => Returns (mkEntity id (rowCustomerId row) (rowStatus row))
      | None =>
          Throws (NotFoundException
                    ("Order with ID " +:+ id +:+ " not found"))
      end
  end.

(** A call of a publishing method, on the publisher's part of the world. *)
Definition publishing (p : Publisher.Publication) (app : App)
  : App * Outcome unit :=
  match Publisher.publish storage configService handleGenericEvent uuid
          broker p None (publisher app) with
  | (system, Resolved _) =>
      (mkApp (orders app) (history app) system, Returns tt)
  | (system, Rejected t) =>
      (mkApp (orders app) (history app) system, Throws (Other t))
  end.

(** [updateStatus(id, status, adminId, reason, isFromSystem)] *)
Definition updateStatus (id : string) (status : OrderStatus)
    (adminId' reason' : option string) (isFromSystem : bool) (app : App)
  : App * Outcome OrderEntity :=
  if negb isFromSystem && absent adminId'
  then (app, Throws (BadRequestException
                       "Admin authorization required for status update" None))
  else
    match findOne id app with
    | Throws f => (app, Throws f)
    | Returns order =>
        let previousStatus' := orderStatus order in
        if negb (isValidStatusTransition previousStatus' status)
        then (app, Throws (BadRequestException
                             "Invalid order status transition"
                             (Some (getInvalidTransitionMessage
                                      previousStatus' status))))
        else
          let order := mkEntity (orderId order) (orderCustomerId order)
                                status in
          match save order app with
          | (app1, Throws f) => (app1, Throws f)
          | (app1, Returns updatedOrder) =>
              let historyData :=
                {| historyOrderId := id;
                   action := actionStatusUpdated;
                   previousStatus := previousStatus';
                   newStatus := status;
                   historyCustomerId := None;
                   adminId := if isFromSystem then Some "system"
                              else adminId';
                   reason := if absent reason' then None else reason';
                   notes :=
                     if isFromSystem
                     then "Status updated from "
                          +:+ statusString previousStatus' +:+ " to "
                          +:+ statusString status +:+ " by system event"
                     else if absent reason'
                     then "Status updated from "
                          +:+ statusString previousStatus' +:+ " to "
                          +:+ statusString status +:+ " by admin"
                     else "Status updated from "
                          +:+ statusString previousStatus' +:+ " to "
                          +:+ statusString status +:+ " by admin. Reason: "
                          +:+ interpolate reason' |} in
              match createHistoryRecord historyData app1 with
              | (app2, Throws f) => (app2, Throws f)
              | (app2, Returns _) =>
                  if bool_decide (status = DELIVERED)
                  then
                    match publishing (Publisher.delivered id) app2 with
                    | (app3, Throws f) => (app3, Throws f)
                    | (app3, Returns _) => (app3, Returns updatedOrder)
                    end
                  else (app2, Returns updatedOrder)
              end
          end
    end.

(** [cancel(id, reason)] *)
Definition cancel (id : string) (reason' : string) (app : App)
  : App * Outcome OrderEntity :=
  match findOne id app with
  | Throws f => (app, Throws f)
  | Returns order =>
      if bool_decide (orderStatus order = CANCELLED)
      then (app, Throws (BadRequestException "Order is already cancelled"
                                             None))
      else if negb (isCancellableStatus (orderStatus order))
      then (app, Throws (BadRequestException
                           ("Order cannot be cancelled from status '"
                            +:+ statusString (orderStatus order)
                            +:+ "'. Only PENDING and CONFIRMED orders can be cancelled.")
                           None))
      else
        let previousStatus' := orderStatus order in
        let order := mkEntity (orderId order) (orderCustomerId order)
                              CANCELLED in
        match save order app with
        | (app1, Throws f) => (app1, Throws f)
        | (app1, Returns cancelledOrder) =>
            let historyData :=
              {| historyOrderId := id;
                 action := actionCancelled;
                 previousStatus := previousStatus';
                 newStatus := CANCELLED;
                 historyCustomerId := Some (orderCustomerId order);
                 adminId := None;
                 reason := Some reason';
                 notes := "Order cancelled by customer. Reason: "
                          +:+ reason' |} in
            match createHistoryRecord historyData app1 with
            | (app2, Throws f) => (app2, Throws f)
            | (app2, Returns _) =>
                match publishing (Publisher.cancelled id) app2 with
                | (app3, Throws f) => (app3, Throws f)
                | (app3, Returns _) => (app3, Returns cancelledOrder)
                end
            end
        end
  end.

(** [processPayment(order)]: an error of the payment service becomes a
    failed payment; reading the [stack] of a thrown [undefined] is a
    [TypeError]. *)
Definition processPayment (order : OrderEntity) (app : App)
  : Outcome PaymentResult :=
  match mockPaymentService app order with
  | Resolved paymentResult => Returns paymentResult
  | Rejected (ThrowError _) =>
      Returns (mkPayment false (Some "Payment processing system error"))
  | Rejected ThrowUndefined =>
      Throws (Other (ThrowError (Retry.typeErrorUndefined "stack")))
  end.

(** The [try] block of [create(createOrderDto, customerId)], after the
    check of the customer id. *)
Definition creation (customerId : string) (app : App)
  : App * Outcome OrderEntity :=
  match validateInventoryItems app with
  | Some f => (app, Throws f)
  | None =>
      let '(orderId', system) := Publisher.uuidv4 uuid (publisher app) in
      let app := mkApp (orders app) (history app) system in
      let order := mkEntity orderId' customerId PENDING in
      match save order app with
      | (app1, Throws f) => (app1, Throws f)
      | (app1, Returns savedOrder) =>
          match processPayment savedOrder app1 with
          | Throws f => (app1, Throws f)
          | Returns paymentResult =>
              if success paymentResult
              then
                match updateStatus (orderId savedOrder) CONFIRMED
                        (Some "system-payment") None false app1 with
                | (app2, Throws f) => (app2, Throws f)
                | (app2, Returns confirmedOrder) =>
                    match publishing
                            (Publisher.created
                               (Publisher.mkOrder
                                  (orderId confirmedOrder)
                                  (orderCustomerId confirmedOrder)))
                            app2 with
                    | (app3, Throws f) => (app3, Throws f)
                    | (app3, Returns _) => (app3, Returns confirmedOrder)
                    end
                end
              else
                let message :=
                  "Payment failed: "
                  +:+ interpolate (errorMessage paymentResult) in
                match updateStatus (orderId savedOrder) CANCELLED
                        (Some "system-payment") (Some message) false
                        app1 with
                | (app2, Throws f) => (app2, Throws f)
                | (app2, Returns _) =>
                    (app2, Throws (BadRequestException message None))
                end
          end
      end
  end.

(** What the [catch] block of [create] throws for what it caught: it
    passes on a [BadRequestException] or a [NotFoundException] and wraps
    everything else; it reads the [message] of what was thrown first. *)
Definition caught (f : Failure) : Failure :=
  match f with
  | Other ThrowUndefined =>
      Other (ThrowError (Retry.typeErrorUndefined "message"))
  | BadRequestException _ _ | NotFoundException _ => f
  | InternalServerErrorException _ _ | Other (ThrowError _) =>
      InternalServerErrorException "Failed to create order" f
  end.

(** [create(createOrderDto, customerId)] *)
Definition create (customerId : option string) (app : App)
  : App * Outcome OrderEntity :=
  let attempt :=
    match customerId with
    | Some customerId' =>
        if bool_decide (customerId' = "")
        then (app, Throws (BadRequestException "Customer ID is required"
                                               None))
        else creation customerId' app
    | None =>
        (app, Throws (BadRequestException "Customer ID is required" None))
    end in
  match attempt with
  | (app', Returns order) => (app', Returns order)
  | (app', Throws f) => (app', Throws (caught f))
  end.

(** The courses of a status change, which [updateStatus] and [cancel]
    share once they have let the request pass: nothing happened; the
    status was saved but the history record was refused; or the status was
    saved, the record written and, for a status that has an event, the
    event's publication attempted. *)
Definition changed (id : string) (status : OrderStatus) (event : bool)
    (p : Publisher.Publication) (app : App) (r : App * Outcome OrderEntity)
  : Prop :=
  (r.1 = app /\ exists f, r.2 = Throws f)
  \/ exists row,
       orders app !! id = Some row
       /\ isValidStatusTransition (rowStatus row) status = true
       /\ let orders1 :=
            <[id := mkRow (rowCustomerId row) status]> (orders app) in
          (r.1 = mkApp orders1 (history app) (publisher app)
           /\ exists f, r.2 = Throws f)
          \/ exists record,
               historyOrderId record = id
               /\ previousStatus record = rowStatus row
               /\ newStatus record = status
               /\ let app2 := mkApp orders1 (history app ++ [record])
                                    (publisher app) in
                  if event
                  then r.1 = (publishing p app2).1
                       /\ match (publishing p app2).2 with
                          | Returns _ =>
                              r.2 = Returns (mkEntity id (rowCustomerId row)
                                                      status)
                          | Throws f => r.2 = Throws f
                          end
                  else r = (app2, Returns (mkEntity id (rowCustomerId row)
                                                    status)).

(** A request to the service, and the world after the service has dealt
    with it and with a list of them, one after the other. *)
Inductive Request :=
  | createOrder (customerId : option string)
  | updateOrderStatus (id : string) (status : OrderStatus)
      (adminId' reason' : option string) (isFromSystem : bool)
  | cancelOrder (id : string) (reason' : string).

Definition serve (request : Request) (app : App) : App :=
  match request with
  | createOrder customerId => (create customerId app).1
  | updateOrderStatus id status adminId' reason' isFromSystem =>
      (updateStatus id status adminId' reason' isFromSystem app).1
  | cancelOrder id reason' => (cancel id reason' app).1
  end.

Definition serveAll (requests : list Request) (app : App) : App :=
  fold_left (fun app request => serve request app) requests app.

End Service.

(** A row before and after a call: it is still there, has its customer,
    and its status is the same or a valid transition further. *)
Definition movedAlong (before after : option OrderRow) : Prop :=
  match before, after with
  | Some b, Some a =>
      rowCustomerId a = rowCustomerId b
      /\ (rowStatus a = rowStatus b
          \/ isValidStatusTransition (rowStatus b) (rowStatus a) = true)
  | None, None => True
  | _, _ => False
  end.

(** The status of an order is final. *)
Definition final (id : string) (app : App) : Prop :=
  exists row, orders app !! id = Some row
              /\ isFinalStatus (rowStatus row) = true.

(** The sequence counter of an order. *)
Definition eventsOf (id : string) (app : App) : Z :=
  Sequence.getCurrentSequence id "order" (Publisher.db (publisher app)).

(** Every order in the table got its id from [uuidv4] and has no more
    events than its status allows (one before a final status, two with
    it), and only orders in the table have events. *)
Definition accounted (uuid : nat -> string) (app : App) : Prop :=
  forall id,
    match orders app !! id with
    | Some row =>
        (exists n, (n < Publisher.uuids (publisher app))%nat /\ id = uuid n)
        /\ 0 <= eventsOf id app
             <= (if isFinalStatus (rowStatus row) then 2 else 1)
    | None => eventsOf id app = 0
    end.

(** An application without orders. *)
Definition freshApp : App := mkApp ∅ [] Publisher.freshSystem.

(** An application with a cancelled order and a shipped one. *)
Definition twoOrders : App :=
  mkApp (<["order-1" := mkRow "customer-1" CANCELLED]>
           (<["order-2" := mkRow "customer-2" SHIPPED]> ∅))
        [] Publisher.freshSystem.

End OrderService.

(** ** Message headers *)

Module Headers.

Import Stdlib.Strings.Ascii.

(** The value of a header: a string, a number, or [undefined]. *)
Inductive HeaderValue :=
  | hString (s : string)
  | hNumber (n : Z)
  | hUndefined.

(** A headers object is a map from header names to values. *)

(** [headers[key]] *)
Definition get (headers : gmap string HeaderValue) (key : string) : HeaderValue :=
  default hUndefined (headers !! key).

(** [a || b] on header values. *)
Definition orValue (a b : HeaderValue) : HeaderValue :=
  match a with
  | hString s => if decide (s = "") then b else a
  | hNumber n => if decide (n = 0) then b else a
  | hUndefined => b
  end.

(** The value of a digit or letter as a digit of [parseInt]. *)
Definition digitOf (c : Ascii.ascii) : option Z :=
  let n := Z.of_N (Ascii.N_of_ascii c) in
  if (48 <=? n) && (n <=? 57) then Some (n - 48)
  else if (97 <=? n) && (n <=? 122) then Some (n - 87)
  else if (65 <=? n) && (n <=? 90) then Some (n - 55)
  else None.

Definition isDigitOf (radix : Z) (c : Ascii.ascii) : bool :=
  match digitOf c with
  | Some d => d <? radix
  | None => false
  end.

(** The value of the longest prefix of digits, read after [acc]. *)
Fixpoint digitsFrom (radix : Z) (s : string) (acc : Z) : Z :=
  match s with
  | String c s' =>
      match digitOf c with
      | Some d =>
          if d <? radix then digitsFrom radix s' (acc * radix + d) else acc
      | None => acc
      end
  | EmptyString => acc
  end.

(** White space and line terminators, among the characters below 128. *)
Definition isWhiteSpace (c : Ascii.ascii) : bool :=
  let n := Z.of_N (Ascii.N_of_ascii c) in
  ((9 <=? n) && (n <=? 13)) || (n =? 32).

Fixpoint trimStart (s : string) : string :=
  match s with
  | String c s' => if isWhiteSpace c then trimStart s' else s
  | EmptyString => s
  end.

(** The sign that a string begins with, and the rest of the string. *)
Definition signOf (s : string) : Z * string :=
  match s with
  | String c s' =>
      if Ascii.eqb c "-" then (-1, s')
      else if Ascii.eqb c "+" then (1, s')
      else (1, s)
  | EmptyString => (1, s)
  end.

(** The radix that a string without sign asks for, [0x] or [0X] for 16,
    and the rest of the string. *)
Definition radixOf (s : string) : Z * string :=
  match s with
  | String c (String c' s') =>
      if Ascii.eqb c "0" && (Ascii.eqb c' "x" || Ascii.eqb c' "X")
      then (16, s')
      else (10, s)
  | _ => (10, s)
  end.

(** [parseInt(string)] without a radix, on a string: [None] is [NaN]. The
    result is the exact integer; beyond 2^53 the number that JavaScript
    returns is the nearest double. *)
Definition parseIntString (inputString : string) : option Z :=
  let s := trimStart inputString in
  let '(sign, s) := signOf s in
  let '(radix, s) := radixOf s in
  match s with
  | String c _ =>
      if isDigitOf radix c then Some (sign * digitsFrom radix s 0) else None
  | EmptyString => None
  end.

(** [Number.prototype.toString] of an integer (below 10^21, where the
    exponent notation begins). *)
Definition numberToString (n : Z) : string := pretty n.

(** [parseInt(value)]: the value is converted to a string first. *)
Definition parseInt (value : HeaderValue) : option Z :=
  match value with
  | hString s => parseIntString s
  | hNumber n => parseIntString (numberToString n)
  | hUndefined => parseIntString "undefined"
  end.

Section RetryHeaders.

(** [Date.prototype.toISOString] of the time of the call. *)
Variable toISOString : Z -> string.

(** [getRetryCount(headers)] of both copies of [RetryService] *)
Definition getRetryCount (headers : gmap string HeaderValue) : option Z :=
  parseInt (orValue (get headers "x-retry-count") (hString "0")).

(** [setRetryHeaders(headers, retryCount, originalError)] of both copies
    of [RetryService], at the time [now] *)
Definition setRetryHeaders (now : Z) (headers : gmap string HeaderValue) (retryCount : Z)
    (originalError : option string)
  : gmap string HeaderValue :=
  <["x-original-error" :=
      match originalError with
      | Some e => if decide (e = "") then get headers "x-original-error"
                  else hString e
      | None => get headers "x-original-error"
      end]>
    (<["x-retry-timestamp" := hString (toISOString now)]>
       (<["x-retry-count" := hString (numberToString retryCount)]> headers)).

End RetryHeaders.

(** [shouldRetry(error, currentRetryCount, maxRetries)] of the order
    service's copy; a count that is [NaN] is below nothing. *)
Definition shouldRetry (error : Error) (currentRetryCount : option Z)
    (maxRetries : Z) : bool :=
  match currentRetryCount with
  | Some count => count <? maxRetries
  | None => false
  end
  && Retry.Order.isRetryableError error
       ["ECONNREFUSED"; "TIMEOUT"; "DATABASE_ERROR"; "SERVICE_UNAVAILABLE"].

(** A string of decimal digits, at least one. *)
Fixpoint allDigits (s : string) : bool :=
  match s with
  | String c s' => isDigitOf 10 c && allDigits s'
  | EmptyString => true
  end.

Definition decimal (s : string) : bool :=
  match s with
  | String _ _ => allDigits s
  | EmptyString => false
  end.

End Headers.

(** ** DLQService ([dlq.service.ts]) *)

Module DLQ.

Import Headers.

(** [getRetryCount(headers)]: the headers may be missing. *)
Definition getRetryCount (headers : option (gmap string HeaderValue)) : option Z :=
  parseInt (orValue (match headers with
                     | Some h => get h "x-retry-count"
                     | None => hUndefined
                     end)
                    (hString "0")).

(** [cleanDLQHeaders(headers)] *)
Definition cleanDLQHeaders (headers : gmap string HeaderValue)
  : gmap string HeaderValue :=
  <["x-retry-count" := hString "0"]>
    (delete "x-dlq-stack"
       (delete "x-dlq-reason" (delete "x-dlq-timestamp" headers))).

(** A stored [DLQMessage], as far as [reprocessDLQMessage] reads it. *)
Record DLQMessage := mkDLQMessage {
  messageId : string;
  headers : gmap string HeaderValue }.

(** [getDLQMessage(messageId)]: the store is not there yet, the method
    returns [null]. *)
Definition getDLQMessage (messageId' : string) : option DLQMessage := None.

(** [reprocessDLQMessage(messageId, targetQueue, client)] over the log of
    what was emitted to the client (queue and headers): the error is
    logged and thrown again. *)
Definition reprocessDLQMessage (messageId' targetQueue : string)
    (client : list (string * gmap string HeaderValue))
  : list (string * gmap string HeaderValue) * Completion unit :=
  match getDLQMessage messageId' with
  | None =>
      (client,
       Rejected (ThrowError (newError
         ("DLQ message with ID " +:+ messageId' +:+ " not found"))))
  | Some dlqMessage =>
      let cleanHeaders := cleanDLQHeaders (headers dlqMessage) in
      (client ++ [(targetQueue, cleanHeaders)], Resolved tt)
  end.

End DLQ.

(** * Properties *)

(** ** The event buffer *)

Section EventBufferFacts.

Import EventBuffer.

Variable handler : list Call -> OrderedEvent -> option Thrown.

(** Marking an event processed touches neither its sequence number nor its
    entity, and no other object's flag. *)
Lemma alter_setProcessed_sequenceNumber time r (h : list OrderedEvent) r' :
  sequenceNumber (alter (setProcessed time) r h !!! r')
  = sequenceNumber (h !!! r').
Proof.
  rewrite list_lookup_total_alter. case_decide as Hc; [|done].
  destruct Hc as [-> _]. done.
Qed.

Lemma alter_setProcessed_entityId time r (h : list OrderedEvent) r' :
  entityId (alter (setProcessed time) r h !!! r') = entityId (h !!! r').
Proof.
  rewrite list_lookup_total_alter. case_decide as Hc; [|done].
  destruct Hc as [-> _]. done.
Qed.

Lemma alter_setProcessed_processed time r (h : list OrderedEvent) r' :
  processed (alter (setProcessed time) r h !!! r') = true ->
  r' = r \/ processed (h !!! r') = true.
Proof.
  rewrite list_lookup_total_alter. case_decide as Hc; [|by right].
  destruct Hc as [-> _]. by left.
Qed.

Lemma alter_setProcessed_marked time r (h : list OrderedEvent) r' :
  (r < length h)%nat ->
  processed (alter (setProcessed time) r h !!! r')
  = if decide (r = r') then true else processed (h !!! r').
Proof.
  intros Hr. rewrite list_lookup_total_alter.
  destruct (decide (r = r')) as [->|Hne].
  - by rewrite decide_True.
  - rewrite decide_False; [done|]. by intros [? _].
Qed.

(** Proof steps for evaluating the service on given events. *)
Ltac eval_ltb :=
  repeat match goal with
         | |- context [Z.ltb ?a ?b] =>
             let v := eval vm_compute in (Z.ltb a b) in
             change (Z.ltb a b) with v
         end;
  cbv iota.

Ltac world_fields :=
  cbn [heap calls now world buffers timers markProcessed logCall freshService
       clearBuffer fst snd app];
  rewrite ?alter_setProcessed_sequenceNumber, ?alter_setProcessed_entityId.

(** What one attempt on the head does. *)
Lemma processHead_resolved r x :
  handler (calls x) (heap x !!! r) = None ->
  processHead handler r x
  = (markProcessed r (logCall (mkCall r (heap x !!! r) None) x),
     Some (sequenceNumber (heap x !!! r))).
Proof.
  intros Hh. unfold processHead, processEvent. rewrite Hh. simpl.
  by rewrite alter_setProcessed_sequenceNumber.
Qed.

Lemma processHead_rejected r x t :
  handler (calls x) (heap x !!! r) = Some t ->
  processHead handler r x
  = (logCall (mkCall r (heap x !!! r) (Some t)) x, None).
Proof. intros Hh. unfold processHead, processEvent. by rewrite Hh. Qed.

Lemma processHead_Some r x x' last' :
  processHead handler r x = (x', Some last') ->
  handler (calls x) (heap x !!! r) = None
  /\ x' = markProcessed r (logCall (mkCall r (heap x !!! r) None) x)
  /\ last' = sequenceNumber (heap x !!! r).
Proof.
  destruct (handler (calls x) (heap x !!! r)) as [t|] eqn:Hh.
  - rewrite (processHead_rejected _ _ t) by done. congruence.
  - rewrite processHead_resolved by done. intros [= <- <-]. done.
Qed.

Lemma processHead_None r x x' :
  processHead handler r x = (x', None) ->
  exists t, handler (calls x) (heap x !!! r) = Some t
    /\ x' = logCall (mkCall r (heap x !!! r) (Some t)) x.
Proof.
  destruct (handler (calls x) (heap x !!! r)) as [t|] eqn:Hh.
  - rewrite (processHead_rejected _ _ t) by done. intros [= <-]. eauto.
  - rewrite processHead_resolved by done. congruence.
Qed.

(** The three ways an iteration of the loop can go. *)
Lemma drain_released r rest last x :
  released last (sequenceNumber (heap x !!! r)) = true ->
  drain handler (r :: rest) last x
  = match processHead handler r x with
    | (x', Some last') => drain handler rest last' x'
    | (x', None) => (r :: rest, last, x')
    end.
Proof.
  unfold released. intros H. simpl.
  destruct (Z.eqb_spec (sequenceNumber (heap x !!! r)) (last + 1)); [done|].
  simpl in H. apply andb_true_iff in H as [Hlt H].
  apply Z.ltb_lt in Hlt.
  destruct (Z.ltb_spec (sequenceNumber (heap x !!! r)) (last + 1)); [lia|].
  apply orb_true_iff in H as [H|H].
  - by rewrite H.
  - rewrite H. by destruct (_ && _).
Qed.

Lemma drain_stale r rest last x :
  sequenceNumber (heap x !!! r) <= last ->
  drain handler (r :: rest) last x = drain handler rest last x.
Proof.
  intros H. simpl.
  destruct (Z.eqb_spec (sequenceNumber (heap x !!! r)) (last + 1)); [lia|].
  destruct (Z.ltb_spec (sequenceNumber (heap x !!! r)) (last + 1)); [done|lia].
Qed.

Lemma drain_waiting r rest last x :
  last < sequenceNumber (heap x !!! r) ->
  released last (sequenceNumber (heap x !!! r)) = false ->
  drain handler (r :: rest) last x = (r :: rest, last, x).
Proof.
  unfold released. intros Hlt H. simpl.
  apply orb_false_iff in H as [H1 H2]. rewrite H1.
  destruct (Z.ltb_spec (sequenceNumber (heap x !!! r)) (last + 1)); [lia|].
  apply andb_false_iff in H2 as [H2|H2].
  - apply Z.ltb_ge in H2. apply Z.eqb_neq in H1. lia.
  - apply orb_false_iff in H2 as [-> ->]. done.
Qed.

Lemma drain_resolved r rest last x :
  released last (sequenceNumber (heap x !!! r)) = true ->
  handler (calls x) (heap x !!! r) = None ->
  drain handler (r :: rest) last x
  = drain handler rest (sequenceNumber (heap x !!! r))
      (markProcessed r (logCall (mkCall r (heap x !!! r) None) x)).
Proof.
  intros Hrel Hh. rewrite drain_released by done.
  by rewrite processHead_resolved.
Qed.

Lemma drain_rejected r rest last x t :
  released last (sequenceNumber (heap x !!! r)) = true ->
  handler (calls x) (heap x !!! r) = Some t ->
  drain handler (r :: rest) last x
  = (r :: rest, last, logCall (mkCall r (heap x !!! r) (Some t)) x).
Proof.
  intros Hrel Hh. rewrite drain_released by done.
  by rewrite (processHead_rejected _ _ t).
Qed.

(** An invariant of the loop: a property of the watermark and the world
    that holds at loop entry and is kept by an attempt on a released head
    holds when the loop is left. *)
Lemma drain_invariant (P : Z -> World -> Prop) pending :
  (forall r last x x' last',
      r ∈ pending -> P last x ->
      last < sequenceNumber (heap x !!! r) ->
      processHead handler r x = (x', Some last') -> P last' x') ->
  (forall r last x x',
      r ∈ pending -> P last x ->
      last < sequenceNumber (heap x !!! r) ->
      processHead handler r x = (x', None) -> P last x') ->
  forall last x, P last x ->
    P (drain handler pending last x).1.2 (drain handler pending last x).2.
Proof.
  induction pending as [|r rest IH]; intros Hok Hfail last x HP; [done|].
  assert (Hrest : forall last x, P last x ->
    P (drain handler rest last x).1.2 (drain handler rest last x).2).
  { apply IH; intros; [eapply Hok|eapply Hfail]; eauto; by right. }
  destruct (Z_le_gt_dec (sequenceNumber (heap x !!! r)) last) as [Hle|Hgt].
  { rewrite drain_stale by done. by apply Hrest. }
  destruct (released last (sequenceNumber (heap x !!! r))) eqn:Hrel.
  - rewrite drain_released by done.
    destruct (processHead handler r x) as [x' [last'|]] eqn:Hhead.
    + apply Hrest. eapply Hok; eauto; [by left|lia].
    + simpl. eapply Hfail; eauto; [by left|lia].
  - rewrite drain_waiting by (done || lia). done.
Qed.

(** The events left pending are a suffix of the events that were pending. *)
Lemma drain_suffix pending last x :
  (drain handler pending last x).1.1 `suffix_of` pending.
Proof.
  revert last x. induction pending as [|r rest IH]; intros last x; [done|].
  assert (Hrest : forall last x,
    (drain handler rest last x).1.1 `suffix_of` r :: rest).
  { intros. by apply suffix_cons_r. }
  destruct (Z_le_gt_dec (sequenceNumber (heap x !!! r)) last) as [Hle|Hgt].
  { rewrite drain_stale by done. apply Hrest. }
  destruct (released last (sequenceNumber (heap x !!! r))) eqn:Hrel.
  - rewrite drain_released by done.
    destruct (processHead handler r x) as [x' [last'|]]; [apply Hrest|done].
  - rewrite drain_waiting by (done || lia). done.
Qed.

(** Sorting permutes the references. *)
Lemma elem_of_insertBySequence h x y l :
  y ∈ insertBySequence h x l <-> y = x \/ y ∈ l.
Proof.
  induction l as [|z l IH]; simpl.
  - rewrite list_elem_of_singleton, elem_of_nil. tauto.
  - destruct (_ <? _); rewrite !elem_of_cons; [tauto|]. rewrite IH. tauto.
Qed.

Lemma elem_of_sortBySequence h y l :
  y ∈ sortBySequence h l <-> y ∈ l.
Proof.
  unfold sortBySequence.
  assert (H : forall acc,
    y ∈ fold_left (fun acc x => insertBySequence h x acc) l acc
    <-> y ∈ acc \/ y ∈ l).
  { induction l as [|x l IH]; intros acc; simpl.
    - rewrite elem_of_nil. tauto.
    - rewrite IH, elem_of_insertBySequence, elem_of_cons. tauto. }
  rewrite H, elem_of_nil. tauto.
Qed.

Lemma sortBySequence_snoc_cons h l x :
  exists y l', sortBySequence h (l ++ [x]) = y :: l'.
Proof.
  destruct (sortBySequence h (l ++ [x])) as [|y l'] eqn:Hs; [|eauto].
  assert (Hx : x ∈ sortBySequence h (l ++ [x])).
  { apply elem_of_sortBySequence, elem_of_app. right. constructor. }
  rewrite Hs in Hx. by apply elem_of_nil in Hx.
Qed.

Lemma processedSequences_snoc entity cs c :
  processedSequences entity (cs ++ [c])
  = processedSequences entity cs ++
    match callError c with
    | None => if decide (entityId (callArg c) = entity)
              then [sequenceNumber (callArg c)] else []
    | Some _ => []
    end.
Proof.
  unfold processedSequences. rewrite omap_app. f_equal. simpl.
  destruct (callError c); [done|]. by case_decide.
Qed.

Lemma drain_loopKeeps h0 entity x1 pending last :
  Forall (fun r => entityId (heap x1 !!! r) = entity) pending ->
  loopKeeps handler h0 entity x1 last x1 ->
  loopKeeps handler h0 entity x1 (drain handler pending last x1).1.2
            (drain handler pending last x1).2.
Proof.
  intros Hown Hinit. apply drain_invariant; [| |done].
  - intros r l x x' l' Hr (Hent & Hoth & Hsort & Hle & Hflag & Hans) Hlt
      (Hh & -> & ->)%processHead_Some.
    rewrite Forall_forall in Hown.
    assert (He : entityId (heap x !!! r) = entity)
      by (rewrite Hent; by apply Hown).
    pose proof (answered_snoc handler _ r (heap x !!! r) Hans) as Ha.
    rewrite Hh in Ha.
    repeat split; simpl; [| | | | |done].
    + intros r'. by rewrite alter_setProcessed_entityId.
    + intros e' Hne. rewrite processedSequences_snoc. simpl.
      rewrite decide_False by congruence. rewrite app_nil_r. by apply Hoth.
    + rewrite processedSequences_snoc. simpl. rewrite decide_True by done.
      apply StronglySorted_app_2; [|done|repeat constructor].
      intros x1' x2 Hx1 ->%list_elem_of_singleton.
      rewrite Forall_forall in Hle. specialize (Hle _ Hx1). lia.
    + rewrite processedSequences_snoc. simpl. rewrite decide_True by done.
      apply Forall_app. split; [|by repeat constructor].
      eapply Forall_impl; [exact Hle|]. simpl. intros. lia.
    + intros r' [->|Hp]%alter_setProcessed_processed.
      * right. exists (mkCall r (heap x !!! r) None).
        split; [|done]. apply elem_of_app. right. constructor.
      * destruct (Hflag _ Hp) as [?|(c & Hc & ? & ?)]; [by left|].
        right. exists c. split; [|done]. apply elem_of_app. by left.
  - intros r l x x' Hr (Hent & Hoth & Hsort & Hle & Hflag & Hans) Hlt
      (t & Hh & ->)%processHead_None.
    pose proof (answered_snoc handler _ r (heap x !!! r) Hans) as Ha.
    rewrite Hh in Ha.
    repeat split; simpl; [done| | | | |done].
    + intros e' Hne. rewrite processedSequences_snoc. simpl.
      rewrite app_nil_r. by apply Hoth.
    + rewrite processedSequences_snoc. simpl. by rewrite app_nil_r.
    + rewrite processedSequences_snoc. simpl. by rewrite app_nil_r.
    + intros r' Hp.
      destruct (Hflag _ Hp) as [?|(c & Hc & ? & ?)]; [by left|].
      right. exists c. split; [|done]. apply elem_of_app. by left.
Qed.

(** [addEvent] written out: the buffer it finds or creates, the sorted
    list, the loop, and the buffer it leaves. It always resolves. *)
Lemma addEvent_eq event w :
  addEvent handler event w =
  let entity := entityId (heap (world w) !!! event) in
  let buffer := default (mkBuffer entity [] 0) (buffers w !! entity) in
  let pending :=
    sortBySequence (heap (world w)) (pendingEvents buffer ++ [event]) in
  let d := drain handler pending (lastProcessedSequence buffer) (world w) in
  (mkState d.2
     (<[entity := mkBuffer (bufferEntityId buffer) d.1.1 d.1.2]>
        (<[entity := mkBuffer (bufferEntityId buffer) pending
                       (lastProcessedSequence buffer)]> (buffers w)))
     (match d.1.1 with [] => timers w ++ [entity] | _ :: _ => timers w end),
   Resolved tt).
Proof.
  unfold addEvent, processBufferedEvents. cbn zeta.
  set (entity := entityId (heap (world w) !!! event)).
  replace (match buffers w !! entity with
           | Some buffer => buffer | None => mkBuffer entity [] 0 end)
    with (default (mkBuffer entity [] 0) (buffers w !! entity))
    by (by destruct (buffers w !! entity)).
  set (buffer := default _ _).
  destruct (sortBySequence_snoc_cons (heap (world w)) (pendingEvents buffer)
              event) as (y & l' & Hs).
  cbn [buffers world timers]. rewrite lookup_insert_eq.
  cbn [pendingEvents lastProcessedSequence bufferEntityId].
  rewrite Hs.
  by destruct (drain handler (y :: l') (lastProcessedSequence buffer) _)
    as [[p l] x'].
Qed.

Lemma addEvent_resolves event w : (addEvent handler event w).2 = Resolved tt.
Proof. by rewrite addEvent_eq. Qed.

(** One admission, given what the entity's buffer holds and what the loop
    does on the sorted list. *)
Lemma addEvent_run event w entity pend last pending' last' x' :
  entityId (heap (world w) !!! event) = entity ->
  default (mkBuffer entity [] 0) (buffers w !! entity)
  = mkBuffer entity pend last ->
  drain handler (sortBySequence (heap (world w)) (pend ++ [event])) last
        (world w) = (pending', last', x') ->
  (addEvent handler event w).1
  = mkState x'
      (<[entity := mkBuffer entity pending' last']>
         (<[entity := mkBuffer entity
                        (sortBySequence (heap (world w)) (pend ++ [event]))
                        last]> (buffers w)))
      (match pending' with [] => timers w ++ [entity] | _ :: _ => timers w end).
Proof.
  intros He Hb Hd. rewrite addEvent_eq. cbn zeta. rewrite He, Hb.
  cbn [pendingEvents lastProcessedSequence bufferEntityId]. by rewrite Hd.
Qed.

Lemma addEvent_bufferInvariant h0 event w :
  bufferInvariant handler h0 w ->
  bufferInvariant handler h0 (addEvent handler event w).1.
Proof.
  intros (Hown & Hasc & Hflag & Hans).
  rewrite addEvent_eq. cbn zeta.
  set (entity := entityId (heap (world w) !!! event)).
  set (buffer := default (mkBuffer entity [] 0) (buffers w !! entity)).
  set (pending := sortBySequence (heap (world w)) (pendingEvents buffer ++ [event])).
  assert (Hlast : lastProcessedSequence buffer = watermark entity w).
  { unfold buffer, watermark. by destruct (buffers w !! entity). }
  assert (Hpend : Forall (fun r => entityId (heap (world w) !!! r) = entity)
                         pending).
  { apply Forall_forall. intros r Hr.
    apply elem_of_sortBySequence, elem_of_app in Hr as [Hr|Hr].
    - unfold buffer in Hr. destruct (buffers w !! entity) as [b|] eqn:Hb.
      + specialize (Hown _ _ Hb). rewrite Forall_forall in Hown. by apply Hown.
      + simpl in Hr. by apply elem_of_nil in Hr.
    - apply list_elem_of_singleton in Hr as ->. done. }
  assert (Hinit : loopKeeps handler h0 entity (world w)
                    (lastProcessedSequence buffer) (world w)).
  { repeat split; try done.
    - apply Hasc.
    - rewrite Hlast. apply Hasc. }
  pose proof (drain_loopKeeps h0 entity (world w) pending
                (lastProcessedSequence buffer) Hpend Hinit) as Hkeep.
  pose proof (drain_suffix pending (lastProcessedSequence buffer) (world w))
    as Hsuf.
  destruct (drain handler pending (lastProcessedSequence buffer) (world w))
    as [[pending2 last2] x2].
  cbn [fst snd] in *.
  destruct Hkeep as (Hent & Hoth & Hsort & Hle & Hflag2 & Hans2).
  split; [|split; [|split]]; cbn [world buffers]; [| |done|done].
  - intros e b. cbn [world buffers]. rewrite lookup_insert.
    case_decide as He.
    + intros [= <-]. subst e. simpl.
      apply Forall_forall. intros r Hr.
      rewrite Hent. rewrite Forall_forall in Hpend. apply Hpend.
      destruct Hsuf as [pre ->]. apply elem_of_app. by right.
    + rewrite lookup_insert_ne by done. intros Hb.
      specialize (Hown _ _ Hb).
      eapply Forall_impl; [exact Hown|]. simpl. intros r <-. apply Hent.
  - intros e. unfold watermark. cbn [world buffers].
    destruct (decide (e = entity)) as [->|Hne].
    + by rewrite lookup_insert_eq.
    + rewrite !lookup_insert_ne by done. rewrite Hoth by done. apply Hasc.
Qed.

Lemma addEvents_bufferInvariant h0 events w :
  bufferInvariant handler h0 w ->
  bufferInvariant handler h0 (addEvents handler events w).
Proof.
  revert w. induction events as [|event events IH]; intros w Hinv; [done|].
  simpl. apply IH. by apply addEvent_bufferInvariant.
Qed.

Lemma freshService_bufferInvariant h t :
  bufferInvariant handler h (freshService h t).
Proof.
  repeat split.
  - intros e b. simpl. by rewrite lookup_empty.
  - constructor.
  - constructor.
  - intros r Hr. by left.
  - constructor.
Qed.

(** With a handler that never throws, every logged call resolved, and the
    invocations are the processed ones. *)
Lemma answeredBy_resolved cs :
  (forall cs' ev, handler cs' ev = None) ->
  answeredBy handler cs -> Forall (fun c => callError c = None) cs.
Proof.
  intros Hnever Hans. induction Hans as [|cs r ev _ IH]; [constructor|].
  apply Forall_app. split; [done|]. repeat constructor. simpl. apply Hnever.
Qed.

Lemma invoked_processed entity cs :
  Forall (fun c => callError c = None) cs ->
  invokedSequencesOf entity cs = processedSequences entity cs.
Proof.
  induction 1 as [|c cs Hc _ IH]; [done|].
  unfold invokedSequencesOf, processedSequences in *. csimpl.
  rewrite Hc. by rewrite IH.
Qed.

(** C1. Within one entity the callback is applied in strictly ascending
    sequence order: on a service that starts without buffers, whatever the
    events admitted and whatever the handler does, the sequence numbers of
    the invocations that resolved ascend strictly for every entity, and an
    event is marked processed only if the callback resolved on it (or it
    was marked from the start); when the handler never throws (as the
    source's), all invocations ascend strictly, and the events 3, 1, 2 of
    one entity, admitted in that order, give exactly three invocations, in
    the order 1, 2, 3, after which the three events are marked processed
    and the watermark is 3. *)
Theorem C1_in_order_release (h : list OrderedEvent) (t : Z) (events : list nat) :
  let w := addEvents handler events (freshService h t) in
  (forall entity,
      StronglySorted Z.lt (processedSequences entity (calls (world w))))
  /\ flagsJustified h (world w)
  /\ ((forall cs ev, handler cs ev = None) ->
      (forall entity,
          StronglySorted Z.lt (invokedSequencesOf entity (calls (world w))))
      /\ forall a b c entity,
          events = [a; b; c] ->
          (a < length h)%nat -> (b < length h)%nat -> (c < length h)%nat ->
          entityId (h !!! a) = entity -> entityId (h !!! b) = entity ->
          entityId (h !!! c) = entity ->
          sequenceNumber (h !!! a) = 3 -> sequenceNumber (h !!! b) = 1 ->
          sequenceNumber (h !!! c) = 2 ->
          callRef <$> calls (world w) = [b; c; a]
          /\ invokedSequences (calls (world w)) = [1; 2; 3]
          /\ processed (heap (world w) !!! a) = true
          /\ processed (heap (world w) !!! b) = true
          /\ processed (heap (world w) !!! c) = true
          /\ getBufferStatus entity w = Some (mkBuffer entity [] 3)).
Proof.
  intros w.
  destruct (addEvents_bufferInvariant h events (freshService h t)
              (freshService_bufferInvariant h t))
    as (_ & Hasc & Hflag & Hans).
  fold w in Hasc, Hflag, Hans.
  split; [intros e; apply Hasc|]. split; [done|].
  intros Hnever. split.
  { intros e. rewrite invoked_processed; [apply Hasc|].
    by apply answeredBy_resolved. }
  intros a b c e -> Ha Hb Hc Hea Heb Hec Hsa Hsb Hsc.
  clear Hasc Hflag Hans. subst w. cbn [addEvents].
  (* 3 arrives first and waits *)
  erewrite (addEvent_run a (freshService h t) e [] 0); cycle 1.
  { exact Hea. }
  { cbn. by rewrite lookup_empty. }
  { world_fields. cbn [sortBySequence fold_left insertBySequence].
    apply drain_waiting; world_fields; rewrite Hsa; [lia|reflexivity]. }
  (* 1 arrives: it is released, and 3 still waits *)
  erewrite (addEvent_run b _ e [a] 0); cycle 1.
  { exact Heb. }
  { cbn [buffers]. by rewrite lookup_insert_eq. }
  { world_fields. cbn [sortBySequence fold_left insertBySequence].
    rewrite Hsa, Hsb. eval_ltb.
    rewrite drain_resolved
      by (world_fields; rewrite ?Hsb; (reflexivity || apply Hnever)).
    world_fields. rewrite Hsb.
    apply drain_waiting; world_fields; rewrite Hsa; [lia|reflexivity]. }
  (* 2 arrives: 2 and 3 are released *)
  erewrite (addEvent_run c _ e [a] 1); cycle 1.
  { world_fields. exact Hec. }
  { cbn [buffers]. by rewrite lookup_insert_eq. }
  { world_fields. cbn [sortBySequence fold_left insertBySequence].
    world_fields. rewrite Hsa, Hsc. eval_ltb.
    rewrite drain_resolved
      by (world_fields; rewrite ?Hsc; (reflexivity || apply Hnever)).
    world_fields. rewrite Hsc.
    rewrite drain_resolved
      by (world_fields; rewrite ?Hsa; (reflexivity || apply Hnever)).
    world_fields. rewrite Hsa. reflexivity. }
  world_fields. unfold getBufferStatus. cbn [buffers callRef fmap list_fmap].
  rewrite lookup_insert_eq.
  assert (a <> b) by (intros ->; congruence).
  assert (a <> c) by (intros ->; congruence).
  assert (b <> c) by (intros ->; congruence).
  repeat split.
  - unfold invokedSequences. cbn [fmap list_fmap callArg].
    world_fields. by rewrite Hsa, Hsb, Hsc.
  - rewrite alter_setProcessed_marked by (by rewrite !length_alter).
    by rewrite decide_True.
  - rewrite alter_setProcessed_marked by (by rewrite !length_alter).
    rewrite decide_False by done.
    rewrite alter_setProcessed_marked by (by rewrite !length_alter).
    rewrite decide_False by done.
    rewrite alter_setProcessed_marked by done. by rewrite decide_True.
  - rewrite alter_setProcessed_marked by (by rewrite !length_alter).
    rewrite decide_False by done.
    rewrite alter_setProcessed_marked by (by rewrite !length_alter).
    by rewrite decide_True.
Qed.

(** The loop only appends to the call log. *)
Lemma drain_calls_prefix pending last x :
  calls x `prefix_of` calls (drain handler pending last x).2.
Proof.
  apply (drain_invariant (fun _ x' => calls x `prefix_of` calls x')); [| |done].
  - intros r l x1 x' l' _ Hp _ (_ & -> & _)%processHead_Some. simpl.
    by apply prefix_app_r.
  - intros r l x1 x' _ Hp _ (t & _ & ->)%processHead_None. simpl.
    by apply prefix_app_r.
Qed.

(** C2. When the head's sequence number exceeds the expected one, the loop
    hands the head to the callback at once exactly when the watermark is 0
    and the head is 2, or the gap exceeds 5; otherwise it stops and leaves
    the buffer and the world as they are. Admitting only 5 into a fresh
    service invokes nothing and keeps the event pending; admitting only 2
    invokes the callback on it, and when the callback resolves the
    watermark becomes 2. *)
Theorem C2_gap_policy (r : nat) (rest : list nat) (last : Z) (x : World) :
  let seq := sequenceNumber (heap x !!! r) in
  let forced := (last = 0 /\ seq = 2) \/ 5 < seq - (last + 1) in
  let invoked :=
    exists more,
      calls (drain handler (r :: rest) last x).2
      = calls x ++ mkCall r (heap x !!! r) (handler (calls x) (heap x !!! r))
                   :: more in
  (last + 1 < seq ->
   (forced <-> invoked)
   /\ (forced ->
       drain handler (r :: rest) last x
       = match processHead handler r x with
         | (x', Some last') => drain handler rest last' x'
         | (x', None) => (r :: rest, last, x')
         end)
   /\ (~ forced -> drain handler (r :: rest) last x = (r :: rest, last, x)))
  /\ (forall h t event,
        sequenceNumber (h !!! event) = 5 ->
        let w := (addEvent handler event (freshService h t)).1 in
        calls (world w) = []
        /\ getBufferStatus (entityId (h !!! event)) w
           = Some (mkBuffer (entityId (h !!! event)) [event] 0))
  /\ (forall h t event,
        sequenceNumber (h !!! event) = 2 ->
        let w := (addEvent handler event (freshService h t)).1 in
        calls (world w)
        = [mkCall event (h !!! event) (handler [] (h !!! event))]
        /\ (handler [] (h !!! event) = None ->
            getBufferStatus (entityId (h !!! event)) w
            = Some (mkBuffer (entityId (h !!! event)) [] 2))).
Proof.
  intros seq forced invoked. split; [|split].
  - intros Hgap.
    assert (Hrel : forced <-> released last seq = true).
    { unfold forced, released.
      rewrite orb_true_iff, andb_true_iff, orb_true_iff, andb_true_iff.
      rewrite !Z.eqb_eq, !Z.ltb_lt. lia. }
    assert (Hforced : forced ->
      drain handler (r :: rest) last x
      = match processHead handler r x with
        | (x', Some last') => drain handler rest last' x'
        | (x', None) => (r :: rest, last, x')
        end).
    { intros Hf. apply drain_released. by apply Hrel. }
    assert (Hwait : ~ forced ->
      drain handler (r :: rest) last x = (r :: rest, last, x)).
    { intros Hf. apply drain_waiting; [fold seq; lia|].
      fold seq. destruct (released last seq) eqn:E; [|done].
      exfalso. by apply Hf, Hrel. }
    split; [|done]. split.
    + intros Hf. unfold invoked. rewrite Hforced by done.
      destruct (handler (calls x) (heap x !!! r)) as [t|] eqn:Hh.
      * rewrite (processHead_rejected _ _ t) by done. by exists [].
      * rewrite processHead_resolved by done.
        destruct (drain_calls_prefix rest (sequenceNumber (heap x !!! r))
          (markProcessed r (logCall (mkCall r (heap x !!! r) None) x)))
          as [more Hmore].
        exists more. rewrite Hmore. simpl. by rewrite <- app_assoc.
    + intros [more Hmore].
      assert (Hdec : forced \/ ~ forced) by (unfold forced; lia).
      destruct Hdec as [Hf|Hf]; [done|].
      rewrite Hwait in Hmore by done. simpl in Hmore.
      apply (f_equal length) in Hmore. rewrite length_app in Hmore.
      simpl in Hmore. lia.
  - intros h t event Hs w. subst w.
    erewrite (addEvent_run event (freshService h t) _ [] 0); cycle 1.
    { reflexivity. }
    { cbn. by rewrite lookup_empty. }
    { world_fields. cbn [sortBySequence fold_left insertBySequence].
      apply drain_waiting; world_fields; rewrite Hs; [lia|reflexivity]. }
    unfold getBufferStatus. cbn [world calls buffers].
    by rewrite lookup_insert_eq.
  - intros h t event Hs w. subst w.
    destruct (handler [] (h !!! event)) as [e|] eqn:Hh.
    + erewrite (addEvent_run event (freshService h t) _ [] 0); cycle 1.
      { reflexivity. }
      { cbn. by rewrite lookup_empty. }
      { world_fields. cbn [sortBySequence fold_left insertBySequence].
        apply (drain_rejected _ _ _ _ e); world_fields;
          [rewrite Hs; reflexivity|done]. }
      split; [done|congruence].
    + erewrite (addEvent_run event (freshService h t) _ [] 0); cycle 1.
      { reflexivity. }
      { cbn. by rewrite lookup_empty. }
      { world_fields. cbn [sortBySequence fold_left insertBySequence].
        rewrite drain_resolved
          by (world_fields; rewrite ?Hs; (reflexivity || done)).
        world_fields. reflexivity. }
      split; [done|]. intros _. unfold getBufferStatus. cbn [buffers].
      by rewrite lookup_insert_eq, Hs.
Qed.

(** The pending list is in ascending order after the sort. *)
Lemma insertBySequence_sorted (h : list OrderedEvent) x l :
  StronglySorted (bySequence h) l ->
  StronglySorted (bySequence h)
                 (insertBySequence h x l).
Proof.
  unfold bySequence. induction 1 as [|y l Hl IH Hy]; simpl.
  - repeat constructor.
  - destruct (Z.ltb_spec (sequenceNumber (h !!! x)) (sequenceNumber (h !!! y))).
    + constructor; [by constructor|].
      constructor; [lia|]. eapply Forall_impl; [exact Hy|]. simpl. intros. lia.
    + constructor; [done|].
      apply Forall_forall. intros z Hz.
      apply elem_of_insertBySequence in Hz as [->|Hz]; [lia|].
      rewrite Forall_forall in Hy. by apply Hy.
Qed.

Lemma sortBySequence_sorted (h : list OrderedEvent) l :
  StronglySorted (bySequence h)
                 (sortBySequence h l).
Proof.
  unfold sortBySequence.
  assert (H : forall acc,
    StronglySorted (bySequence h) acc ->
    StronglySorted (bySequence h)
      (fold_left (fun acc x => insertBySequence h x acc) l acc)).
  { induction l as [|x l IH]; intros acc Hacc; [done|].
    simpl. apply IH. by apply insertBySequence_sorted. }
  apply H. constructor.
Qed.

(** On a sorted list the loop first drops the events that are not above the
    watermark, whatever follows them. *)
Lemma drain_sorted_stale (h : list OrderedEvent) pending last x :
  (forall r, sequenceNumber (heap x !!! r) = sequenceNumber (h !!! r)) ->
  StronglySorted (bySequence h) pending ->
  exists rest,
    rest `suffix_of` pending
    /\ Forall (fun r => last < sequenceNumber (h !!! r)) rest
    /\ drain handler pending last x = drain handler rest last x.
Proof.
  unfold bySequence. intros Hseq. induction 1 as [|r l Hl IH Hr].
  - exists []. by repeat split.
  - destruct (Z_le_gt_dec (sequenceNumber (h !!! r)) last) as [Hle|Hgt].
    + destruct IH as (rest & Hsuf & Hall & Hd).
      exists rest. split; [by apply suffix_cons_r|]. split; [done|].
      rewrite drain_stale by (by rewrite Hseq). done.
    + exists (r :: l). split; [done|]. split; [|done].
      constructor; [lia|]. eapply Forall_impl; [exact Hr|]. simpl. intros. lia.
Qed.

(** The loop only calls on references of its list, and keeps the sequence
    numbers of the objects. *)
Lemma drain_calls_refs pending last x :
  let d := drain handler pending last x in
  (forall r, sequenceNumber (heap d.2 !!! r) = sequenceNumber (heap x !!! r))
  /\ exists new, calls d.2 = calls x ++ new
       /\ Forall (fun c => callRef c ∈ pending) new.
Proof.
  apply (drain_invariant (fun _ x' =>
    (forall r, sequenceNumber (heap x' !!! r) = sequenceNumber (heap x !!! r))
    /\ exists new, calls x' = calls x ++ new
         /\ Forall (fun c => callRef c ∈ pending) new)).
  - intros r l x1 x' l' Hr [Hs (new & Hc & Hn)] _ (_ & -> & _)%processHead_Some.
    split.
    + intros r'. simpl. by rewrite alter_setProcessed_sequenceNumber.
    + exists (new ++ [mkCall r (heap x1 !!! r) None]). simpl.
      rewrite Hc, app_assoc. split; [done|].
      apply Forall_app. split; [done|]. by repeat constructor.
  - intros r l x1 x' Hr [Hs (new & Hc & Hn)] _ (t & _ & ->)%processHead_None.
    split; [done|].
    exists (new ++ [mkCall r (heap x1 !!! r) (Some t)]). simpl.
    rewrite Hc, app_assoc. split; [done|].
    apply Forall_app. split; [done|]. by repeat constructor.
  - split; [done|]. exists []. by rewrite app_nil_r.
Qed.

(** An event admitted at or below the watermark is dropped by the same
    [addEvent]: no call is made on it and it is not pending afterwards. *)
Lemma addEvent_stale event w entity pend last :
  entityId (heap (world w) !!! event) = entity ->
  default (mkBuffer entity [] 0) (buffers w !! entity)
  = mkBuffer entity pend last ->
  sequenceNumber (heap (world w) !!! event) <= last ->
  let w' := (addEvent handler event w).1 in
  exists new buffer,
    calls (world w') = calls (world w) ++ new
    /\ Forall (fun c => callRef c <> event) new
    /\ getBufferStatus entity w' = Some buffer
    /\ event ∉ pendingEvents buffer.
Proof.
  intros He Hb Hle w'. subst w'.
  set (h := heap (world w)).
  set (pending := sortBySequence h (pend ++ [event])).
  destruct (drain_sorted_stale h pending last (world w) (fun _ => eq_refl)
              (sortBySequence_sorted h _)) as (rest & Hsuf & Hall & Hd).
  destruct (drain handler pending last (world w)) as [[p l] x'] eqn:Hdrain.
  rewrite (addEvent_run event w entity pend last p l x' He Hb Hdrain).
  pose proof (drain_calls_refs rest last (world w)) as [_ (new & Hc & Hn)].
  pose proof (drain_suffix rest last (world w)) as Hsuf'.
  rewrite <- Hd in Hc, Hsuf'. cbn [fst snd] in *.
  assert (Hnot : event ∉ rest).
  { intros Hin. rewrite Forall_forall in Hall. specialize (Hall _ Hin).
    fold h in Hle. lia. }
  exists new, (mkBuffer entity p l). cbn [world buffers].
  split; [done|]. split; [|split].
  - eapply Forall_impl; [exact Hn|]. simpl. intros c Hc' Heq.
    apply Hnot. by rewrite <- Heq.
  - unfold getBufferStatus. cbn [buffers]. by rewrite lookup_insert_eq.
  - simpl. intros Hin. apply Hnot. destruct Hsuf' as [pre ->].
    apply elem_of_app. by right.
Qed.
(** C3. An event at the head whose sequence number is not above the
    watermark is dropped by the loop without a call: the loop goes on with
    the rest, the watermark and the world unchanged. Hence an event that
    is admitted with a sequence number not above its buffer's watermark is
    dropped during that [addEvent]: no call is made on it and it is not
    pending afterwards. So when sequence 1 is admitted twice for one entity
    into a fresh service (two events, or the same one again) and the
    callback resolves on the first, the callback is invoked exactly once. *)
Theorem C3_duplicate_suppression :
  (forall r rest last x,
      sequenceNumber (heap x !!! r) <= last ->
      drain handler (r :: rest) last x = drain handler rest last x)
  /\ (forall event w entity pend last,
        entityId (heap (world w) !!! event) = entity ->
        default (mkBuffer entity [] 0) (buffers w !! entity)
        = mkBuffer entity pend last ->
        sequenceNumber (heap (world w) !!! event) <= last ->
        let w' := (addEvent handler event w).1 in
        exists new buffer,
          calls (world w') = calls (world w) ++ new
          /\ Forall (fun c => callRef c <> event) new
          /\ getBufferStatus entity w' = Some buffer
          /\ event ∉ pendingEvents buffer)
  /\ (forall h t a b,
        sequenceNumber (h !!! a) = 1 -> sequenceNumber (h !!! b) = 1 ->
        entityId (h !!! b) = entityId (h !!! a) ->
        handler [] (h !!! a) = None ->
        let w := addEvents handler [a; b] (freshService h t) in
        calls (world w) = [mkCall a (h !!! a) None]
        /\ length (calls (world w)) = 1%nat
        /\ getBufferStatus (entityId (h !!! a)) w
           = Some (mkBuffer (entityId (h !!! a)) [] 1)).
Proof.
  split; [apply drain_stale|]. split; [apply addEvent_stale|].
  intros h t a b Hsa Hsb Hent Hh w. subst w. cbn [addEvents].
  erewrite (addEvent_run a (freshService h t) _ [] 0); cycle 1.
  { reflexivity. }
  { cbn. by rewrite lookup_empty. }
  { world_fields. cbn [sortBySequence fold_left insertBySequence].
    rewrite drain_resolved
      by (world_fields; rewrite ?Hsa; (reflexivity || done)).
    world_fields. reflexivity. }
  erewrite (addEvent_run b _ (entityId (h !!! a)) [] 1); cycle 1.
  { world_fields. exact Hent. }
  { cbn [buffers]. by rewrite lookup_insert_eq, Hsa. }
  { world_fields. cbn [sortBySequence fold_left insertBySequence].
    rewrite drain_stale by (world_fields; rewrite Hsb; lia).
    reflexivity. }
  unfold getBufferStatus. cbn [world calls buffers app length].
  by rewrite lookup_insert_eq.
Qed.

(** C6. When the callback throws on the released head, the loop puts the
    event back at the front and stops: the pending list and the watermark
    are as before, no object is touched (the event stays unprocessed), and
    only the failed call is logged; [addEvent] resolves whatever the
    callback does. *)
Theorem C6_callback_failure :
  (forall event w, (addEvent handler event w).2 = Resolved tt)
  /\ (forall r rest last x t,
        released last (sequenceNumber (heap x !!! r)) = true ->
        handler (calls x) (heap x !!! r) = Some t ->
        drain handler (r :: rest) last x
        = (r :: rest, last, logCall (mkCall r (heap x !!! r) (Some t)) x))
  /\ (forall event w entity pend last r rest t,
        entityId (heap (world w) !!! event) = entity ->
        default (mkBuffer entity [] 0) (buffers w !! entity)
        = mkBuffer entity pend last ->
        sortBySequence (heap (world w)) (pend ++ [event]) = r :: rest ->
        released last (sequenceNumber (heap (world w) !!! r)) = true ->
        handler (calls (world w)) (heap (world w) !!! r) = Some t ->
        let w' := (addEvent handler event w).1 in
        getBufferStatus entity w' = Some (mkBuffer entity (r :: rest) last)
        /\ heap (world w') = heap (world w)
        /\ processed (heap (world w') !!! r)
           = processed (heap (world w) !!! r)
        /\ calls (world w')
           = calls (world w) ++ [mkCall r (heap (world w) !!! r) (Some t)]).
Proof.
  split; [apply addEvent_resolves|]. split; [apply drain_rejected|].
  intros event w entity pend last r rest t He Hb Hs Hrel Hh w'. subst w'.
  erewrite (addEvent_run event w entity pend last); cycle 1.
  { exact He. }
  { exact Hb. }
  { rewrite Hs. by apply (drain_rejected _ _ _ _ t). }
  unfold getBufferStatus. cbn [world buffers heap calls logCall].
  by rewrite lookup_insert_eq.
Qed.

(** C10, as the code has it. [clearBuffer] removes the entity's buffer with
    its watermark, and the next [addEvent] for the entity starts from an
    empty buffer with watermark 0. An event whose sequence number was
    processed before the clear is therefore not dropped as a duplicate
    any more: the callback is invoked on it again at once when the gap
    rules release it from watermark 0 (sequence 1, 2, or above 6), and
    otherwise (3 to 6) the event is kept pending. *)
Theorem C10_clear_forgets_watermark :
  (forall entity w, getBufferStatus entity (clearBuffer entity w) = None)
  /\ (forall event w,
        let entity := entityId (heap (world w) !!! event) in
        let seq := sequenceNumber (heap (world w) !!! event) in
        let w' := (addEvent handler event (clearBuffer entity w)).1 in
        0 < seq ->
        (released 0 seq = true ->
         exists more,
           calls (world w')
           = calls (world w)
             ++ mkCall event (heap (world w) !!! event)
                  (handler (calls (world w)) (heap (world w) !!! event))
             :: more)
        /\ (released 0 seq = false ->
            calls (world w') = calls (world w)
            /\ getBufferStatus entity w' = Some (mkBuffer entity [event] 0)))
  /\ (forall h t a,
        sequenceNumber (h !!! a) = 1 ->
        (forall cs ev, handler cs ev = None) ->
        let entity := entityId (h !!! a) in
        let w1 := (addEvent handler a (freshService h t)).1 in
        let w2 := (addEvent handler a (clearBuffer entity w1)).1 in
        getBufferStatus entity w1 = Some (mkBuffer entity [] 1)
        /\ callRef <$> calls (world w1) = [a]
        /\ callRef <$> calls (world w2) = [a; a]
        /\ callRef <$> calls (world (addEvent handler a w1).1) = [a]).
Proof.
  split; [|split].
  - intros entity w. unfold getBufferStatus, clearBuffer. simpl.
    apply lookup_delete_eq.
  - intros event w entity seq w' Hpos.
    assert (Hrun : forall p l x',
      drain handler [event] 0 (world w) = (p, l, x') ->
      w' = mkState x'
             (<[entity := mkBuffer entity p l]>
                (<[entity := mkBuffer entity [event] 0]>
                   (delete entity (buffers w))))
             (match p with [] => timers w ++ [entity] | _ :: _ => timers w end)).
    { intros p l x' Hd. unfold w'.
      erewrite (addEvent_run event (clearBuffer entity w) entity [] 0);
        [reflexivity|reflexivity| |exact Hd].
      cbn [clearBuffer buffers]. by rewrite lookup_delete_eq. }
    split.
    + intros Hrel.
      destruct (handler (calls (world w)) (heap (world w) !!! event))
        as [t|] eqn:Hh.
      * rewrite (Hrun _ _ _ (drain_rejected _ _ _ _ t Hrel Hh)). by exists [].
      * pose proof (drain_resolved event [] 0 (world w) Hrel Hh) as Hd.
        rewrite (Hrun _ _ _ Hd). by exists [].
    + intros Hrel.
      pose proof (drain_waiting event [] 0 (world w) Hpos Hrel) as Hd.
      rewrite (Hrun _ _ _ Hd). unfold getBufferStatus. cbn [world buffers].
      by rewrite lookup_insert_eq.
  - intros h t a Hs Hnever entity w1 w2.
    assert (H1 : w1 = mkState
      (markProcessed a (logCall (mkCall a (h !!! a) None) (mkWorld h [] t)))
      (<[entity := mkBuffer entity [] 1]>
         (<[entity := mkBuffer entity [a] 0]> ∅)) [entity]).
    { unfold w1.
      erewrite (addEvent_run a (freshService h t) entity [] 0); cycle 1.
      { reflexivity. }
      { cbn. by rewrite lookup_empty. }
      { world_fields. cbn [sortBySequence fold_left insertBySequence].
        rewrite drain_resolved
          by (world_fields; rewrite ?Hs; (reflexivity || apply Hnever)).
        world_fields. rewrite Hs. reflexivity. }
      reflexivity. }
    split; [|split; [|split]].
    + rewrite H1. unfold getBufferStatus. cbn [buffers].
      by rewrite lookup_insert_eq.
    + by rewrite H1.
    + unfold w2. rewrite H1.
      erewrite (addEvent_run a _ entity [] 0); cycle 1.
      { cbn [clearBuffer]. world_fields. reflexivity. }
      { cbn [clearBuffer buffers]. by rewrite lookup_delete_eq. }
      { cbn [clearBuffer]. world_fields.
        cbn [sortBySequence fold_left insertBySequence].
        rewrite drain_resolved
          by (world_fields; rewrite ?Hs; (reflexivity || apply Hnever)).
        world_fields. reflexivity. }
      reflexivity.
    + rewrite H1.
      erewrite (addEvent_run a _ entity [] 1); cycle 1.
      { world_fields. reflexivity. }
      { cbn [buffers]. by rewrite lookup_insert_eq. }
      { world_fields. cbn [sortBySequence fold_left insertBySequence].
        rewrite drain_stale by (world_fields; rewrite Hs; lia).
        reflexivity. }
      reflexivity.
Qed.

End EventBufferFacts.

(** *** Instances on concrete events *)

Section EventBufferExamples.

Import EventBuffer.

Lemma C1_in_order_release_witness :
  let w := addEvents sourceHandler [0; 1; 2]%nat (freshService heap312 0) in
  callRef <$> calls (world w) = [1; 2; 0]%nat
  /\ invokedSequences (calls (world w)) = [1; 2; 3]
  /\ getBufferStatus "e" w = Some (mkBuffer "e" [] 3).
Proof.
  intros w.
  destruct (C1_in_order_release sourceHandler heap312 0 [0; 1; 2]%nat)
    as (_ & _ & H).
  destruct (H (fun _ _ => eq_refl)) as [_ H'].
  destruct (H' 0%nat 1%nat 2%nat "e" eq_refl) as (H1 & H2 & _ & _ & _ & H3);
    try reflexivity; try (simpl; lia).
  done.
Defined.

Lemma C2_gap_policy_witness :
  drain sourceHandler [0%nat] 0 (mkWorld [mockEvent "e" 5] [] 0)
  = ([0%nat], 0, mkWorld [mockEvent "e" 5] [] 0).
Proof.
  destruct (C2_gap_policy sourceHandler 0 [] 0 (mkWorld [mockEvent "e" 5] [] 0))
    as [H _].
  destruct H as (_ & _ & H); [simpl; lia|].
  apply H. simpl. lia.
Defined.

Lemma C3_duplicate_suppression_witness :
  length (calls (world (addEvents sourceHandler [0; 0]%nat
                          (freshService heap123 0)))) = 1%nat.
Proof.
  destruct (C3_duplicate_suppression sourceHandler) as (_ & _ & H).
  destruct (H heap123 0 0%nat 0%nat eq_refl eq_refl eq_refl eq_refl)
    as (_ & H' & _).
  exact H'.
Defined.

Lemma C6_callback_failure_witness :
  let w := (addEvent failingHandler 0 (freshService heap123 0)).1 in
  getBufferStatus "e" w = Some (mkBuffer "e" [0%nat] 0)
  /\ processed (heap (world w) !!! 0%nat) = false
  /\ length (calls (world w)) = 1%nat.
Proof.
  intros w.
  destruct (C6_callback_failure failingHandler) as (_ & _ & H).
  destruct (H 0%nat (freshService heap123 0) "e" [] 0 0%nat []
              (ThrowError (newError "Processing failed"))
              eq_refl eq_refl eq_refl eq_refl eq_refl)
    as (H1 & H2 & H3 & H4).
  fold w in H1, H2, H3, H4.
  split; [exact H1|]. split; [by rewrite H3|]. by rewrite H4.
Defined.

Lemma C10_clear_forgets_watermark_witness :
  let w1 := (addEvent sourceHandler 0 (freshService heap123 0)).1 in
  let w2 := (addEvent sourceHandler 0 (clearBuffer "e" w1)).1 in
  callRef <$> calls (world w2) = [0; 0]%nat.
Proof.
  destruct (C10_clear_forgets_watermark sourceHandler) as (_ & _ & H).
  destruct (H heap123 0 0%nat eq_refl (fun _ _ => eq_refl)) as (_ & _ & H' & _).
  exact H'.
Defined.

(** The events 1, 2, 3 are processed; after the clear, admitting the event
    3 again invokes nothing: it waits in the new buffer. *)
Lemma C10_counterexample :
  let w := addEvents sourceHandler [0; 1; 2]%nat (freshService heap123 0) in
  let w' := (addEvent sourceHandler 2 (clearBuffer "e" w)).1 in
  invokedSequences (calls (world w)) = [1; 2; 3]
  /\ getBufferStatus "e" w = Some (mkBuffer "e" [] 3)
  /\ calls (world w') = calls (world w)
  /\ getBufferStatus "e" w' = Some (mkBuffer "e" [2%nat] 0).
Proof. vm_compute. done. Qed.

End EventBufferExamples.

(** ** The sequence allocator *)

Section SequenceFacts.

Import Sequence.

Variable storage : Storage.

(** One call: the transaction is rolled back, or it stores and returns the
    successor of the current value. *)
Lemma getNextSequenceNumber_cases e t db :
  (exists th,
      getNextSequenceNumber storage e t db
      = (mkDb (rows db) (dbNow db) (S (transactions db)), Rejected th))
  \/ getNextSequenceNumber storage e t db
     = (mkDb (<[(e, t) := mkCounter (getCurrentSequence e t db + 1) (dbNow db)]>
               (rows db))
             (dbNow db) (S (transactions db)),
        Resolved (getCurrentSequence e t db + 1)).
Proof.
  unfold getNextSequenceNumber, nextInTransaction, findOne, save,
    getCurrentSequence.
  destruct (findOneFault storage (transactions db) e t) as [th|]; [eauto|].
  destruct (rows db !! (e, t)) as [row|]; simpl;
    destruct (saveFault storage (transactions db) _) as [th|]; eauto.
Qed.

Lemma getNextSequenceNumber_reliable e t db :
  getNextSequenceNumber reliable e t db
  = (mkDb (<[(e, t) := mkCounter (getCurrentSequence e t db + 1) (dbNow db)]>
            (rows db))
          (dbNow db) (S (transactions db)),
     Resolved (getCurrentSequence e t db + 1)).
Proof.
  unfold getNextSequenceNumber, nextInTransaction, findOne, save,
    getCurrentSequence. simpl.
  by destruct (rows db !! (e, t)).
Qed.

(** The effect of one call for [(e', t')] on the counter of [(e, t)]. *)
Lemma getNextSequenceNumber_current e t e' t' db :
  let r := getNextSequenceNumber storage e' t' db in
  match r.2 with
  | Resolved n =>
      n = getCurrentSequence e' t' db + 1
      /\ getCurrentSequence e t r.1
         = if decide ((e', t') = (e, t)) then n else getCurrentSequence e t db
  | Rejected _ => rows r.1 = rows db
  end.
Proof.
  intros r. subst r.
  destruct (getNextSequenceNumber_cases e' t' db) as [[th ->]| ->]; [done|].
  cbn [fst snd]. split; [done|].
  unfold getCurrentSequence at 1. cbn [rows].
  rewrite lookup_insert. by case_decide.
Qed.

Lemma consecutive_S first n :
  consecutive first (S n) = (first + 1) :: consecutive (first + 1) n.
Proof.
  unfold consecutive. cbn [seq fmap list_fmap]. f_equal.
  rewrite <- fmap_S_seq, <- list_fmap_compose.
  apply list_fmap_ext. intros _ i _. simpl. lia.
Qed.

(** Any run of allocations: the values resolved for one pair are
    consecutive from the successor of its counter, and its counter ends at
    the last of them. *)
Lemma allocateAll_consecutive e t requests db :
  let r := allocateAll storage requests db in
  let values := resolvedFor e t requests r.2 in
  values = consecutive (getCurrentSequence e t db) (length values)
  /\ getCurrentSequence e t r.1
     = getCurrentSequence e t db + Z.of_nat (length values).
Proof.
  revert db. induction requests as [|[e' t'] requests IH]; intros db.
  { simpl. split; [done|lia]. }
  cbn [allocateAll].
  pose proof (getNextSequenceNumber_current e t e' t' db) as Hstep.
  destruct (getNextSequenceNumber storage e' t' db) as [db' c].
  specialize (IH db').
  destruct (allocateAll storage requests db') as [db'' cs].
  cbn [fst snd] in *. cbn [resolvedFor].
  destruct c as [n|th].
  - destruct Hstep as [Hn Hcur]. case_decide as Hk.
    + injection Hk as -> ->. cbn [length].
      destruct IH as [IH1 IH2]. rewrite Hcur in IH1, IH2.
      split.
      * rewrite consecutive_S, <- Hn. f_equal. exact IH1.
      * rewrite IH2. lia.
    + rewrite Hcur in IH. exact IH.
  - assert (Hsame : getCurrentSequence e t db' = getCurrentSequence e t db)
      by (unfold getCurrentSequence; by rewrite Hstep).
    rewrite Hsame in IH. exact IH.
Qed.

(** C4. [getNextSequenceNumber] on a pair without a row creates the row
    with value 1 and returns 1; on a row with value k it stores k + 1 and
    returns k + 1; with a storage layer that does not fail it always does
    one of the two. Over any run of allocations (for any pairs, some
    of them possibly rejected by the storage layer) the values returned for
    a fixed pair are consecutive from the successor of its counter, so 1,
    2, 3, ... from a pair without a row, and no call decreases a counter. *)
Theorem C4_sequence_allocation (e t : string) (db : Db) :
  (rows db !! (e, t) = None ->
   forall db' n, getNextSequenceNumber storage e t db = (db', Resolved n) ->
     n = 1 /\ rows db' !! (e, t) = Some (mkCounter 1 (dbNow db)))
  /\ (forall row, rows db !! (e, t) = Some row ->
      forall db' n, getNextSequenceNumber storage e t db = (db', Resolved n) ->
        n = counterValue row + 1
        /\ rows db' !! (e, t)
           = Some (mkCounter (counterValue row + 1) (dbNow db)))
  /\ (getNextSequenceNumber reliable e t db).2
     = Resolved (getCurrentSequence e t db + 1)
  /\ (forall requests,
        let r := allocateAll storage requests db in
        let values := resolvedFor e t requests r.2 in
        values = consecutive (getCurrentSequence e t db) (length values)
        /\ (rows db !! (e, t) = None ->
            values = (fun i => Z.of_nat i) <$> seq 1 (length values))
        /\ getCurrentSequence e t db <= getCurrentSequence e t r.1)
  /\ (forall e' t',
        getCurrentSequence e t db
        <= getCurrentSequence e t (getNextSequenceNumber storage e' t' db).1).
Proof.
  split; [|split; [|split; [|split]]].
  - intros Hnone db' n Hcall.
    destruct (getNextSequenceNumber_cases e t db) as [[th Hr]|Hr];
      rewrite Hr in Hcall; [done|].
    unfold getCurrentSequence in Hcall. rewrite Hnone in Hcall.
    injection Hcall as <- <-. cbn [rows]. by rewrite lookup_insert_eq.
  - intros row Hrow db' n Hcall.
    destruct (getNextSequenceNumber_cases e t db) as [[th Hr]|Hr];
      rewrite Hr in Hcall; [done|].
    unfold getCurrentSequence in Hcall. rewrite Hrow in Hcall.
    injection Hcall as <- <-. cbn [rows]. by rewrite lookup_insert_eq.
  - by rewrite getNextSequenceNumber_reliable.
  - intros requests r values.
    destruct (allocateAll_consecutive e t requests db) as [Hv Hc].
    fold r in Hv, Hc. fold values in Hv, Hc.
    split; [exact Hv|]. split; [|lia].
    intros Hnone. rewrite Hv at 1. unfold consecutive, getCurrentSequence.
    rewrite Hnone. apply list_fmap_ext. intros _ i _. simpl. lia.
  - intros e' t'.
    pose proof (getNextSequenceNumber_current e t e' t' db) as Hstep.
    cbn zeta in Hstep.
    destruct (getNextSequenceNumber storage e' t' db) as [db' [n|th]];
      cbn [fst snd] in *.
    + destruct Hstep as [Hn ->]. case_decide as Hk; [|lia].
      injection Hk as -> ->. lia.
    + unfold getCurrentSequence. rewrite Hstep. lia.
Qed.


End SequenceFacts.


Lemma C4_sequence_allocation_witness :
  let r := Sequence.getNextSequenceNumber Sequence.reliable "o1" "order"
             (Sequence.mkDb ∅ 0 0) in
  r.2 = Resolved 1
  /\ Sequence.rows r.1 !! ("o1", "order") = Some (Sequence.mkCounter 1 0).
Proof.
  intros r.
  pose proof (C4_sequence_allocation Sequence.reliable "o1" "order"
                (Sequence.mkDb ∅ 0 0)) as (H & _).
  destruct (H eq_refl r.1 1 eq_refl) as [_ Hrow].
  split; [reflexivity|exact Hrow].
Defined.


(** ** The retry executor *)

Section RetryFacts.

Import Retry.

Context {Sigma Result : Type}.
Variable operation : Sigma -> Sigma * Completion Result.

(** When every attempt fails with a retryable error, the loop makes every
    attempt that the budget allows and then throws what the variant throws
    on exhaustion, for the error of the last attempt. *)
Lemma retryLoop_exhausted isRetryable maxRetries' onExhausted prop fuel :
  failsRetryably operation isRetryable ->
  forall attempt lastError s,
    attempt + Z.of_nat fuel = maxRetries' ->
    exists e,
      (operation (invocations operation fuel s)).2 = Rejected (ThrowError e)
      /\ retryLoop operation isRetryable maxRetries' onExhausted prop
           (S fuel) attempt lastError s
         = (invocations operation (S fuel) s,
            Rejected (onExhausted e)).
Proof.
  intros Hfail. induction fuel as [|fuel IH]; intros attempt lastError s Hfuel.
  - destruct (Hfail s) as (e & He & Hr). exists e. split; [done|].
    unfold invocations. simpl.
    destruct (operation s) as [s' c]. simpl in He. subst c.
    rewrite Hr. simpl.
    destruct (Z.eqb_spec attempt maxRetries'); [done|lia].
  - destruct (Hfail s) as (e0 & He0 & Hr0).
    destruct (IH (attempt + 1) (ThrowError e0) (operation s).1) as (e & He & Hl);
      [lia|].
    exists e.
    assert (Hiter : forall n,
      invocations operation n (operation s).1
      = invocations operation (S n) s).
    { intros n. unfold invocations. by rewrite Nat.iter_succ_r. }
    rewrite Hiter in He, Hl. split; [exact He|].
    rewrite <- Hl. cbn [retryLoop].
    destruct (operation s) as [s' c]. simpl in He0. subst c. cbn [fst].
    rewrite Hr0. simpl.
    destruct (Z.eqb_spec attempt maxRetries'); [lia|]. done.
Qed.

(** The loop keeps whatever part of the state the operation keeps. *)
Lemma retryLoop_frame {X} (part : Sigma -> X) isRetryable maxRetries'
    onExhausted prop :
  (forall s, part (operation s).1 = part s) ->
  forall fuel attempt lastError s,
    part (retryLoop operation isRetryable maxRetries' onExhausted prop
            fuel attempt lastError s).1 = part s.
Proof.
  intros Hkeep. induction fuel as [|fuel IH]; intros attempt lastError s;
    [done|].
  cbn [retryLoop]. specialize (Hkeep s).
  destruct (operation s) as [s' [r|[e|]]]; cbn [fst] in *; try done.
  destruct (negb (isRetryable e)); [done|].
  destruct (attempt =? maxRetries'); [done|].
  by rewrite IH.
Qed.

(** C5. With [maxRetries = 2] and an operation that always fails with a
    retryable error, both copies invoke the operation exactly three times.
    The order service's copy then does what the claim says: it throws a
    new [Error] whose message gives the three attempts, the context and
    the message of the last error. The copy without a configuration
    service misses the wrapping: it throws the last error itself. *)
Theorem C5_retry_exhaustion configService signatures kind context (s : Sigma) :
  let options := mkOptions (Some 2) signatures kind in
  (failsRetryably operation
     (fun e => Order.isRetryableError e
                 (default [] (retryableErrors
                                (Order.mergeOptions configService options)))) ->
   exists e,
     (operation (invocations operation 2 s)).2 = Rejected (ThrowError e)
     /\ Order.executeWithRetry configService operation options context s
        = (invocations operation 3 s,
           Rejected (ThrowError (newError
             ("Operation failed after 3 attempts: " +:+ context
              +:+ ". Last error: " +:+ message e)))))
  /\ (failsRetryably operation
        (fun e => Plain.isRetryableError e
                    (default Plain.defaultRetryableErrors signatures)) ->
      exists e,
        (operation (invocations operation 2 s)).2 = Rejected (ThrowError e)
        /\ Plain.executeWithRetry operation options s
           = (invocations operation 3 s, Rejected (ThrowError e))).
Proof.
  intros options. split; intros Hfail.
  - unfold Order.executeWithRetry.
    assert (Hmax : maxRetries (Order.mergeOptions configService options)
                   = Some 2) by done.
    rewrite Hmax. cbn [default from_option Datatypes.id].
    change (Z.to_nat (2 + 1)) with 3%nat.
    destruct (retryLoop_exhausted _ 2 (Order.exhausted 2 context) "message" 2 Hfail
                0 ThrowUndefined s eq_refl) as (e & He & Hl).
    exists e. split; [exact He|]. rewrite Hl. reflexivity.
  - unfold Plain.executeWithRetry. cbn [maxRetries options default from_option
      Datatypes.id retryableErrors].
    change (Z.to_nat (2 + 1)) with 3%nat.
    destruct (retryLoop_exhausted _ 2 ThrowError "code" 2 Hfail
                0 ThrowUndefined s eq_refl) as (e & He & Hl).
    exists e. split; [exact He|]. exact Hl.
Qed.

End RetryFacts.

(** The variant without a configuration service, on an operation that the
    broker always refuses: after three invocations the promise is rejected
    with the broker's error itself. *)
Lemma C5_counterexample :
  Retry.Plain.executeWithRetry Retry.refused
    (Retry.mkOptions (Some 2) None None) 0%nat
  = (3%nat,
     Rejected (ThrowError (newError "ECONNREFUSED: Connection refused"))).
Proof. vm_compute. reflexivity. Qed.

Lemma refused_failsRetryably signatures :
  In "ECONNREFUSED" signatures ->
  Retry.failsRetryably Retry.refused
    (fun e => Retry.Order.isRetryableError e signatures)
  /\ Retry.failsRetryably Retry.refused
       (fun e => Retry.Plain.isRetryableError e signatures).
Proof.
  intros Hin. split; intros s; eexists; (split; [reflexivity|]).
  - unfold Retry.Order.isRetryableError. apply existsb_exists.
    exists "ECONNREFUSED". split; [done|]. reflexivity.
  - unfold Retry.Plain.isRetryableError. apply existsb_exists.
    exists "ECONNREFUSED". split; [done|]. reflexivity.
Qed.

Lemma C5_retry_exhaustion_witness :
  Retry.Order.executeWithRetry (Retry.Order.mkConfig None) Retry.refused
    (Retry.mkOptions (Some 2) None None) "test-operation" 0%nat
  = (3%nat,
     Rejected (ThrowError (newError
       "Operation failed after 3 attempts: test-operation. Last error: ECONNREFUSED: Connection refused"))).
Proof.
  destruct (C5_retry_exhaustion Retry.refused (Retry.Order.mkConfig None)
              None None "test-operation" 0%nat) as [H _].
  destruct H as (e & He & Hrun).
  { apply refused_failsRetryably. simpl. tauto. }
  injection He as <-. exact Hrun.
Defined.

(** ** The publisher *)

Section PublisherFacts.

Import Publisher.

Variable storage : Sequence.Storage.
Variable configService : Retry.Order.ConfigService.
Variable handler :
  list EventBuffer.Call -> EventBuffer.OrderedEvent -> option Thrown.
Variable uuid : nat -> string.
Variable broker : nat -> Sink -> string -> option Thrown.

Lemma publishToInventory_ordering event key w :
  ordering (publishToInventory configService broker event key w).1
  = ordering w.
Proof.
  unfold publishToInventory, Retry.Order.executeWithRetry.
  by apply retryLoop_frame.
Qed.

Lemma publishToNotification_ordering key w :
  ordering (publishToNotification configService uuid broker key w).1
  = ordering w.
Proof.
  unfold publishToNotification, Retry.Order.executeWithRetry. cbn [uuidv4].
  by rewrite (retryLoop_frame _ ordering).
Qed.

(** C9. Once [publishOrderCreated] has allocated the sequence number and
    admitted the event, the counter of [(order.id, order)] is one above its
    old value and is the event's sequence number, and the buffer is as the
    admission of the new event object left it. If the emission to the
    inventory service is then rejected (after the retries of
    [executeWithRetry]), [publishOrderCreated] is rejected with the same
    error; and however [publishOrderCreated] comes to be rejected after the
    admission, the sequence table and the buffer are as the admission left
    them: the counter is not decremented and the admission is not undone. *)
Theorem C9_no_rollback order correlationId w w4 event :
  admitOrderCreated storage handler uuid order correlationId w
  = (w4, Resolved event) ->
  (Sequence.getCurrentSequence (id order) "order" (db w4)
   = Sequence.getCurrentSequence (id order) "order" (db w) + 1
   /\ eventSequenceNumber event
      = Sequence.getCurrentSequence (id order) "order" (db w4)
   /\ eventEntityId event = id order)
  /\ bufferService w4
     = (EventBuffer.addEvent handler
          (length (EventBuffer.heap (EventBuffer.world (bufferService w))))
          (newObject (orderedEventOf event) (bufferService w))).1
  /\ (forall w5 th,
        publishToInventory configService broker event "order.created" w4
        = (w5, Rejected th) ->
        publishOrderCreated storage configService handler uuid broker
          order correlationId w = (w5, Rejected th))
  /\ (forall w' th,
        publishOrderCreated storage configService handler uuid broker
          order correlationId w = (w', Rejected th) ->
        db w' = db w4 /\ bufferService w' = bufferService w4).
Proof.
  intros Hadm. split; [|split; [|split]].
  - unfold admitOrderCreated in Hadm.
    pose proof (getNextSequenceNumber_current storage (id order) "order"
                  (id order) "order" (db w)) as Hstep.
    cbn zeta in Hstep.
    destruct (Sequence.getNextSequenceNumber storage (id order) "order" (db w))
      as [db1 [n|th]]; [|done].
    cbn [fst snd] in Hstep. destruct Hstep as [Hn Hcur].
    rewrite decide_True in Hcur by done.
    cbn [uuidv4] in Hadm.
    destruct correlationId as [c|]; [destruct (decide (c = ""))|];
      cbn [uuidv4 db bufferService emissions uuids] in Hadm;
      rewrite (surjective_pairing (EventBuffer.addEvent _ _ _)) in Hadm;
      rewrite addEvent_resolves in Hadm;
      injection Hadm as <- <-; cbn [db eventSequenceNumber eventEntityId];
      rewrite Hcur; done.
  - unfold admitOrderCreated in Hadm.
    destruct (Sequence.getNextSequenceNumber storage (id order) "order" (db w))
      as [db1 [n|th]]; [|done].
    cbn [uuidv4] in Hadm.
    destruct correlationId as [c|]; [destruct (decide (c = ""))|];
      cbn [uuidv4 db bufferService emissions uuids] in Hadm;
      rewrite (surjective_pairing (EventBuffer.addEvent _ _ _)) in Hadm;
      rewrite addEvent_resolves in Hadm;
      injection Hadm as <- <-; reflexivity.
  - intros w5 th Hemit. unfold publishOrderCreated. by rewrite Hadm, Hemit.
  - intros w' th Hpub. unfold publishOrderCreated in Hpub.
    rewrite Hadm in Hpub.
    pose proof (publishToInventory_ordering event "order.created" w4) as Hinv.
    destruct (publishToInventory configService broker event "order.created" w4)
      as [w5 [[]|th5]]; cbn [fst] in Hinv.
    + pose proof (publishToNotification_ordering "order.notification" w5)
        as Hnot.
      rewrite Hpub in Hnot. cbn [fst] in Hnot.
      rewrite Hinv in Hnot. by injection Hnot.
    + injection Hpub as <- _. by injection Hinv.
Qed.

End PublisherFacts.

(** With the broker down, [publishOrderCreated] on a fresh system is
    rejected after four emissions to the inventory service; the counter of
    the order stays at 1 and the buffer as the admission left it. *)
Lemma C9_no_rollback_witness :
  let admission :=
    Publisher.admitOrderCreated Sequence.reliable
      EventBuffer.sourceHandler (fun n => "id-" +:+ pretty n)
      (Publisher.mkOrder "order-1" "customer-1") None Publisher.freshSystem in
  let publish :=
    Publisher.publishOrderCreated Sequence.reliable
      (Retry.Order.mkConfig None) EventBuffer.sourceHandler
      (fun n => "id-" +:+ pretty n) Publisher.brokerDown
      (Publisher.mkOrder "order-1" "customer-1") None Publisher.freshSystem in
  isResolved publish.2 = false
  /\ Sequence.getCurrentSequence "order-1" "order" (Publisher.db publish.1) = 1
  /\ Publisher.bufferService publish.1 = Publisher.bufferService admission.1
  /\ length (Publisher.emissions publish.1) = 4%nat.
Proof.
  intros admission publish.
  destruct admission as [w4 c] eqn:Hadm.
  assert (Hc : exists event, c = Resolved event).
  { unfold admission in Hadm. vm_compute in Hadm. injection Hadm as _ <-.
    eauto. }
  destruct Hc as [event ->].
  destruct (C9_no_rollback Sequence.reliable (Retry.Order.mkConfig None)
              EventBuffer.sourceHandler (fun n => "id-" +:+ pretty n)
              Publisher.brokerDown _ _ _ _ _ Hadm)
    as ((Hcur & _) & _ & _ & Hframe).
  assert (Hrej : exists th, publish.2 = Rejected th).
  { vm_compute. eauto. }
  destruct Hrej as [th Hrej].
  destruct (Hframe publish.1 th) as [Hdb Hb].
  { rewrite <- Hrej. apply surjective_pairing. }
  split; [by rewrite Hrej|].
  split; [rewrite Hdb; cbn [Publisher.id] in Hcur; rewrite Hcur; reflexivity|].
  split; [exact Hb|].
  vm_compute. reflexivity.
Defined.


(** * Further properties *)

(** ** The event buffer: what every admission keeps *)

Section EventBufferInvariants.

Import EventBuffer.

Variable handler : list Call -> OrderedEvent -> option Thrown.

(** Induction on the course of the loop: the stale head, the released head
    on which the callback resolves, the released head on which it throws,
    and the head that has to wait. *)
Lemma drain_course
    (Q : list nat -> Z -> World -> list nat * Z * World -> Prop) :
  (forall last x, Q [] last x ([], last, x)) ->
  (forall r rest last x,
      sequenceNumber (heap x !!! r) <= last ->
      Q rest last x (drain handler rest last x) ->
      Q (r :: rest) last x (drain handler rest last x)) ->
  (forall r rest last x,
      released last (sequenceNumber (heap x !!! r)) = true ->
      handler (calls x) (heap x !!! r) = None ->
      let x' := markProcessed r (logCall (mkCall r (heap x !!! r) None) x) in
      let last' := sequenceNumber (heap x !!! r) in
      Q rest last' x' (drain handler rest last' x') ->
      Q (r :: rest) last x (drain handler rest last' x')) ->
  (forall r rest last x t,
      released last (sequenceNumber (heap x !!! r)) = true ->
      handler (calls x) (heap x !!! r) = Some t ->
      Q (r :: rest) last x
        (r :: rest, last, logCall (mkCall r (heap x !!! r) (Some t)) x)) ->
  (forall r rest last x,
      last < sequenceNumber (heap x !!! r) ->
      released last (sequenceNumber (heap x !!! r)) = false ->
      Q (r :: rest) last x (r :: rest, last, x)) ->
  forall pending last x, Q pending last x (drain handler pending last x).
Proof.
  intros Hnil Hstale Hok Hfail Hwait.
  induction pending as [|r rest IH]; intros last x; [apply Hnil|].
  destruct (Z_le_gt_dec (sequenceNumber (heap x !!! r)) last) as [Hle|Hgt].
  { rewrite drain_stale by done. by apply Hstale. }
  destruct (released last (sequenceNumber (heap x !!! r))) eqn:Hrel.
  - destruct (handler (calls x) (heap x !!! r)) as [t|] eqn:Hh.
    + rewrite (drain_rejected _ _ _ _ _ t) by done. by apply Hfail.
    + rewrite drain_resolved by done. by apply Hok.
  - rewrite drain_waiting by (done || lia). apply Hwait; [lia|done].
Qed.

Lemma released_above last seq : released last seq = true -> last < seq.
Proof.
  unfold released.
  rewrite orb_true_iff, andb_true_iff, Z.eqb_eq, Z.ltb_lt. lia.
Qed.

(** What the loop leaves, on a list sorted by sequence number: the
    watermark has not gone down, the objects keep their sequence numbers,
    what is left is a sorted suffix above the watermark, and every event
    that is gone is at or below the watermark. *)
Lemma drain_sorted (h : list OrderedEvent) pending last x :
  (forall r, sequenceNumber (heap x !!! r) = sequenceNumber (h !!! r)) ->
  StronglySorted (bySequence h) pending ->
  let d := drain handler pending last x in
  last <= d.1.2
  /\ (forall r, sequenceNumber (heap d.2 !!! r) = sequenceNumber (h !!! r))
  /\ StronglySorted (bySequence h) d.1.1
  /\ Forall (fun r => d.1.2 < sequenceNumber (h !!! r)) d.1.1
  /\ (forall r, r ∈ pending ->
        r ∈ d.1.1 \/ sequenceNumber (h !!! r) <= d.1.2).
Proof.
  revert pending last x.
  apply (drain_course (fun pending last x d =>
    (forall r, sequenceNumber (heap x !!! r) = sequenceNumber (h !!! r)) ->
    StronglySorted (bySequence h) pending ->
    last <= d.1.2
    /\ (forall r, sequenceNumber (heap d.2 !!! r) = sequenceNumber (h !!! r))
    /\ StronglySorted (bySequence h) d.1.1
    /\ Forall (fun r => d.1.2 < sequenceNumber (h !!! r)) d.1.1
    /\ (forall r, r ∈ pending ->
          r ∈ d.1.1 \/ sequenceNumber (h !!! r) <= d.1.2))).
  - intros last x Hseq _. cbn [fst snd]. repeat split; try done.
    + constructor.
    + intros r Hr. by left.
  - intros r rest last x Hle IH Hseq Hsorted.
    apply StronglySorted_cons in Hsorted as [Hr Hrest].
    destruct (IH Hseq Hrest) as (Hmono & Hseq' & Hs & Habove & Hkept).
    repeat split; try done.
    intros r' [->|Hin]%elem_of_cons; [|by apply Hkept].
    right. rewrite <- Hseq. exact (Z.le_trans _ _ _ Hle Hmono).
  - intros r rest last x Hrel Hh x' last' IH Hseq Hsorted.
    apply StronglySorted_cons in Hsorted as [Hr Hrest].
    assert (Hseq1 : forall r0,
      sequenceNumber (heap x' !!! r0) = sequenceNumber (h !!! r0)).
    { intros r0. unfold x'. simpl.
      by rewrite alter_setProcessed_sequenceNumber. }
    destruct (IH Hseq1 Hrest) as (Hmono & Hseq' & Hs & Habove & Hkept).
    apply released_above in Hrel.
    repeat split; try done.
    + unfold last' in *. lia.
    + intros r' [->|Hin]%elem_of_cons; [|by apply Hkept].
      right. unfold last' in *. rewrite <- Hseq. lia.
  - intros r rest last x t Hrel Hh Hseq Hsorted. cbn [fst snd].
    apply released_above in Hrel. rewrite Hseq in Hrel.
    split; [lia|]. split; [exact Hseq|]. split; [exact Hsorted|].
    split; [|intros r' Hin; by left].
    pose proof Hsorted as Hs. apply StronglySorted_cons in Hs as [Hr _].
    constructor; [done|]. eapply Forall_impl; [exact Hr|].
    unfold bySequence. simpl. intros. lia.
  - intros r rest last x Hlt Hrel Hseq Hsorted. cbn [fst snd].
    rewrite Hseq in Hlt.
    split; [lia|]. split; [exact Hseq|]. split; [exact Hsorted|].
    split; [|intros r' Hin; by left].
    pose proof Hsorted as Hs. apply StronglySorted_cons in Hs as [Hr _].
    constructor; [done|]. eapply Forall_impl; [exact Hr|].
    unfold bySequence. simpl. intros. lia.
Qed.

Lemma StronglySorted_weaken {A} (R R' : A -> A -> Prop) l :
  (forall a b, R a b -> R' a b) ->
  StronglySorted R l -> StronglySorted R' l.
Proof.
  intros HR. induction 1 as [|a l _ IH Ha]; constructor; [done|].
  eapply Forall_impl; [exact Ha|]. apply HR.
Qed.

(** The loop calls only on references of its list and writes only to the
    objects behind them. *)
Lemma drain_footprint pending last x :
  let d := drain handler pending last x in
  (exists new, calls d.2 = calls x ++ new
     /\ Forall (fun c => callRef c ∈ pending) new)
  /\ (forall r, r ∉ pending -> heap d.2 !!! r = heap x !!! r)
  /\ now d.2 = now x.
Proof.
  apply (drain_invariant handler (fun _ x' =>
    (exists new, calls x' = calls x ++ new
       /\ Forall (fun c => callRef c ∈ pending) new)
    /\ (forall r, r ∉ pending -> heap x' !!! r = heap x !!! r)
    /\ now x' = now x)).
  - intros r l x1 x' l' Hr ((new & Hc & Hn) & Hheap & Hnow) _
      (_ & -> & _)%processHead_Some.
    split; [|split].
    + exists (new ++ [mkCall r (heap x1 !!! r) None]). simpl.
      rewrite Hc, app_assoc. split; [done|].
      apply Forall_app. split; [done|]. by repeat constructor.
    + intros r' Hr'. simpl. rewrite list_lookup_total_alter_ne; [by apply Hheap|].
      by intros ->.
    + done.
  - intros r l x1 x' Hr ((new & Hc & Hn) & Hheap & Hnow) _
      (t & _ & ->)%processHead_None.
    split; [|split; [done|done]].
    exists (new ++ [mkCall r (heap x1 !!! r) (Some t)]). simpl.
    rewrite Hc, app_assoc. split; [done|].
    apply Forall_app. split; [done|]. by repeat constructor.
  - split; [|done]. exists []. by rewrite app_nil_r.
Qed.

(** X1. After every [addEvent] the entity's pending list is in ascending
    order of sequence number, and every pending event is above the
    watermark. *)
Theorem X1_pending_sorted_above_watermark event w :
  let entity := entityId (heap (world w) !!! event) in
  let w' := (addEvent handler event w).1 in
  exists buffer,
    getBufferStatus entity w' = Some buffer
    /\ StronglySorted (bySequence (heap (world w'))) (pendingEvents buffer)
    /\ Forall (fun r => lastProcessedSequence buffer
                        < sequenceNumber (heap (world w') !!! r))
              (pendingEvents buffer).
Proof.
  intros entity w'. subst w'. rewrite addEvent_eq. cbn zeta. fold entity.
  set (buffer := default _ _).
  set (pending := sortBySequence _ _).
  destruct (drain_sorted (heap (world w)) pending
              (lastProcessedSequence buffer) (world w) (fun _ => eq_refl)
              (sortBySequence_sorted _ _))
    as (_ & Hseq & Hsorted & Habove & _).
  eexists. unfold getBufferStatus. cbn [fst buffers world].
  rewrite lookup_insert_eq. split; [reflexivity|].
  cbn [pendingEvents lastProcessedSequence]. split.
  - eapply StronglySorted_weaken; [|exact Hsorted].
    unfold bySequence. intros a b. by rewrite !Hseq.
  - eapply Forall_impl; [exact Habove|]. simpl. intros r. by rewrite Hseq.
Qed.

(** X2. An admission never lowers a watermark, and it leaves the buffer of
    every entity other than the event's as it is. *)
Theorem X2_watermark_monotone event w entity :
  let w' := (addEvent handler event w).1 in
  watermark entity w <= watermark entity w'
  /\ (entity <> entityId (heap (world w) !!! event) ->
      getBufferStatus entity w' = getBufferStatus entity w).
Proof.
  intros w'. subst w'. rewrite addEvent_eq. cbn zeta.
  set (own := entityId (heap (world w) !!! event)).
  set (buffer := default _ _).
  set (pending := sortBySequence _ _).
  destruct (drain_sorted (heap (world w)) pending
              (lastProcessedSequence buffer) (world w) (fun _ => eq_refl)
              (sortBySequence_sorted _ _))
    as (Hmono & _).
  unfold watermark, getBufferStatus. cbn [fst buffers].
  destruct (decide (entity = own)) as [->|Hne].
  - rewrite lookup_insert_eq. cbn [lastProcessedSequence].
    split; [|done].
    assert (Hw : match buffers w !! own with
                 | Some b => lastProcessedSequence b | None => 0 end
                 = lastProcessedSequence buffer).
    { unfold buffer. by destruct (buffers w !! own). }
    rewrite Hw. exact Hmono.
  - rewrite !lookup_insert_ne by done. split; [lia|done].
Qed.

(** X3. An admission invokes the callback only on the admitted event or on
    events that were pending in the same entity's buffer, and writes to no
    other event object. *)
Theorem X3_calls_own_queue event w :
  let entity := entityId (heap (world w) !!! event) in
  let queue :=
    pendingEvents (default (mkBuffer entity [] 0) (buffers w !! entity))
    ++ [event] in
  let w' := (addEvent handler event w).1 in
  (exists new,
      calls (world w') = calls (world w) ++ new
      /\ Forall (fun c => callRef c ∈ queue) new)
  /\ (forall r, r ∉ queue -> heap (world w') !!! r = heap (world w) !!! r).
Proof.
  intros entity queue w'. subst w'. rewrite addEvent_eq. cbn zeta.
  fold entity. set (buffer := default _ _). fold queue.
  destruct (drain_footprint (sortBySequence (heap (world w)) queue)
              (lastProcessedSequence buffer) (world w))
    as ((new & Hc & Hn) & Hheap & _).
  cbn [fst world]. split.
  - exists new. split; [done|].
    eapply Forall_impl; [exact Hn|]. simpl. intros c.
    by rewrite elem_of_sortBySequence.
  - intros r Hr. apply Hheap. by rewrite elem_of_sortBySequence.
Qed.

(** X4. No event is lost by an admission: the admitted event and every
    event that was pending for its entity is pending afterwards, unless its
    sequence number is at or below the new watermark (it was processed, or
    dropped as a duplicate). *)
Theorem X4_no_event_lost event w r :
  let entity := entityId (heap (world w) !!! event) in
  let w' := (addEvent handler event w).1 in
  r = event
  \/ r ∈ pendingEvents (default (mkBuffer entity [] 0) (buffers w !! entity)) ->
  exists buffer,
    getBufferStatus entity w' = Some buffer
    /\ (r ∈ pendingEvents buffer
        \/ sequenceNumber (heap (world w) !!! r)
           <= lastProcessedSequence buffer).
Proof.
  intros entity w' Hr. subst w'. rewrite addEvent_eq. cbn zeta. fold entity.
  set (buffer := default _ _) in *.
  set (pending := sortBySequence _ _).
  destruct (drain_sorted (heap (world w)) pending
              (lastProcessedSequence buffer) (world w) (fun _ => eq_refl)
              (sortBySequence_sorted _ _))
    as (_ & _ & _ & _ & Hkept).
  eexists. unfold getBufferStatus. cbn [fst buffers].
  rewrite lookup_insert_eq. split; [reflexivity|].
  cbn [pendingEvents lastProcessedSequence]. apply Hkept.
  apply elem_of_sortBySequence, elem_of_app.
  destruct Hr as [->|Hr]; [right; constructor|by left].
Qed.

(** When the callback never throws, the loop stops only at a head that
    has to wait. *)
Lemma drain_stops_waiting pending last x :
  (forall cs ev, handler cs ev = None) ->
  let d := drain handler pending last x in
  match d.1.1 with
  | [] => True
  | r :: _ =>
      d.1.2 < sequenceNumber (heap d.2 !!! r)
      /\ released d.1.2 (sequenceNumber (heap d.2 !!! r)) = false
  end.
Proof.
  intros Hnever. revert pending last x.
  apply (drain_course (fun _ _ _ d =>
    match d.1.1 with
    | [] => True
    | r :: _ =>
        d.1.2 < sequenceNumber (heap d.2 !!! r)
        /\ released d.1.2 (sequenceNumber (heap d.2 !!! r)) = false
    end)); try done.
  intros r rest last x t _ Hh. by rewrite Hnever in Hh.
Qed.

(** X5. When the callback never throws, an admission leaves the entity's
    buffer empty or waiting on a gap of at most 5: the first pending event
    is between 2 and 6 above the watermark (and is not the sequence 2 of a
    buffer with watermark 0). *)
Theorem X5_bounded_gap event w :
  (forall cs ev, handler cs ev = None) ->
  let entity := entityId (heap (world w) !!! event) in
  let w' := (addEvent handler event w).1 in
  exists buffer,
    getBufferStatus entity w' = Some buffer
    /\ match pendingEvents buffer with
       | [] => True
       | r :: _ =>
           let seq := sequenceNumber (heap (world w') !!! r) in
           let last := lastProcessedSequence buffer in
           last + 2 <= seq <= last + 6 /\ ~ (last = 0 /\ seq = 2)
       end.
Proof.
  intros Hnever entity w'. subst w'. rewrite addEvent_eq. cbn zeta.
  fold entity. set (buffer := default _ _).
  set (pending := sortBySequence _ _).
  pose proof (drain_stops_waiting pending (lastProcessedSequence buffer)
                (world w) Hnever) as Hstop.
  cbn zeta in Hstop.
  eexists. unfold getBufferStatus. cbn [fst buffers world].
  rewrite lookup_insert_eq. split; [reflexivity|].
  cbn [pendingEvents lastProcessedSequence].
  destruct (drain handler pending (lastProcessedSequence buffer) (world w))
    as [[p l] x']. cbn [fst snd] in *.
  destruct p as [|r p]; [done|].
  destruct Hstop as [Hlt Hrel]. cbn zeta.
  revert Hrel. unfold released.
  rewrite orb_false_iff, andb_false_iff, orb_false_iff, andb_false_iff.
  rewrite !Z.eqb_neq, !Z.ltb_ge. lia.
Qed.

End EventBufferInvariants.


Section EventBufferLifecycle.

Import EventBuffer.

Variable handler : list Call -> OrderedEvent -> option Thrown.

(** X6. The idle clean-up never removes a buffer that has pending events.
    It removes an idle buffer together with its watermark, so that an
    event of sequence 1 admitted afterwards is handed to the callback even
    though the watermark had passed it; without the clean-up the same
    admission invokes nothing. Timers are never cancelled: an admission
    keeps every scheduled timer and adds one exactly when it leaves the
    buffer empty. *)
Theorem X6_idle_cleanup entity w buffer :
  buffers w !! entity = Some buffer ->
  (pendingEvents buffer <> [] -> cleanupTimerFires entity w = w)
  /\ (pendingEvents buffer = [] ->
      cleanupTimerFires entity w = clearBuffer entity w
      /\ getBufferStatus entity (cleanupTimerFires entity w) = None
      /\ forall event,
           entityId (heap (world w) !!! event) = entity ->
           bufferEntityId buffer = entity ->
           sequenceNumber (heap (world w) !!! event) = 1 ->
           1 <= lastProcessedSequence buffer ->
           calls (world (addEvent handler event w).1) = calls (world w)
           /\ exists more,
                calls (world (addEvent handler event
                                (cleanupTimerFires entity w)).1)
                = calls (world w)
                  ++ mkCall event (heap (world w) !!! event)
                       (handler (calls (world w)) (heap (world w) !!! event))
                  :: more)
  /\ (forall event,
        let w' := (addEvent handler event w).1 in
        let own := entityId (heap (world w) !!! event) in
        timers w `prefix_of` timers w'
        /\ (timers w' = timers w ++ [own]
            <-> exists b, getBufferStatus own w' = Some b
                          /\ pendingEvents b = [])).
Proof.
  intros Hb. split; [|split].
  - intros Hne. unfold cleanupTimerFires. rewrite Hb.
    by destruct (pendingEvents buffer).
  - intros Hempty.
    assert (Hclean : cleanupTimerFires entity w = clearBuffer entity w).
    { unfold cleanupTimerFires. by rewrite Hb, Hempty. }
    split; [done|]. split.
    { rewrite Hclean. unfold getBufferStatus, clearBuffer. simpl.
      apply lookup_delete_eq. }
    intros event He Hid Hs Hlast. split.
    + erewrite (addEvent_run handler event w entity []
                  (lastProcessedSequence buffer)); cycle 1.
      { exact He. }
      { rewrite Hb. simpl. destruct buffer; simpl in *. by subst. }
      { cbn [app sortBySequence fold_left insertBySequence].
        rewrite drain_stale by lia. reflexivity. }
      reflexivity.
    + rewrite Hclean.
      assert (Hrel : released 0 (sequenceNumber (heap (world w) !!! event))
                     = true) by (by rewrite Hs).
      destruct (handler (calls (world w)) (heap (world w) !!! event))
        as [t|] eqn:Hh.
      * erewrite (addEvent_run handler event (clearBuffer entity w) entity [] 0);
          cycle 1.
        { exact He. }
        { cbn [clearBuffer buffers]. by rewrite lookup_delete_eq. }
        { cbn [clearBuffer world app sortBySequence fold_left
               insertBySequence].
          by apply (drain_rejected _ _ _ _ _ t). }
        by exists [].
      * erewrite (addEvent_run handler event (clearBuffer entity w) entity [] 0);
          cycle 1.
        { exact He. }
        { cbn [clearBuffer buffers]. by rewrite lookup_delete_eq. }
        { cbn [clearBuffer world app sortBySequence fold_left
               insertBySequence].
          rewrite drain_resolved by done. reflexivity. }
        by exists [].
  - intros event w' own. subst w'. rewrite addEvent_eq. cbn zeta. fold own.
    unfold getBufferStatus. cbn [fst timers buffers].
    rewrite lookup_insert_eq.
    destruct (drain handler _ _ _) as [[p l] x']. cbn [fst snd].
    destruct p as [|r p].
    + split; [by apply prefix_app_r|]. split; [|done].
      intros _. eexists. by split.
    + split; [done|]. split.
      * intros Heq. apply (f_equal length) in Heq.
        rewrite length_app in Heq. simpl in Heq. lia.
      * intros (b & [= <-] & Hp). done.
Qed.

(** The sum of [getBufferStats], when one entry is set. *)
Lemma totalPending_insert entity buffer (m : gmap string EventBuffer) :
  (map_fold (fun _ b total => (total + length (pendingEvents b))%nat) 0%nat
     (<[entity := buffer]> m)
   + match m !! entity with
     | Some old => length (pendingEvents old)
     | None => 0
     end
   = map_fold (fun _ b total => (total + length (pendingEvents b))%nat) 0%nat m
     + length (pendingEvents buffer))%nat.
Proof.
  rewrite <- insert_delete_eq.
  rewrite map_fold_insert_L; [|intros; lia|apply lookup_delete_eq].
  destruct (m !! entity) as [old|] eqn:Hm.
  - rewrite (map_fold_delete_L _ _ entity old m); [lia|intros; lia|done].
  - rewrite delete_id by done. lia.
Qed.

Lemma length_insertBySequence h x l :
  length (insertBySequence h x l) = S (length l).
Proof.
  induction l as [|y l IH]; [done|]. simpl.
  destruct (_ <? _); simpl; by rewrite ?IH.
Qed.

Lemma length_sortBySequence h l : length (sortBySequence h l) = length l.
Proof.
  unfold sortBySequence.
  assert (H : forall acc,
    length (fold_left (fun acc x => insertBySequence h x acc) l acc)
    = (length acc + length l)%nat).
  { induction l as [|x l IH]; intros acc; simpl; [lia|].
    rewrite IH, length_insertBySequence. lia. }
  by rewrite H.
Qed.

(** X7. [getBufferStats] counts: a service without buffers has none of
    either; [clearBuffer] takes one buffer and its pending events off the
    counts (and nothing when the entity has no buffer); an admission adds
    a buffer exactly when the entity had none, and raises the number of
    pending events by at most one. *)
Theorem X7_buffer_stats entity event w :
  getBufferStats (freshService (heap (world w)) (now (world w)))
  = mkStats 0 0
  /\ match buffers w !! entity with
     | Some buffer =>
         totalBuffers (getBufferStats w)
         = S (totalBuffers (getBufferStats (clearBuffer entity w)))
         /\ totalPendingEvents (getBufferStats w)
            = (totalPendingEvents (getBufferStats (clearBuffer entity w))
               + length (pendingEvents buffer))%nat
     | None => getBufferStats (clearBuffer entity w) = getBufferStats w
     end
  /\ (let w' := (addEvent handler event w).1 in
      totalBuffers (getBufferStats w')
      = (totalBuffers (getBufferStats w)
         + match buffers w !! entityId (heap (world w) !!! event) with
           | Some _ => 0
           | None => 1
           end)%nat
      /\ (totalPendingEvents (getBufferStats w')
          <= S (totalPendingEvents (getBufferStats w)))%nat).
Proof.
  split; [|split].
  - unfold getBufferStats. simpl. by rewrite map_fold_empty, map_size_empty.
  - unfold getBufferStats, clearBuffer. cbn [buffers totalBuffers
      totalPendingEvents].
    destruct (buffers w !! entity) as [buffer|] eqn:Hb.
    + split.
      * rewrite map_size_delete. rewrite Hb.
        assert (size (buffers w) <> 0%nat); [|lia].
        intros Hz. apply map_size_empty_inv in Hz. rewrite Hz in Hb.
        by rewrite lookup_empty in Hb.
      * rewrite (map_fold_delete_L _ _ entity buffer (buffers w));
          [lia|intros; lia|done].
    + by rewrite delete_id.
  - intros w'. subst w'. rewrite addEvent_eq. cbn zeta.
    set (own := entityId (heap (world w) !!! event)).
    set (buffer := default _ _).
    set (pending := sortBySequence _ _).
    pose proof (drain_suffix handler pending (lastProcessedSequence buffer)
                  (world w)) as Hsuf.
    destruct (drain handler pending (lastProcessedSequence buffer) (world w))
      as [[p l] x']. cbn [fst snd] in *.
    unfold getBufferStats. cbn [buffers totalBuffers totalPendingEvents].
    rewrite insert_insert_eq. split.
    + rewrite map_size_insert. destruct (buffers w !! own); simpl; lia.
    + pose proof (totalPending_insert own
                    (mkBuffer (bufferEntityId buffer) p l) (buffers w)) as Hsum.
      cbn [pendingEvents] in Hsum.
      assert (Hlen : (length p <= length pending)%nat).
      { destruct Hsuf as [pre ->]. rewrite length_app. lia. }
      unfold pending in Hlen. rewrite length_sortBySequence, length_app in Hlen.
      simpl in Hlen.
      assert (Hold : length (pendingEvents buffer)
                     = match buffers w !! own with
                       | Some old => length (pendingEvents old)
                       | None => 0%nat
                       end).
      { unfold buffer. by destruct (buffers w !! own). }
      lia.
Qed.

End EventBufferLifecycle.

Section EventBufferInvariantExamples.

Import EventBuffer.

(** The event of sequence 3, admitted first: it is kept, pending. *)
Lemma X4_no_event_lost_witness :
  exists buffer,
    getBufferStatus "e" (addEvent sourceHandler 0 (freshService heap312 0)).1
    = Some buffer
    /\ (0%nat ∈ pendingEvents buffer \/ 3 <= lastProcessedSequence buffer).
Proof.
  exact (X4_no_event_lost sourceHandler 0%nat (freshService heap312 0) 0%nat
           (or_introl eq_refl)).
Defined.

(** The event of sequence 3, admitted first, waits on a gap of 3. *)
Lemma X5_bounded_gap_witness :
  exists buffer,
    getBufferStatus "e" (addEvent sourceHandler 0 (freshService heap312 0)).1
    = Some buffer
    /\ match pendingEvents buffer with
       | [] => True
       | r :: _ =>
           let seq :=
             sequenceNumber
               (heap (world (addEvent sourceHandler 0
                               (freshService heap312 0)).1) !!! r) in
           let last := lastProcessedSequence buffer in
           last + 2 <= seq <= last + 6 /\ ~ (last = 0 /\ seq = 2)
       end.
Proof.
  exact (X5_bounded_gap sourceHandler 0%nat (freshService heap312 0)
           (fun _ _ => eq_refl)).
Defined.

(** After the event of sequence 1 was processed, the buffer is idle with
    watermark 1: admitted again the event is dropped, and after the
    clean-up it is handed to the callback a second time. *)
Lemma X6_idle_cleanup_witness :
  let w := (addEvent sourceHandler 0 (freshService heap123 0)).1 in
  buffers w !! "e" = Some (mkBuffer "e" [] 1)
  /\ getBufferStatus "e" (cleanupTimerFires "e" w) = None
  /\ calls (world (addEvent sourceHandler 0 w).1) = calls (world w)
  /\ exists more,
       calls (world (addEvent sourceHandler 0 (cleanupTimerFires "e" w)).1)
       = calls (world w)
         ++ mkCall 0 (heap (world w) !!! 0%nat)
              (sourceHandler (calls (world w)) (heap (world w) !!! 0%nat))
         :: more.
Proof.
  intros w.
  assert (Hb : buffers w !! "e" = Some (mkBuffer "e" [] 1))
    by (vm_compute; reflexivity).
  destruct (X6_idle_cleanup sourceHandler "e" w (mkBuffer "e" [] 1) Hb)
    as (_ & Hidle & _).
  destruct (Hidle eq_refl) as (_ & Hnone & Hagain).
  destruct (Hagain 0%nat) as (Hdrop & Hmore);
    [vm_compute; reflexivity|reflexivity|vm_compute; reflexivity
    |simpl; lia|].
  split; [exact Hb|]. split; [exact Hnone|]. split; [exact Hdrop|exact Hmore].
Defined.

End EventBufferInvariantExamples.

(** ** Retries: how a call settles *)

Section RetryCourse.

Import Retry.

Context {Sigma Result : Type}.
Variable operation : Sigma -> Sigma * Completion Result.

Lemma invocations_S n (s : Sigma) :
  invocations operation n (operation s).1 = invocations operation (S n) s.
Proof. unfold invocations. by rewrite Nat.iter_succ_r. Qed.

Lemma invocations_last n (s : Sigma) :
  invocations operation (S n) s = (operation (invocations operation n s)).1.
Proof. reflexivity. Qed.

(** The loop passes over [k] attempts that fail with a retryable error, as
    long as the budget is not used up. *)
Lemma retryLoop_skip isRetryable maxRetries' onExhausted prop k :
  forall fuel attempt lastError s,
    attempt + Z.of_nat k <= maxRetries' ->
    (forall i, (i < k)%nat ->
       exists e,
         (operation (invocations operation i s)).2 = Rejected (ThrowError e)
         /\ isRetryable e = true) ->
    exists lastError',
      retryLoop operation isRetryable maxRetries' onExhausted prop
        (k + fuel) attempt lastError s
      = retryLoop operation isRetryable maxRetries' onExhausted prop
          fuel (attempt + Z.of_nat k) lastError' (invocations operation k s).
Proof.
  induction k as [|k IH]; intros fuel attempt lastError s Hle Hfail.
  - exists lastError. by rewrite Z.add_0_r.
  - destruct (Hfail 0%nat) as (e & He & Hr); [lia|].
    destruct (IH fuel (attempt + 1) (ThrowError e) (operation s).1)
      as (lastError' & Hl); [lia| |].
    { intros i Hi. rewrite invocations_S. apply Hfail. lia. }
    exists lastError'. rewrite invocations_S in Hl.
    replace (attempt + Z.of_nat (S k)) with (attempt + 1 + Z.of_nat k) by lia.
    rewrite <- Hl. cbn [Nat.add retryLoop].
    unfold invocations in He. simpl in He.
    destruct (operation s) as [s' c]. simpl in He. subst c. cbn [fst].
    rewrite Hr. simpl.
    destruct (Z.eqb_spec attempt maxRetries'); [lia|done].
Qed.

(** The loop invokes the operation at most once per unit of fuel. Every
    invocation but the last one was rejected; a result the loop resolves
    with is the result of the last invocation, and when the loop is
    rejected so was the last invocation. *)
Lemma retryLoop_bound isRetryable maxRetries' onExhausted prop fuel :
  forall attempt lastError s,
    let r := retryLoop operation isRetryable maxRetries' onExhausted prop
               fuel attempt lastError s in
    exists n,
      (n <= fuel)%nat
      /\ r.1 = invocations operation n s
      /\ (forall i, (S i < n)%nat ->
            isResolved (operation (invocations operation i s)).2 = false)
      /\ match r.2 with
         | Resolved result =>
             exists m, n = S m
               /\ (operation (invocations operation m s)).2 = Resolved result
         | Rejected _ =>
             forall i, (i < n)%nat ->
               isResolved (operation (invocations operation i s)).2 = false
         end.
Proof.
  induction fuel as [|fuel IH]; intros attempt lastError s r.
  - exists 0%nat. subst r. simpl. repeat split; intros; lia.
  - subst r. cbn [retryLoop].
    destruct (operation s) as [s' c] eqn:Hop.
    assert (Hzero : (operation (invocations operation 0 s)).2 = c).
    { unfold invocations. simpl. by rewrite Hop. }
    assert (Hs' : invocations operation 1 s = s').
    { unfold invocations. simpl. by rewrite Hop. }
    assert (Hone : forall c' : Completion Result,
      match c' with
      | Resolved result => c = Resolved result
      | Rejected _ => isResolved c = false
      end ->
      exists n, (n <= S fuel)%nat
        /\ (s', c').1 = invocations operation n s
        /\ (forall i, (S i < n)%nat ->
              isResolved (operation (invocations operation i s)).2 = false)
        /\ match (s', c').2 with
           | Resolved result =>
               exists m, n = S m
                 /\ (operation (invocations operation m s)).2
                    = Resolved result
           | Rejected _ =>
               forall i, (i < n)%nat ->
                 isResolved (operation (invocations operation i s)).2 = false
           end).
    { intros c' Hc'. exists 1%nat. split; [lia|]. split; [done|].
      split; [intros; lia|]. cbn [snd].
      destruct c' as [result|t].
      - exists 0%nat. split; [done|]. by rewrite Hzero.
      - intros i Hi. assert (i = 0%nat) as -> by lia. by rewrite Hzero. }
    destruct c as [result|[e|]]; [by apply Hone|..|by apply Hone].
    destruct (negb (isRetryable e)); [by apply Hone|].
    destruct (attempt =? maxRetries'); [by apply Hone|].
    destruct (IH (attempt + 1) (ThrowError e) s')
      as (n & Hn & Hst & Hearlier & Hlast).
    assert (Hinv : forall m,
      invocations operation m s' = invocations operation (S m) s).
    { intros m. rewrite <- invocations_S. by rewrite Hop. }
    exists (S n). split; [lia|]. split; [by rewrite Hst, Hinv|]. split.
    + intros [|i] Hi; [by rewrite Hzero|].
      rewrite <- Hinv. apply Hearlier. lia.
    + destruct (retryLoop _ _ _ _ _ _ _ _ _).2 as [result|t].
      * destruct Hlast as (m & -> & Hm). exists (S m).
        split; [done|]. by rewrite <- Hinv.
      * intros [|i] Hi; [by rewrite Hzero|].
        rewrite <- Hinv. apply Hlast. lia.
Qed.

(** X8. A call whose first [k] attempts fail with retryable errors and
    whose next attempt resolves, resolves with that result after exactly
    [k + 1] invocations, provided [k] is within the number of retries; in
    both variants. *)
Theorem X8_retry_until_success configService options context (k : nat) r
    (s : Sigma) :
  (operation (invocations operation k s)).2 = Resolved r ->
  (let config := Order.mergeOptions configService options in
   Z.of_nat k <= default 0 (maxRetries config) ->
   (forall i, (i < k)%nat ->
      exists e,
        (operation (invocations operation i s)).2 = Rejected (ThrowError e)
        /\ Order.isRetryableError e (default [] (retryableErrors config))
           = true) ->
   Order.executeWithRetry configService operation options context s
   = (invocations operation (S k) s, Resolved r))
  /\ (Z.of_nat k <= default 3 (maxRetries options) ->
      (forall i, (i < k)%nat ->
         exists e,
           (operation (invocations operation i s)).2 = Rejected (ThrowError e)
           /\ Plain.isRetryableError e
                (default Plain.defaultRetryableErrors
                         (retryableErrors options)) = true) ->
      Plain.executeWithRetry operation options s
      = (invocations operation (S k) s, Resolved r)).
Proof.
  intros Hres.
  assert (Hlast : forall isRetryable maxRetries' onExhausted prop fuel attempt
                         lastError,
    retryLoop operation isRetryable maxRetries' onExhausted prop
      (S fuel) attempt lastError (invocations operation k s)
    = (invocations operation (S k) s, Resolved r)).
  { intros. cbn [retryLoop]. rewrite invocations_last.
    destruct (operation (invocations operation k s)) as [s' c].
    simpl in Hres. by subst c. }
  split.
  - intros config Hk Hfail. unfold Order.executeWithRetry. fold config.
    set (m := default 0 (maxRetries config)) in *.
    replace (Z.to_nat (m + 1)) with (k + S (Z.to_nat m - k))%nat by lia.
    destruct (retryLoop_skip
                (fun e => Order.isRetryableError e
                            (default [] (retryableErrors config)))
                m (Order.exhausted m context) "message" k
                (S (Z.to_nat m - k)) 0 ThrowUndefined s) as (l & ->);
      [lia|exact Hfail|].
    apply Hlast.
  - intros Hk Hfail. unfold Plain.executeWithRetry.
    set (m := default 3 (maxRetries options)) in *.
    replace (Z.to_nat (m + 1)) with (k + S (Z.to_nat m - k))%nat by lia.
    destruct (retryLoop_skip
                (fun e => Plain.isRetryableError e
                            (default Plain.defaultRetryableErrors
                                     (retryableErrors options)))
                m ThrowError "code" k
                (S (Z.to_nat m - k)) 0 ThrowUndefined s) as (l & ->);
      [lia|exact Hfail|].
    apply Hlast.
Qed.

(** X9. An error that is not retryable ends the call at once, whatever is
    left of the budget: after [k] retryable failures within the number of
    retries, an attempt that fails with a non-retryable error rejects the
    call with that very error (the order service's variant does not wrap
    it), and an attempt that throws [undefined] rejects it with the
    [TypeError] of reading the value's first property. *)
Theorem X9_not_retryable_stops configService options context (k : nat)
    (s : Sigma) :
  let config := Order.mergeOptions configService options in
  let outcome (isRetryable : Error -> bool) (prop : string) :=
    match (operation (invocations operation k s)).2 with
    | Rejected (ThrowError e) =>
        if isRetryable e then None else Some (ThrowError e)
    | Rejected ThrowUndefined => Some (ThrowError (typeErrorUndefined prop))
    | Resolved _ => None
    end in
  let orderRetryable e :=
    Order.isRetryableError e (default [] (retryableErrors config)) in
  let plainRetryable e :=
    Plain.isRetryableError e
      (default Plain.defaultRetryableErrors (retryableErrors options)) in
  (forall t,
     Z.of_nat k <= default 0 (maxRetries config) ->
     (forall i, (i < k)%nat ->
        exists e,
          (operation (invocations operation i s)).2 = Rejected (ThrowError e)
          /\ orderRetryable e = true) ->
     outcome orderRetryable "message" = Some t ->
     Order.executeWithRetry configService operation options context s
     = (invocations operation (S k) s, Rejected t))
  /\ (forall t,
        Z.of_nat k <= default 3 (maxRetries options) ->
        (forall i, (i < k)%nat ->
           exists e,
             (operation (invocations operation i s)).2
             = Rejected (ThrowError e)
             /\ plainRetryable e = true) ->
        outcome plainRetryable "code" = Some t ->
        Plain.executeWithRetry operation options s
        = (invocations operation (S k) s, Rejected t)).
Proof.
  intros config outcome orderRetryable plainRetryable.
  assert (Hlast : forall isRetryable maxRetries' onExhausted prop fuel attempt
                         lastError t,
    outcome isRetryable prop = Some t ->
    retryLoop operation isRetryable maxRetries' onExhausted prop
      (S fuel) attempt lastError (invocations operation k s)
    = (invocations operation (S k) s, Rejected t)).
  { intros isRetryable maxRetries' onExhausted prop fuel attempt lastError t.
    unfold outcome. cbn [retryLoop]. rewrite invocations_last.
    destruct (operation (invocations operation k s)) as [s' [r|[e|]]];
      simpl; [done| |by intros [= <-]].
    destruct (isRetryable e); [done|]. by intros [= <-]. }
  split.
  - intros t Hk Hfail Hout. unfold Order.executeWithRetry. fold config.
    set (m := default 0 (maxRetries config)) in *.
    replace (Z.to_nat (m + 1)) with (k + S (Z.to_nat m - k))%nat by lia.
    destruct (retryLoop_skip orderRetryable
                m (Order.exhausted m context) "message" k
                (S (Z.to_nat m - k)) 0 ThrowUndefined s) as (l & Hl);
      [lia|exact Hfail|].
    unfold orderRetryable in Hl. rewrite Hl.
    by apply Hlast.
  - intros t Hk Hfail Hout. unfold Plain.executeWithRetry.
    set (m := default 3 (maxRetries options)) in *.
    replace (Z.to_nat (m + 1)) with (k + S (Z.to_nat m - k))%nat by lia.
    destruct (retryLoop_skip plainRetryable
                m ThrowError "code" k
                (S (Z.to_nat m - k)) 0 ThrowUndefined s) as (l & Hl);
      [lia|exact Hfail|].
    unfold plainRetryable in Hl. rewrite Hl.
    by apply Hlast.
Qed.

(** X10. Neither variant invokes the operation more than
    [maxRetries + 1] times, whatever the operation does, and a call
    resolves only with the result of the last invocation it made; with a
    negative [maxRetries] the operation is not invoked at all and the call
    is rejected with [undefined] (the [lastError] that was never
    assigned). *)
Theorem X10_attempts_bounded configService options context (s : Sigma) :
  let orderMax :=
    default 0 (maxRetries (Order.mergeOptions configService options)) in
  let plainMax := default 3 (maxRetries options) in
  let order :=
    Order.executeWithRetry configService operation options context s in
  let plain := Plain.executeWithRetry operation options s in
  (exists n,
      Z.of_nat n <= Z.max 0 (orderMax + 1)
      /\ order.1 = invocations operation n s
      /\ forall r, order.2 = Resolved r ->
           exists m, n = S m
             /\ (operation (invocations operation m s)).2 = Resolved r)
  /\ (exists n,
        Z.of_nat n <= Z.max 0 (plainMax + 1)
        /\ plain.1 = invocations operation n s
        /\ forall r, plain.2 = Resolved r ->
             exists m, n = S m
               /\ (operation (invocations operation m s)).2 = Resolved r)
  /\ (orderMax < 0 -> order = (s, Rejected ThrowUndefined))
  /\ (plainMax < 0 -> plain = (s, Rejected ThrowUndefined)).
Proof.
  intros orderMax plainMax order plain.
  split; [|split; [|split]].
  - unfold order, Order.executeWithRetry. fold orderMax.
    destruct (retryLoop_bound
      (fun e => Order.isRetryableError e
         (default [] (retryableErrors
                        (Order.mergeOptions configService options))))
      orderMax (Order.exhausted orderMax context) "message"
      (Z.to_nat (orderMax + 1)) 0 ThrowUndefined s)
      as (n & Hn & Hst & _ & Hlast).
    exists n. split; [lia|]. split; [exact Hst|].
    intros r Hr. rewrite Hr in Hlast. exact Hlast.
  - unfold plain, Plain.executeWithRetry. fold plainMax.
    destruct (retryLoop_bound
      (fun e => Plain.isRetryableError e
         (default Plain.defaultRetryableErrors (retryableErrors options)))
      plainMax ThrowError "code"
      (Z.to_nat (plainMax + 1)) 0 ThrowUndefined s)
      as (n & Hn & Hst & _ & Hlast).
    exists n. split; [lia|]. split; [exact Hst|].
    intros r Hr. rewrite Hr in Hlast. exact Hlast.
  - intros Hneg. unfold order, Order.executeWithRetry. fold orderMax.
    replace (Z.to_nat (orderMax + 1)) with 0%nat by lia. reflexivity.
  - intros Hneg. unfold plain, Plain.executeWithRetry. fold plainMax.
    replace (Z.to_nat (plainMax + 1)) with 0%nat by lia. reflexivity.
Qed.

(** X11. Without [maxRetries] in the options, the order service's variant
    takes the budget from the operation type: 5 retries for [database] and
    3 for [rabbitmq] and [http], whatever the configuration service holds
    for [RETRY_MAX_ATTEMPTS]; without a type, or with [default], and with
    [RETRY_MAX_ATTEMPTS] not set, it is the constructor's default of 3. An
    operation that always fails with a retryable error is invoked once
    more than the budget and the call is rejected with the error that
    names that number of attempts. *)
Theorem X11_budget_by_type configService signatures kind context (s : Sigma) :
  let options := mkOptions None signatures kind in
  let budget :=
    match kind with
    | Some opDatabase => 5
    | Some opRabbitmq | Some opHttp | Some opDefault | None => 3
    end in
  match kind with
  | Some opDatabase | Some opRabbitmq | Some opHttp => True
  | Some opDefault | None => Order.RETRY_MAX_ATTEMPTS configService = None
  end ->
  failsRetryably operation
    (fun e => Order.isRetryableError e
                (default [] (retryableErrors
                               (Order.mergeOptions configService options)))) ->
  exists e,
    (operation (invocations operation (Z.to_nat budget) s)).2
    = Rejected (ThrowError e)
    /\ Order.executeWithRetry configService operation options context s
       = (invocations operation (S (Z.to_nat budget)) s,
          Rejected (ThrowError (newError
            ("Operation failed after " +:+ pretty (budget + 1)
             +:+ " attempts: " +:+ context
             +:+ ". Last error: " +:+ message e)))).
Proof.
  intros options budget Hunset Hfail. unfold Order.executeWithRetry.
  assert (Hmax : default 0 (maxRetries
                              (Order.mergeOptions configService options))
                 = budget).
  { unfold budget, options, Order.mergeOptions, Order.defaultRetryOptions.
    destruct kind as [[]|]; cbn; try done; by rewrite Hunset. }
  assert (Hbudget : 0 <= budget) by (unfold budget; destruct kind as [[]|]; lia).
  rewrite Hmax.
  replace (Z.to_nat (budget + 1)) with (S (Z.to_nat budget)) by lia.
  destruct (retryLoop_exhausted operation _ budget
              (Order.exhausted budget context) "message" (Z.to_nat budget)
              Hfail 0 ThrowUndefined s) as (e & He & Hl); [lia|].
  exists e. split; [exact He|]. rewrite Hl. reflexivity.
Qed.

End RetryCourse.

(** ** Which errors are retried *)

Section RetryableErrors.

Import Retry.




End RetryableErrors.

Section RetryExamples.

Import Retry.

(** Two refusals, then success: three invocations, the third one's
    result. *)
Lemma X8_retry_until_success_witness :
  Order.executeWithRetry (Order.mkConfig None) (flaky 2) noOptions
    "publish" 0%nat
  = (3%nat, Resolved 2%nat).
Proof.
  destruct (X8_retry_until_success (flaky 2) (Order.mkConfig None) noOptions
              "publish" 2 2%nat 0%nat eq_refl) as [H _].
  apply H.
  - simpl. lia.
  - intros i Hi. exists (newError "ECONNREFUSED: Connection refused").
    destruct i as [|[|i]]; [split; reflexivity..|lia].
Defined.

(** A validation error on the first attempt: one invocation, the error
    itself. *)
Lemma X9_not_retryable_stops_witness :
  Order.executeWithRetry (Order.mkConfig None) invalid noOptions
    "publish" 0%nat
  = (1%nat, Rejected (ThrowError (newError "Validation failed"))).
Proof.
  destruct (X9_not_retryable_stops invalid (Order.mkConfig None) noOptions
              "publish" 0 0%nat) as [H _].
  apply H.
  - simpl. lia.
  - intros i Hi. lia.
  - reflexivity.
Defined.

(** With [maxRetries = -1] the refused operation is not invoked. *)
Lemma X10_attempts_bounded_witness :
  Plain.executeWithRetry refused (mkOptions (Some (-1)) None None) 0%nat
  = (0%nat, Rejected ThrowUndefined).
Proof.
  destruct (X10_attempts_bounded refused (Order.mkConfig None)
              (mkOptions (Some (-1)) None None) "publish" 0%nat)
    as (_ & _ & _ & H).
  apply H. simpl. lia.
Defined.

(** An operation without a type that is always refused, with
    [RETRY_MAX_ATTEMPTS] not set: four invocations. *)
Lemma X11_budget_by_type_witness :
  Order.executeWithRetry (Order.mkConfig None) refused noOptions "save" 0%nat
  = (4%nat,
     Rejected (ThrowError (newError
       "Operation failed after 4 attempts: save. Last error: ECONNREFUSED: Connection refused"))).
Proof.
  destruct (X11_budget_by_type refused (Order.mkConfig None) None None
              "save" 0%nat) as (e & He & Hrun).
  - reflexivity.
  - apply refused_failsRetryably. simpl. tauto.
  - injection He as <-. exact Hrun.
Defined.


End RetryExamples.

(** ** The sequence counters: reset *)

Section SequenceReset.

Import Sequence.

Lemma allocate_replicate e t n : forall db,
  (allocateAll reliable (replicate n (e, t)) db).2
  = Resolved <$> consecutive (getCurrentSequence e t db) n.
Proof.
  induction n as [|n IH]; intros db; [done|].
  cbn [replicate allocateAll].
  rewrite getNextSequenceNumber_reliable.
  set (db' := mkDb _ _ _).
  specialize (IH db').
  destruct (allocateAll reliable (replicate n (e, t)) db') as [db'' cs].
  cbn [snd] in *. rewrite IH.
  assert (Hcur : getCurrentSequence e t db' = getCurrentSequence e t db + 1).
  { unfold getCurrentSequence, db'. cbn [rows]. by rewrite lookup_insert_eq. }
  rewrite Hcur. unfold consecutive. cbn [seq fmap list_fmap].
  f_equal. f_equal.
  rewrite <- (fmap_S_seq 1), <- list_fmap_compose.
  apply list_fmap_ext. intros _ i _. simpl. lia.
Qed.

(** X13. [resetSequence] forgets the counter of its pair and nothing
    else: the current sequence of the pair is 0 afterwards, the counters of
    all other pairs are as before, and a reset of a pair without a row
    changes nothing. The allocations that follow restart at 1, so the
    numbers up to the old counter are handed out a second time. *)
Theorem X13_reset_sequence (e t : string) (db : Db) :
  let db' := resetSequence e t db in
  getCurrentSequence e t db' = 0
  /\ (forall e' t', (e', t') <> (e, t) ->
        getCurrentSequence e' t' db' = getCurrentSequence e' t' db)
  /\ (rows db !! (e, t) = None -> db' = db)
  /\ resetSequence e t db' = db'
  /\ (forall n,
        (allocateAll reliable (replicate n (e, t)) db').2
        = Resolved <$> ((fun i => Z.of_nat i) <$> seq 1 n))
  /\ (forall storage db1 first,
        getNextSequenceNumber storage e t db' = (db1, Resolved first) ->
        first = 1).
Proof.
  intros db'. subst db'. unfold resetSequence, getCurrentSequence.
  cbn [rows]. split; [by rewrite lookup_delete_eq|]. split; [|split; [|split; [|split]]].
  - intros e' t' Hne. by rewrite lookup_delete_ne.
  - intros Hnone. rewrite (delete_id _ _ Hnone). by destruct db.
  - cbn [rows dbNow transactions]. by rewrite delete_delete_eq.
  - intros n. rewrite allocate_replicate. unfold getCurrentSequence.
    cbn [rows]. rewrite lookup_delete_eq. reflexivity.
  - intros storage db1 first Hcall.
    destruct (getNextSequenceNumber_cases storage e t
                (mkDb (delete (e, t) (rows db)) (dbNow db) (transactions db)))
      as [[th Hr]|Hr]; rewrite Hr in Hcall; [done|].
    injection Hcall as _ <-. unfold getCurrentSequence. cbn [rows].
    by rewrite lookup_delete_eq.
Qed.

End SequenceReset.

(** ** The publisher: what goes to the broker *)

Section PublisherEmissions.

Import Publisher.

Variable storage : Sequence.Storage.
Variable configService : Retry.Order.ConfigService.
Variable handler :
  list EventBuffer.Call -> EventBuffer.OrderedEvent -> option Thrown.
Variable uuid : nat -> string.
Variable broker : nat -> Sink -> string -> option Thrown.

(** The three methods are one admission and two emissions. *)
Lemma publish_eq p correlationId w :
  publish storage configService handler uuid broker p correlationId w
  = match admitOrderEvent storage handler uuid (typeOf p) (orderOf p)
            correlationId w with
    | (w4, Rejected t) => (w4, Rejected t)
    | (w4, Resolved event) =>
        match publishToInventory configService broker event (typeOf p) w4 with
        | (w5, Rejected t) => (w5, Rejected t)
        | (w5, Resolved _) =>
            publishToNotification configService uuid broker
              (notificationKeyOf p) w5
        end
    end.
Proof. by destruct p. Qed.

(** The admission: rejected when the allocation is, with nothing but the
    transaction count changed; otherwise it resolves with the event whose
    object it handed to the buffer. *)
Lemma admitOrderEvent_cases type orderId correlationId w :
  let allocation :=
    Sequence.getNextSequenceNumber storage orderId "order" (db w) in
  let r := admitOrderEvent storage handler uuid type orderId correlationId w in
  match allocation.2 with
  | Rejected t =>
      r = (mkSystem allocation.1 (bufferService w) (emissions w) (uuids w),
           Rejected t)
  | Resolved sequenceNumber =>
      exists event,
        r.2 = Resolved event
        /\ eventSequenceNumber event = sequenceNumber
        /\ eventEntityId event = orderId
        /\ eventType event = type
        /\ eventId event = uuid (uuids w)
        /\ db r.1 = allocation.1
        /\ emissions r.1 = emissions w
        /\ (uuids w < uuids r.1)%nat
        /\ bufferService r.1
           = (EventBuffer.addEvent handler
                (length (EventBuffer.heap
                           (EventBuffer.world (bufferService w))))
                (newObject (orderedEventOf event) (bufferService w))).1
  end.
Proof.
  intros allocation r. subst allocation r. unfold admitOrderEvent.
  destruct (Sequence.getNextSequenceNumber storage orderId "order" (db w))
    as [db1 [n|t]]; cbn [fst snd]; [|done].
  destruct correlationId as [c|]; [destruct (decide (c = ""))|];
    cbn [uuidv4 db bufferService emissions uuids];
    rewrite (surjective_pairing (EventBuffer.addEvent _ _ _));
    rewrite addEvent_resolves; eexists; cbn [fst snd db emissions uuids
      bufferService eventSequenceNumber eventEntityId eventType eventId];
    repeat split; lia.
Qed.

(** What [n] invocations of an operation that makes one emission per
    invocation add to the log. *)
Lemma invocations_emissions (operation : System -> System * Completion unit)
    (attempt : System -> Emission) :
  (forall s, emissions (operation s).1 = emissions s ++ [attempt s]) ->
  forall n s,
    emissions (Retry.invocations operation n s)
    = emissions s
      ++ ((fun i => attempt (Retry.invocations operation i s)) <$> seq 0 n).
Proof.
  intros Hop. induction n as [|n IH]; intros s.
  - by rewrite app_nil_r.
  - rewrite invocations_last, Hop, IH, seq_S, fmap_app, app_assoc.
    reflexivity.
Qed.

(** A retried emission: at most four attempts for [rabbitmq]; they are
    the attempts of the successive states; all of them were refused when
    the call is rejected, and the last one and only it was accepted when
    it resolves. *)
Lemma retried_emissions (operation : System -> System * Completion unit)
    (attempt : System -> Emission) context w :
  (forall s, emissions (operation s).1 = emissions s ++ [attempt s]) ->
  (forall s, isResolved (operation s).2 = true
             <-> emissionError (attempt s) = None) ->
  let r := Retry.Order.executeWithRetry configService operation
             (Retry.mkOptions None None (Some Retry.opRabbitmq)) context w in
  exists n,
    (n <= 4)%nat
    /\ r.1 = Retry.invocations operation n w
    /\ emissions r.1
       = emissions w
         ++ ((fun i => attempt (Retry.invocations operation i w)) <$> seq 0 n)
    /\ match r.2 with
       | Resolved _ =>
           acceptedLast
             ((fun i => attempt (Retry.invocations operation i w))
                <$> seq 0 n)
       | Rejected _ =>
           refusedAll
             ((fun i => attempt (Retry.invocations operation i w))
                <$> seq 0 n)
       end.
Proof.
  intros Hop Hres r. subst r. unfold Retry.Order.executeWithRetry.
  change (default 0 (Retry.maxRetries (Retry.Order.mergeOptions configService
            (Retry.mkOptions None None (Some Retry.opRabbitmq))))) with 3.
  change (Z.to_nat (3 + 1)) with 4%nat.
  set (isRetryable := fun e : Error => Retry.Order.isRetryableError e _).
  destruct (retryLoop_bound operation isRetryable 3
              (Retry.Order.exhausted 3 context) "message" 4 0
              ThrowUndefined w) as (n & Hn & Hst & Hearlier & Hlast).
  exists n. split; [exact Hn|]. split; [exact Hst|].
  split; [rewrite Hst; by apply invocations_emissions|].
  assert (Hrefused : forall i,
    isResolved (operation (Retry.invocations operation i w)).2 = false ->
    emissionError (attempt (Retry.invocations operation i w)) <> None).
  { intros i Hi Hnone. apply Hres in Hnone. congruence. }
  destruct (Retry.retryLoop _ _ _ _ _ _ _ _ _).2 as [[]|t].
  - destruct Hlast as (m & -> & Hm).
    exists ((fun i => attempt (Retry.invocations operation i w)) <$> seq 0 m),
           (attempt (Retry.invocations operation m w)).
    split; [by rewrite seq_S, fmap_app|]. split.
    + apply Forall_fmap, Forall_forall. intros i Hi.
      apply elem_of_seq in Hi. apply Hrefused, Hearlier. lia.
    + apply Hres. by rewrite Hm.
  - apply Forall_fmap, Forall_forall. intros i Hi.
    apply elem_of_seq in Hi. apply Hrefused, Hlast. lia.
Qed.

(** [n] attempts of the notification draw [3 * n] identifiers. *)
Lemma notification_uuids key n w :
  let operation := fun w1 =>
    let '(_, w2) := uuidv4 uuid w1 in
    let '(messageId', w3) := uuidv4 uuid w2 in
    let '(correlationId', w4) := uuidv4 uuid w3 in
    emit broker notificationClient key messageId' correlationId' w4 in
  uuids (Retry.invocations operation n w) = (uuids w + 3 * n)%nat.
Proof.
  intros operation. induction n as [|n IH]; [simpl; lia|].
  rewrite invocations_last. unfold operation at 1. cbn [uuidv4 emit fst uuids].
  rewrite IH. lia.
Qed.

(** X14. What a call of [publishOrderCreated], [publishOrderCancelled] or
    [publishOrderDelivered] sends: first at most four attempts to the
    inventory service, all under the event's routing key and with the
    event's id as message id and one correlation id, then at most four
    attempts to the notification service under the notification's routing
    key, each with a message id of its own. Nothing goes to the
    notification service unless the inventory service's broker accepted
    the event; every attempt but the last to each was refused; the call
    resolves exactly when both were accepted at last. *)
Theorem X14_emission_discipline p correlationId w :
  let r := publish storage configService handler uuid broker p
             correlationId w in
  exists toInventory toNotification correlationId',
    emissions r.1 = emissions w ++ toInventory ++ toNotification
    /\ (length toInventory <= 4)%nat
    /\ (length toNotification <= 4)%nat
    /\ Forall (fun e => sink e = inventoryClient
                        /\ routingKey e = typeOf p
                        /\ messageId e = uuid (uuids w)
                        /\ emissionCorrelationId e = correlationId')
              toInventory
    /\ Forall (fun e => sink e = notificationClient
                        /\ routingKey e = notificationKeyOf p)
              toNotification
    /\ ((forall a b, uuid a = uuid b -> a = b) ->
        NoDup (messageId <$> toNotification))
    /\ match r.2 with
       | Resolved _ => acceptedLast toInventory /\ acceptedLast toNotification
       | Rejected _ =>
           (refusedAll toInventory /\ toNotification = [])
           \/ (acceptedLast toInventory /\ refusedAll toNotification)
       end.
Proof.
  intros r. subst r. rewrite publish_eq.
  pose proof (admitOrderEvent_cases (typeOf p) (orderOf p) correlationId w)
    as Hadm. cbn zeta in Hadm.
  destruct (Sequence.getNextSequenceNumber storage (orderOf p) "order" (db w))
    as [db1 [sequenceNumber|t]]; cbn [fst snd] in Hadm.
  2:{ rewrite Hadm. exists [], [], "". cbn [fst snd emissions].
      rewrite app_nil_r.
      split; [done|]. split; [simpl; lia|]. split; [simpl; lia|].
      split; [constructor|]. split; [constructor|].
      split; [intros _; constructor|].
      left. split; [constructor|done]. }
  destruct Hadm as (event & Hres & _ & _ & _ & Hid & _ & Hem & _).
  destruct (admitOrderEvent storage handler uuid (typeOf p) (orderOf p)
              correlationId w) as [w4 c]. cbn [fst snd] in *. subst c.
  (* the inventory service *)
  set (toInventory := fun s : System =>
         mkEmission inventoryClient (typeOf p) (eventId event)
           (eventCorrelationId event)
           (broker (length (emissions s)) inventoryClient (typeOf p))).
  destruct (retried_emissions
              (emit broker inventoryClient (typeOf p) (eventId event)
                 (eventCorrelationId event))
              toInventory ("publish-inventory-event-" +:+ eventId event) w4)
    as (n & Hn & _ & Hlog & Hout).
  { done. }
  { intros s. unfold emit, toInventory. cbn [snd emissionError].
    by destruct (broker _ _ _). }
  fold (publishToInventory configService broker event (typeOf p) w4)
    in Hlog, Hout.
  set (inv := (fun i => toInventory (Retry.invocations _ i w4)) <$> seq 0 n)
    in *.
  assert (Hinv : Forall (fun e => sink e = inventoryClient
                          /\ routingKey e = typeOf p
                          /\ messageId e = uuid (uuids w)
                          /\ emissionCorrelationId e
                             = eventCorrelationId event) inv).
  { apply Forall_fmap, Forall_forall. intros i _. by rewrite <- Hid. }
  assert (Hlen : length inv = n)
    by (unfold inv; by rewrite length_fmap, length_seq).
  destruct (publishToInventory configService broker event (typeOf p) w4)
    as [w5 [[]|t]]; cbn [fst snd] in *.
  2:{ exists inv, [], (eventCorrelationId event). cbn [fst snd].
      rewrite app_nil_r, Hlog, Hem.
      split; [done|]. split; [lia|]. split; [simpl; lia|].
      split; [exact Hinv|]. split; [constructor|].
      split; [intros _; constructor|].
      by left. }
  (* the notification service *)
  unfold publishToNotification. cbn [uuidv4].
  set (w6 := mkSystem (db w5) (bufferService w5) (emissions w5)
               (S (uuids w5))).
  set (operation := fun w1 : System => _).
  set (toNotification := fun s : System =>
         mkEmission notificationClient (notificationKeyOf p)
           (uuid (S (uuids s))) (uuid (S (S (uuids s))))
           (broker (length (emissions s)) notificationClient
                   (notificationKeyOf p))).
  destruct (retried_emissions operation toNotification
              ("publish-notification-event-" +:+ uuid (uuids w5)) w6)
    as (m & Hm & _ & Hlog' & Hout').
  { done. }
  { intros s. unfold operation, toNotification.
    cbn [uuidv4 emit snd emissionError emissions].
    by destruct (broker _ _ _). }
  set (notif := (fun i => toNotification (Retry.invocations _ i w6))
                  <$> seq 0 m) in *.
  exists inv, notif, (eventCorrelationId event).
  split; [rewrite Hlog'; unfold w6; cbn [emissions];
          by rewrite Hlog, Hem, app_assoc|].
  split; [lia|].
  split; [unfold notif; rewrite length_fmap, length_seq; lia|].
  split; [exact Hinv|].
  split; [by apply Forall_fmap, Forall_forall|].
  split.
  - intros Huuid. unfold notif. rewrite <- list_fmap_compose.
    assert (Hids : forall i,
      (messageId ∘ (fun i => toNotification
                               (Retry.invocations operation i w6))) i
      = uuid (S (uuids w6 + 3 * i))).
    { intros i. unfold compose, toNotification. cbn [messageId].
      do 2 f_equal. exact (notification_uuids (notificationKeyOf p) i w6). }
    assert (Heq :
      (messageId ∘ (fun i => toNotification
                               (Retry.invocations operation i w6)))
        <$> seq 0 m
      = (fun i => uuid (S (uuids w6 + 3 * i))) <$> seq 0 m).
    { apply list_fmap_ext. intros _ i _. apply Hids. }
    rewrite Heq.
    apply NoDup_fmap_2; [|apply NoDup_seq].
    intros a b Hab. apply Huuid in Hab. lia.
  - destruct (Retry.Order.executeWithRetry _ _ _ _ _).2; [done|].
    by right.
Qed.

End PublisherEmissions.

(** ** The publisher: the counter and the buffer *)

Section PublisherOrdering.

Import Publisher.

Variable configService : Retry.Order.ConfigService.
Variable handler :
  list EventBuffer.Call -> EventBuffer.OrderedEvent -> option Thrown.
Variable uuid : nat -> string.
Variable broker : nat -> Sink -> string -> option Thrown.

(** The emissions leave the sequence table and the buffer alone. *)
Lemma publish_ordering storage p correlationId w :
  ordering (publish storage configService handler uuid broker p
              correlationId w).1
  = ordering (admitOrderEvent storage handler uuid (typeOf p) (orderOf p)
                correlationId w).1.
Proof.
  rewrite publish_eq.
  destruct (admitOrderEvent storage handler uuid (typeOf p) (orderOf p)
              correlationId w) as [w4 [event|t]]; [|done].
  pose proof (publishToInventory_ordering configService broker event
                (typeOf p) w4) as Hinv.
  destruct (publishToInventory configService broker event (typeOf p) w4)
    as [w5 [[]|t]]; cbn [fst] in *; [|done].
  by rewrite publishToNotification_ordering.
Qed.

(** With a storage layer that does not fail, a call hands to the buffer a
    new object for the order, with the successor of the counter as its
    sequence number. *)
Lemma publish_reliable p correlationId w :
  let orderId := orderOf p in
  let k := Sequence.getCurrentSequence orderId "order" (db w) in
  let w' := (publish Sequence.reliable configService handler uuid broker p
               correlationId w).1 in
  Sequence.getCurrentSequence orderId "order" (db w') = k + 1
  /\ exists object,
       EventBuffer.sequenceNumber object = k + 1
       /\ EventBuffer.entityId object = orderId
       /\ bufferService w'
          = (EventBuffer.addEvent handler
               (length (EventBuffer.heap (EventBuffer.world (bufferService w))))
               (newObject object (bufferService w))).1.
Proof.
  intros orderId k w'.
  pose proof (publish_ordering Sequence.reliable p correlationId w) as Hord.
  fold w' in Hord.
  pose proof (admitOrderEvent_cases Sequence.reliable handler uuid (typeOf p)
                orderId correlationId w) as Hadm.
  cbn zeta in Hadm. rewrite getNextSequenceNumber_reliable in Hadm.
  cbn [fst snd] in Hadm.
  destruct Hadm as (event & _ & Hseq & Hent & _ & _ & Hdb & _ & _ & Hbuf).
  fold orderId in Hord. unfold ordering in Hord.
  injection Hord as Hdb' Hbuf'. split.
  - rewrite Hdb', Hdb. unfold Sequence.getCurrentSequence.
    cbn [Sequence.rows]. by rewrite lookup_insert_eq.
  - exists (orderedEventOf event). split; [exact Hseq|]. split; [exact Hent|].
    by rewrite Hbuf'.
Qed.

(** One call, with the counter and the buffer in step. *)
Lemma publish_inStep p correlationId w :
  (forall cs ev, handler cs ev = None) ->
  inStep (orderOf p) w ->
  let k := Sequence.getCurrentSequence (orderOf p) "order" (db w) in
  let w' := (publish Sequence.reliable configService handler uuid broker p
               correlationId w).1 in
  inStep (orderOf p) w'
  /\ Sequence.getCurrentSequence (orderOf p) "order" (db w') = k + 1
  /\ EventBuffer.invokedSequences
       (EventBuffer.calls (EventBuffer.world (bufferService w')))
     = EventBuffer.invokedSequences
         (EventBuffer.calls (EventBuffer.world (bufferService w)))
       ++ [k + 1].
Proof.
  intros Hnever Hstep k w'.
  destruct (publish_reliable p correlationId w)
    as (Hcur & object & Hseq & Hent & Hbuf).
  fold k in Hcur, Hseq. fold w' in Hcur, Hbuf.
  set (b := bufferService w) in *.
  set (ref := length (EventBuffer.heap (EventBuffer.world b))) in *.
  assert (Hobj : EventBuffer.heap (EventBuffer.world (newObject object b))
                   !!! ref = object).
  { unfold newObject. cbn [EventBuffer.world EventBuffer.heap].
    by apply list_lookup_total_middle. }
  erewrite (addEvent_run handler ref (newObject object b) (orderOf p) [] k)
    in Hbuf; cycle 1.
  { by rewrite Hobj. }
  { exact Hstep. }
  { cbn [app EventBuffer.sortBySequence fold_left
         EventBuffer.insertBySequence].
    rewrite drain_resolved; [reflexivity| |by apply Hnever].
    rewrite Hobj, Hseq. unfold EventBuffer.released.
    by rewrite Z.eqb_refl. }
  rewrite Hobj, Hseq in Hbuf.
  split; [|split; [exact Hcur|]].
  - unfold inStep. rewrite Hbuf, Hcur. cbn [EventBuffer.buffers].
    by rewrite lookup_insert_eq.
  - rewrite Hbuf. cbn [EventBuffer.world EventBuffer.markProcessed
      EventBuffer.logCall EventBuffer.calls newObject].
    unfold EventBuffer.invokedSequences. rewrite fmap_app.
    cbn [fmap list_fmap EventBuffer.callArg]. by rewrite Hseq.
Qed.

(** X15. While the counter of an order and its buffer are in step, every
    call of a publishing method for the order keeps them in step, whether
    or not the broker takes the messages: with a storage layer that does
    not fail and a callback that does not throw, the calls get the
    sequence numbers that follow the counter, and the callback is invoked
    once for each, in that order. *)
Theorem X15_in_step (orderId : string)
    (ps : list (Publication * option string)) (w : System) :
  (forall cs ev, handler cs ev = None) ->
  Forall (fun p => orderOf p.1 = orderId) ps ->
  inStep orderId w ->
  let k := Sequence.getCurrentSequence orderId "order" (db w) in
  let w' := publishAll Sequence.reliable configService handler uuid broker
              ps w in
  inStep orderId w'
  /\ Sequence.getCurrentSequence orderId "order" (db w')
     = k + Z.of_nat (length ps)
  /\ EventBuffer.invokedSequences
       (EventBuffer.calls (EventBuffer.world (bufferService w')))
     = EventBuffer.invokedSequences
         (EventBuffer.calls (EventBuffer.world (bufferService w)))
       ++ Sequence.consecutive k (length ps).
Proof.
  intros Hnever Hps. revert w.
  induction Hps as [|[p c] ps Hp Hps IH]; intros w Hstep k w'.
  - subst w'. cbn [publishAll length]. split; [done|]. split; [lia|].
    by rewrite app_nil_r.
  - cbn [fst] in Hp. subst orderId.
    destruct (publish_inStep p c w Hnever Hstep) as (Hstep1 & Hcur1 & Hcalls1).
    destruct (IH _ Hstep1) as (Hstep' & Hcur' & Hcalls').
    subst w'. cbn [publishAll length]. split; [exact Hstep'|].
    split; [rewrite Hcur', Hcur1; fold k; lia|].
    rewrite Hcalls', Hcalls1, Hcur1. fold k.
    rewrite consecutive_S, <- app_assoc. reflexivity.
Qed.

End PublisherOrdering.

Section PublisherStall.

Import Publisher.

Variable configService : Retry.Order.ConfigService.
Variable handler :
  list EventBuffer.Call -> EventBuffer.OrderedEvent -> option Thrown.
Variable uuid : nat -> string.
Variable broker : nat -> Sink -> string -> option Thrown.

(** The sort puts an element that is not smaller than any other last, and
    leaves a sorted list as it is. *)
Lemma insertBySequence_last (h : list EventBuffer.OrderedEvent) x l :
  Forall (fun y => EventBuffer.bySequence h y x) l ->
  EventBuffer.insertBySequence h x l = l ++ [x].
Proof.
  induction 1 as [|y l Hy Hl IH]; [done|].
  cbn [EventBuffer.insertBySequence app]. unfold EventBuffer.bySequence in Hy.
  destruct (Z.ltb_spec (EventBuffer.sequenceNumber (h !!! x))
                       (EventBuffer.sequenceNumber (h !!! y))); [lia|].
  by rewrite IH.
Qed.

Lemma sortBySequence_sorted_id (h : list EventBuffer.OrderedEvent) l :
  StronglySorted (EventBuffer.bySequence h) l ->
  EventBuffer.sortBySequence h l = l.
Proof.
  unfold EventBuffer.sortBySequence.
  assert (H : forall acc,
    StronglySorted (EventBuffer.bySequence h) (acc ++ l) ->
    fold_left (fun acc x => EventBuffer.insertBySequence h x acc) l acc
    = acc ++ l).
  { induction l as [|x l IH]; intros acc Hs; [by rewrite app_nil_r|].
    cbn [fold_left]. rewrite insertBySequence_last.
    - rewrite IH; rewrite <- app_assoc; done.
    - apply Forall_forall. intros y Hy.
      eapply StronglySorted_app_1_elem_of; [exact Hs|exact Hy|constructor]. }
  intros Hs. by rewrite (H []).
Qed.

(** One call for an order whose buffer waits, without a watermark, on an
    event that the gap rule does not release: the new event is queued
    last and the callback is not invoked. *)
Lemma publish_stalled p correlationId w (k : Z) pend :
  2 <= k <= 5 ->
  let orderId := orderOf p in
  let b := bufferService w in
  let h := EventBuffer.heap (EventBuffer.world b) in
  let cur := Sequence.getCurrentSequence orderId "order" (db w) in
  default (EventBuffer.mkBuffer orderId [] 0)
          (EventBuffer.buffers b !! orderId)
  = EventBuffer.mkBuffer orderId pend 0 ->
  StronglySorted (EventBuffer.bySequence h) pend ->
  Forall (fun x => (x < length h)%nat
                   /\ k + 1 <= EventBuffer.sequenceNumber (h !!! x) <= cur)
         pend ->
  match pend with
  | [] => cur = k
  | r :: _ => EventBuffer.sequenceNumber (h !!! r) = k + 1
  end ->
  let w' := (publish Sequence.reliable configService handler uuid broker p
               correlationId w).1 in
  let b' := bufferService w' in
  let h' := EventBuffer.heap (EventBuffer.world b') in
  let cur' := Sequence.getCurrentSequence orderId "order" (db w') in
  cur' = cur + 1
  /\ EventBuffer.calls (EventBuffer.world b')
     = EventBuffer.calls (EventBuffer.world b)
  /\ (exists r rest,
        pend ++ [length h] = r :: rest
        /\ EventBuffer.sequenceNumber (h' !!! r) = k + 1)
  /\ EventBuffer.buffers b' !! orderId
     = Some (EventBuffer.mkBuffer orderId (pend ++ [length h]) 0)
  /\ StronglySorted (EventBuffer.bySequence h') (pend ++ [length h])
  /\ Forall (fun x => (x < length h')%nat
                      /\ k + 1 <= EventBuffer.sequenceNumber (h' !!! x)
                         <= cur')
            (pend ++ [length h]).
Proof.
  intros Hk orderId b h cur Hbuffer Hsorted Hvalid Hhead w' b' h' cur'.
  destruct (publish_reliable configService handler uuid broker p
              correlationId w) as (Hcur & object & Hseq & Hent & Hbuf).
  fold orderId cur b in Hcur, Hseq, Hent, Hbuf. fold w' in Hcur, Hbuf.
  fold cur' in Hcur. fold b' in Hbuf. fold h in Hbuf.
  set (b1 := newObject object b) in *.
  set (h1 := EventBuffer.heap (EventBuffer.world b1)).
  assert (Hh1 : h1 = h ++ [object]) by done.
  assert (Hobj : h1 !!! length h = object).
  { rewrite Hh1. by apply list_lookup_total_middle. }
  assert (Hold : forall x, (x < length h)%nat -> h1 !!! x = h !!! x).
  { intros x Hx. rewrite Hh1. by apply lookup_total_app_l. }
  assert (Hcurk : k <= cur).
  { destruct pend as [|r pend']; [lia|].
    apply Forall_cons in Hvalid as [[_ ?] _]. lia. }
  assert (Hsorted1 : StronglySorted (EventBuffer.bySequence h1)
                                    (pend ++ [length h])).
  { apply StronglySorted_app_2.
    - intros x y Hx Hy. apply list_elem_of_singleton in Hy as ->.
      unfold EventBuffer.bySequence. rewrite Hobj, Hseq.
      rewrite Forall_forall in Hvalid. destruct (Hvalid x Hx) as [Hlt ?].
      rewrite Hold by done. lia.
    - clear Hbuffer Hhead. induction Hsorted as [|x l Hl IH Hx];
        [constructor|].
      apply Forall_cons in Hvalid as [[Hlt _] Hvalid].
      constructor; [by apply IH|].
      rewrite Forall_forall in Hx, Hvalid |- *. intros y Hy.
      unfold EventBuffer.bySequence.
      rewrite !Hold by (done || apply (Hvalid y Hy)).
      by apply Hx.
    - repeat constructor. }
  assert (Hhead1 : exists r rest,
    pend ++ [length h] = r :: rest
    /\ EventBuffer.sequenceNumber (h1 !!! r) = k + 1).
  { destruct pend as [|r pend'].
    - exists (length h), []. split; [done|]. rewrite Hobj, Hseq. lia.
    - exists r, (pend' ++ [length h]). split; [done|].
      apply Forall_cons in Hvalid as [[Hlt _] _]. by rewrite Hold. }
  destruct Hhead1 as (r & rest & Hpend & Hr).
  erewrite (addEvent_run handler (length h) b1 orderId pend 0) in Hbuf;
    cycle 1.
  { fold h1. by rewrite Hobj. }
  { exact Hbuffer. }
  { fold h1. rewrite (sortBySequence_sorted_id h1) by exact Hsorted1.
    rewrite Hpend. apply drain_waiting; fold h1; rewrite Hr; [lia|].
    unfold EventBuffer.released.
    rewrite orb_false_iff, andb_false_iff, orb_false_iff, andb_false_iff.
    rewrite !Z.eqb_neq, !Z.ltb_ge. lia. }
  rewrite <- Hpend in Hbuf. fold h1 in Hbuf.
  rewrite (sortBySequence_sorted_id h1) in Hbuf by exact Hsorted1.
  assert (Hh' : h' = h1) by (unfold h'; by rewrite Hbuf).
  split; [exact Hcur|]. split; [by rewrite Hbuf|].
  split; [exists r, rest; by rewrite Hh'|].
  split; [rewrite Hbuf; cbn [EventBuffer.buffers]; rewrite Hpend;
          by rewrite lookup_insert_eq|].
  split; [by rewrite Hh'|].
  rewrite Hh'. apply Forall_app. split.
  - eapply Forall_impl; [exact Hvalid|]. cbn beta. intros x [Hlt Hx].
    rewrite Hold by done. rewrite Hh1, length_app. simpl. lia.
  - constructor; [|constructor]. rewrite Hobj, Hseq, Hh1, length_app.
    simpl. lia.
Qed.

(** X16. The idle clean-up can leave an order stalled. When the counter of
    an order is between 2 and 5 and its buffer, in step with it, is
    removed by the clean-up timer, no later event of the order is ever
    handed to the callback: every call of a publishing method for the
    order queues its event behind the first one, which waits for the
    sequence numbers that were processed before the clean-up. *)
Theorem X16_stalled_after_cleanup (orderId : string)
    (ps : list (Publication * option string)) (w : System) :
  Forall (fun p => orderOf p.1 = orderId) ps ->
  inStep orderId w ->
  2 <= Sequence.getCurrentSequence orderId "order" (db w) <= 5 ->
  let cleaned :=
    mkSystem (db w)
      (EventBuffer.cleanupTimerFires orderId (bufferService w))
      (emissions w) (uuids w) in
  let w' := publishAll Sequence.reliable configService handler uuid broker
              ps cleaned in
  EventBuffer.getBufferStatus orderId (bufferService cleaned) = None
  /\ EventBuffer.calls (EventBuffer.world (bufferService w'))
     = EventBuffer.calls (EventBuffer.world (bufferService w))
  /\ Sequence.getCurrentSequence orderId "order" (db w')
     = Sequence.getCurrentSequence orderId "order" (db w)
       + Z.of_nat (length ps)
  /\ (ps <> [] ->
      exists buffer,
        EventBuffer.getBufferStatus orderId (bufferService w') = Some buffer
        /\ EventBuffer.lastProcessedSequence buffer = 0
        /\ length (EventBuffer.pendingEvents buffer) = length ps).
Proof.
  intros Hps Hstep Hk cleaned w'.
  set (k := Sequence.getCurrentSequence orderId "order" (db w)) in *.
  assert (Hnone : EventBuffer.buffers (bufferService cleaned) !! orderId
                  = None).
  { unfold cleaned, EventBuffer.cleanupTimerFires. cbn [bufferService].
    unfold inStep in Hstep.
    destruct (EventBuffer.buffers (bufferService w) !! orderId)
      as [buffer|] eqn:Hb; [|by rewrite Hb].
    simpl in Hstep. subst buffer. cbn [EventBuffer.pendingEvents].
    cbn [EventBuffer.buffers]. apply lookup_delete_eq. }
  split; [exact Hnone|].
  assert (Hcalls : EventBuffer.calls (EventBuffer.world (bufferService cleaned))
                   = EventBuffer.calls (EventBuffer.world (bufferService w))).
  { unfold cleaned, EventBuffer.cleanupTimerFires. cbn [bufferService].
    destruct (EventBuffer.buffers (bufferService w) !! orderId)
      as [buffer|]; [|done].
    by destruct (EventBuffer.pendingEvents buffer). }
  rewrite <- Hcalls.
  assert (Hgen : forall ps, Forall (fun p => orderOf p.1 = orderId) ps ->
    forall v pend,
      let b := bufferService v in
      let h := EventBuffer.heap (EventBuffer.world b) in
      let cur := Sequence.getCurrentSequence orderId "order" (db v) in
      default (EventBuffer.mkBuffer orderId [] 0)
              (EventBuffer.buffers b !! orderId)
      = EventBuffer.mkBuffer orderId pend 0 ->
      StronglySorted (EventBuffer.bySequence h) pend ->
      Forall (fun x => (x < length h)%nat
                       /\ k + 1 <= EventBuffer.sequenceNumber (h !!! x)
                          <= cur) pend ->
      match pend with
      | [] => cur = k
      | r :: _ => EventBuffer.sequenceNumber (h !!! r) = k + 1
      end ->
      let v' := publishAll Sequence.reliable configService handler uuid
                  broker ps v in
      EventBuffer.calls (EventBuffer.world (bufferService v'))
      = EventBuffer.calls (EventBuffer.world b)
      /\ Sequence.getCurrentSequence orderId "order" (db v')
         = cur + Z.of_nat (length ps)
      /\ exists pend',
           default (EventBuffer.mkBuffer orderId [] 0)
                   (EventBuffer.buffers (bufferService v') !! orderId)
           = EventBuffer.mkBuffer orderId pend' 0
           /\ length pend' = (length pend + length ps)%nat).
  { clear -Hk. intros ps0 Hps.
    induction Hps as [|[p c] ps Hp Hps IH];
      intros v pend b h cur Hbuffer Hsorted Hvalid Hhead v'.
    - subst v'. cbn [publishAll length]. split; [done|]. split; [lia|].
      exists pend. split; [done|lia].
    - cbn [fst] in Hp. subst orderId.
      destruct (publish_stalled p c v k pend Hk Hbuffer Hsorted Hvalid Hhead)
        as (Hcur1 & Hcalls1 & (r & rest & Hpend & Hr) & Hb1 & Hsorted1
            & Hvalid1).
      destruct (IH (publish Sequence.reliable configService handler uuid
                      broker p c v).1 (pend ++ [length h]))
        as (Hcalls' & Hcur' & pend' & Hb' & Hlen').
      { by rewrite Hb1. }
      { exact Hsorted1. }
      { exact Hvalid1. }
      { fold b in Hpend. fold h in Hpend. rewrite Hpend. exact Hr. }
      subst v'. cbn [publishAll length]. split; [by rewrite Hcalls'|].
      split; [rewrite Hcur', Hcur1; fold cur; lia|].
      exists pend'. split; [exact Hb'|].
      rewrite Hlen', length_app. simpl. lia. }
  destruct (Hgen ps Hps cleaned []) as (Hc & Hcur & pend' & Hb & Hlen).
  { by rewrite Hnone. }
  { constructor. }
  { constructor. }
  { reflexivity. }
  fold w' in Hc, Hcur, Hb. split; [exact Hc|]. split; [exact Hcur|].
  intros Hne. unfold EventBuffer.getBufferStatus.
  destruct (EventBuffer.buffers (bufferService w') !! orderId)
    as [buffer|].
  - exists buffer. split; [done|]. simpl in Hb. subst buffer.
    split; [done|exact Hlen].
  - simpl in Hb. injection Hb as <-. simpl in Hlen.
    destruct ps; [done|simpl in Hlen; lia].
Qed.

End PublisherStall.

Section PublisherExamples.

Import Publisher.

(** A counter at 2 is reset: the next two allocations return 1 and 2
    again. *)
Lemma X13_reset_sequence_witness :
  let db :=
    (Sequence.allocateAll Sequence.reliable
       [("order-1", "order"); ("order-1", "order")]
       (Sequence.mkDb ∅ 0 0)).1 in
  Sequence.getCurrentSequence "order-1" "order" db = 2
  /\ (Sequence.allocateAll Sequence.reliable
        (replicate 2 ("order-1", "order"))
        (Sequence.resetSequence "order-1" "order" db)).2
     = [Resolved 1; Resolved 2].
Proof.
  intros db. split; [vm_compute; reflexivity|].
  destruct (X13_reset_sequence "order-1" "order" db)
    as (_ & _ & _ & _ & H & _).
  exact (H 2%nat).
Defined.

(** With the broker down, [publishOrderCancelled] on a fresh system. *)
Lemma X14_emission_discipline_witness :
  let r :=
    publish Sequence.reliable (Retry.Order.mkConfig None)
      EventBuffer.sourceHandler (fun n => "id-" +:+ pretty n) brokerDown
      (cancelled "order-1") None freshSystem in
  exists toInventory toNotification,
    emissions r.1 = emissions freshSystem ++ toInventory ++ toNotification
    /\ (length toInventory <= 4)%nat
    /\ (length toNotification <= 4)%nat.
Proof.
  intros r.
  destruct (X14_emission_discipline Sequence.reliable
              (Retry.Order.mkConfig None) EventBuffer.sourceHandler
              (fun n => "id-" +:+ pretty n) brokerDown
              (cancelled "order-1") None freshSystem)
    as (toInventory & toNotification & _ & H1 & H2 & H3 & _).
  exists toInventory, toNotification. split; [exact H1|]. split; assumption.
Defined.

(** An order is created and delivered while the broker is down: the
    callback sees the sequence numbers 1 and 2. *)
Lemma X15_in_step_witness :
  let w' :=
    publishAll Sequence.reliable (Retry.Order.mkConfig None)
      EventBuffer.sourceHandler (fun n => "id-" +:+ pretty n) brokerDown
      [(created (mkOrder "order-1" "customer-1"), None);
       (delivered "order-1", None)] freshSystem in
  inStep "order-1" w'
  /\ Sequence.getCurrentSequence "order-1" "order" (db w') = 2
  /\ EventBuffer.invokedSequences
       (EventBuffer.calls (EventBuffer.world (bufferService w')))
     = [1; 2].
Proof.
  intros w'.
  destruct (X15_in_step (Retry.Order.mkConfig None)
              EventBuffer.sourceHandler (fun n => "id-" +:+ pretty n)
              brokerDown "order-1"
              [(created (mkOrder "order-1" "customer-1"), None);
               (delivered "order-1", None)] freshSystem)
    as (H1 & H2 & H3).
  - reflexivity.
  - repeat constructor.
  - reflexivity.
  - split; [exact H1|]. split; [exact H2|exact H3].
Defined.

(** The order of the previous example, after the clean-up of its idle
    buffer: the event of its cancellation, with sequence number 3, is
    queued and the callback is not invoked. *)
Lemma X16_stalled_after_cleanup_witness :
  let w :=
    publishAll Sequence.reliable (Retry.Order.mkConfig None)
      EventBuffer.sourceHandler (fun n => "id-" +:+ pretty n) brokerDown
      [(created (mkOrder "order-1" "customer-1"), None);
       (delivered "order-1", None)] freshSystem in
  let cleaned :=
    mkSystem (db w)
      (EventBuffer.cleanupTimerFires "order-1" (bufferService w))
      (emissions w) (uuids w) in
  let w' :=
    publishAll Sequence.reliable (Retry.Order.mkConfig None)
      EventBuffer.sourceHandler (fun n => "id-" +:+ pretty n) brokerDown
      [(cancelled "order-1", None)] cleaned in
  EventBuffer.calls (EventBuffer.world (bufferService w'))
  = EventBuffer.calls (EventBuffer.world (bufferService w))
  /\ Sequence.getCurrentSequence "order-1" "order" (db w') = 3.
Proof.
  intros w cleaned w'.
  destruct (X16_stalled_after_cleanup (Retry.Order.mkConfig None)
              EventBuffer.sourceHandler (fun n => "id-" +:+ pretty n)
              brokerDown "order-1" [(cancelled "order-1", None)] w)
    as (_ & H1 & H2 & _).
  - repeat constructor.
  - vm_compute. reflexivity.
  - vm_compute. split; discriminate.
  - split; [exact H1|]. etransitivity; [exact H2|]. vm_compute. reflexivity.
Defined.

End PublisherExamples.

(** ** The order status rules *)

Section OrderRulesFacts.

Import OrderRules.

(** Every valid transition moves an order on. *)
Lemma transition_rank a b :
  isValidStatusTransition a b = true -> (statusRank a < statusRank b)%nat.
Proof. destruct a, b; simpl; intros; (done || lia). Qed.

(** X17. The transition table has no cycle: a chain of valid transitions
    never comes back to a status and has at most three steps. No
    transition leads to [PENDING] or out of [DELIVERED] or [CANCELLED],
    which are exactly the final statuses; a status is cancellable exactly
    when it is not final, so [SHIPPED] is; and the message for a
    transition out of a final status is the one about the final status. *)
Theorem X17_status_rules :
  (forall statuses,
      validChain statuses = true ->
      NoDup statuses /\ (length statuses <= 4)%nat)
  /\ (forall a b,
        isValidStatusTransition a b = true ->
        b <> PENDING /\ a <> b /\ isFinalStatus a = false)
  /\ (forall s, isFinalStatus s = true <-> s = DELIVERED \/ s = CANCELLED)
  /\ (forall s, isFinalStatus s = true <-> getNextPossibleStatuses s = [])
  /\ (forall s, isCancellableStatus s = negb (isFinalStatus s))
  /\ (forall a b,
        isFinalStatus a = true ->
        isValidStatusTransition a b = false
        /\ getInvalidTransitionMessage a b
           = "Order status '" +:+ statusString a
             +:+ "' is final and cannot be changed").
Proof.
  split; [|split; [|split; [|split; [|split]]]].
  - set (rank := statusRank).
    assert (Hchain : forall l a,
      validChain (a :: l) = true ->
      Forall (fun b => (rank a < rank b)%nat) l
      /\ NoDup l /\ (length l + rank a <= 3)%nat).
    { induction l as [|b l IH]; intros a Hv.
      - split; [constructor|]. split; [constructor|].
        destruct a; simpl; lia.
      - cbn [validChain] in Hv. apply andb_true_iff in Hv as [Hab Hv].
        apply transition_rank in Hab. fold rank in Hab.
        destruct (IH b Hv) as (Hall & Hnd & Hlen).
        split; [|split].
        + constructor; [exact Hab|].
          eapply Forall_impl; [exact Hall|]. simpl. intros; lia.
        + constructor; [|exact Hnd]. intros Hin.
          rewrite Forall_forall in Hall. specialize (Hall b Hin). lia.
        + simpl. lia. }
    intros [|a l] Hv; [split; [constructor|simpl; lia]|].
    destruct (Hchain l a Hv) as (Hall & Hnd & Hlen). split.
    + constructor; [|exact Hnd]. intros Hin.
      rewrite Forall_forall in Hall. specialize (Hall a Hin). lia.
    + simpl. lia.
  - intros a b Hv. by destruct a, b.
  - intros s. destruct s; simpl; split; intros; try done; try tauto;
      by destruct H.
  - intros s. by destruct s.
  - intros s. by destruct s.
  - intros a b Hfinal. by destruct a, b.
Qed.

End OrderRulesFacts.

(** ** OrderService: status, history and events *)

Section OrderServiceFacts.

Import OrderService.

Variable repositories : Repositories.
Variable storage : Sequence.Storage.
Variable configService : Retry.Order.ConfigService.
Variable handler :
  list EventBuffer.Call -> EventBuffer.OrderedEvent -> option Thrown.
Variable uuid : nat -> string.
Variable broker : nat -> Publisher.Sink -> string -> option Thrown.

Local Abbreviation publishing' :=
  (publishing storage configService handler uuid broker).
Local Abbreviation updateStatus' :=
  (updateStatus repositories storage configService handler uuid broker).
Local Abbreviation cancel' :=
  (cancel repositories storage configService handler uuid broker).

(** A publication leaves the tables alone. *)
Lemma publishing_tables p app :
  orders (publishing' p app).1 = orders app
  /\ history (publishing' p app).1 = history app
  /\ publisher (publishing' p app).1
     = (Publisher.publish storage configService handler uuid broker p None
          (publisher app)).1.
Proof.
  unfold publishing.
  by destruct (Publisher.publish _ _ _ _ _ _ _ _) as [system [[]|t]].
Qed.

Lemma updateStatus_changed id status adminId' reason' isFromSystem app :
  changed storage configService handler uuid broker id status
    (bool_decide (status = DELIVERED)) (Publisher.delivered id) app
    (updateStatus' id status adminId' reason' isFromSystem app).
Proof.
  unfold changed, updateStatus.
  destruct (negb isFromSystem && absent adminId'); [left; eauto|].
  unfold findOne.
  destruct (findOneFault repositories app id); [left; eauto|].
  destruct (orders app !! id) as [row|] eqn:Hrow; [|left; eauto].
  cbn [orderStatus orderId orderCustomerId].
  destruct (isValidStatusTransition (rowStatus row) status) eqn:Hvalid;
    cbn [negb]; [|left; eauto].
  unfold save.
  destruct (saveFault repositories app _); [left; eauto|].
  cbn [orderId orderCustomerId orderStatus].
  right. exists row. split; [done|]. split; [done|]. cbn zeta.
  unfold createHistoryRecord.
  destruct (historyFault repositories _ _); [left; eauto|].
  cbn [orders history publisher].
  match goal with
  | |- context [history app ++ [?record]] => right; exists record
  end.
  split; [reflexivity|]. split; [reflexivity|]. split; [reflexivity|].
  destruct (bool_decide (status = DELIVERED)); [|reflexivity].
  by destruct (publishing' _ _) as [app3 [[]|f]].
Qed.

Lemma cancel_changed id reason' app :
  changed storage configService handler uuid broker id CANCELLED true
    (Publisher.cancelled id) app
    (cancel' id reason' app).
Proof.
  unfold changed, cancel, findOne.
  destruct (findOneFault repositories app id); [left; eauto|].
  destruct (orders app !! id) as [row|] eqn:Hrow; [|left; eauto].
  cbn [orderStatus orderId orderCustomerId].
  destruct (bool_decide (rowStatus row = CANCELLED)); [left; eauto|].
  destruct (isCancellableStatus (rowStatus row)) eqn:Hc; cbn [negb];
    [|left; eauto].
  unfold save.
  destruct (saveFault repositories app _); [left; eauto|].
  cbn [orderId orderCustomerId orderStatus].
  right. exists row. split; [done|]. split; [exact Hc|]. cbn zeta.
  unfold createHistoryRecord.
  destruct (historyFault repositories _ _); [left; eauto|].
  cbn [orders history publisher].
  match goal with
  | |- context [history app ++ [?record]] => right; exists record
  end.
  split; [reflexivity|]. split; [reflexivity|]. split; [reflexivity|].
  by destruct (publishing' _ _) as [app3 [[]|f]].
Qed.

(** What a status change does to the tables. *)
Lemma changed_tables id status event p app r :
  changed storage configService handler uuid broker id status event p app r ->
  (forall id', movedAlong (orders app !! id') (orders r.1 !! id'))
  /\ (forall id', id' <> id -> orders r.1 !! id' = orders app !! id')
  /\ (history r.1 = history app
      \/ exists record before after,
           history r.1 = history app ++ [record]
           /\ historyOrderId record = id
           /\ orders app !! id = Some before
           /\ orders r.1 !! id = Some after
           /\ previousStatus record = rowStatus before
           /\ newStatus record = rowStatus after
           /\ newStatus record = status
           /\ isValidStatusTransition (rowStatus before) (rowStatus after)
              = true).
Proof.
  assert (Hsame : forall id', movedAlong (orders app !! id')
                                         (orders app !! id')).
  { intros id'. unfold movedAlong. destruct (orders app !! id'); auto. }
  assert (Hset : forall row,
    orders app !! id = Some row ->
    isValidStatusTransition (rowStatus row) status = true ->
    forall id',
      movedAlong (orders app !! id')
        (<[id := mkRow (rowCustomerId row) status]> (orders app) !! id')).
  { intros row Hrow Hvalid id'. destruct (decide (id' = id)) as [->|Hne].
    - rewrite lookup_insert_eq, Hrow. simpl. auto.
    - rewrite lookup_insert_ne by done. apply Hsame. }
  intros [[-> _]|(row & Hrow & Hvalid & [[-> _]|(record & Hid & Hprev & Hnew
                                                 & Hr)])].
  - split; [exact Hsame|]. split; [done|by left].
  - cbn [orders history]. split; [by apply Hset|].
    split; [intros id' Hne; by rewrite lookup_insert_ne|by left].
  - cbn zeta in Hr.
    assert (Htables :
      orders r.1 = <[id := mkRow (rowCustomerId row) status]> (orders app)
      /\ history r.1 = history app ++ [record]).
    { destruct event.
      - destruct Hr as [-> _].
        destruct (publishing_tables p
                    (mkApp (<[id := mkRow (rowCustomerId row) status]>
                              (orders app))
                           (history app ++ [record]) (publisher app)))
          as (-> & -> & _).
        done.
      - by rewrite Hr. }
    destruct Htables as [Ho Hh]. rewrite Ho, Hh.
    split; [by apply Hset|].
    split; [intros id' Hne; by rewrite lookup_insert_ne|].
    right. exists record, row, (mkRow (rowCustomerId row) status).
    rewrite lookup_insert_eq. cbn [rowStatus]. by repeat split.
Qed.

(** X18. The status of an order only ever moves along the transition
    table: whatever [updateStatus] or [cancel] is asked and whatever the
    repositories and the broker do, every order is still in the table
    afterwards, with its customer, and its status is the one before or a
    valid transition from it; no other order than the one named changes;
    and a history record is written only for the named order and only
    with the transition that was made. *)
Theorem X18_status_follows_table id app :
  (forall status adminId' reason' isFromSystem,
      let r := updateStatus' id status adminId' reason' isFromSystem app in
      (forall id', movedAlong (orders app !! id') (orders r.1 !! id'))
      /\ (forall id', id' <> id -> orders r.1 !! id' = orders app !! id')
      /\ (history r.1 = history app
          \/ exists record before after,
               history r.1 = history app ++ [record]
               /\ historyOrderId record = id
               /\ orders app !! id = Some before
               /\ orders r.1 !! id = Some after
               /\ previousStatus record = rowStatus before
               /\ newStatus record = rowStatus after
               /\ newStatus record = status
               /\ isValidStatusTransition (rowStatus before)
                    (rowStatus after) = true))
  /\ (forall reason',
        let r := cancel' id reason' app in
        (forall id', movedAlong (orders app !! id') (orders r.1 !! id'))
        /\ (forall id', id' <> id -> orders r.1 !! id' = orders app !! id')
        /\ (history r.1 = history app
            \/ exists record before after,
                 history r.1 = history app ++ [record]
                 /\ historyOrderId record = id
                 /\ orders app !! id = Some before
                 /\ orders r.1 !! id = Some after
                 /\ previousStatus record = rowStatus before
                 /\ newStatus record = rowStatus after
                 /\ newStatus record = CANCELLED
                 /\ isValidStatusTransition (rowStatus before)
                      (rowStatus after) = true)).
Proof.
  split.
  - intros status adminId' reason' isFromSystem.
    exact (changed_tables _ _ _ _ _ _
             (updateStatus_changed id status adminId' reason' isFromSystem
                app)).
  - intros reason'.
    exact (changed_tables _ _ _ _ _ _ (cancel_changed id reason' app)).
Qed.

(** What a status change does to the publisher. *)
Lemma changed_publisher id status event p app r :
  changed storage configService handler uuid broker id status event p app r ->
  (final id app -> r.1 = app /\ exists f, r.2 = Throws f)
  /\ (event = false -> publisher r.1 = publisher app)
  /\ (publisher r.1 <> publisher app ->
      ~ final id app
      /\ (exists row, orders r.1 !! id = Some row /\ rowStatus row = status)
      /\ publisher r.1
         = (Publisher.publish storage configService handler uuid broker p
              None (publisher app)).1).
Proof.
  assert (Hnot : forall row,
    orders app !! id = Some row ->
    isValidStatusTransition (rowStatus row) status = true ->
    ~ final id app).
  { intros row Hrow Hvalid (row' & Hrow' & Hfinal).
    rewrite Hrow in Hrow'. injection Hrow' as <-.
    by destruct (rowStatus row), status. }
  intros [[-> Hf]|(row & Hrow & Hvalid & [[-> Hf]|(record & _ & _ & _ & Hr)])].
  - split; [done|]. split; [done|]. by intros [].
  - split; [intros Hfinal; by destruct (Hnot row Hrow Hvalid)|].
    split; [done|]. by intros [].
  - split; [intros Hfinal; by destruct (Hnot row Hrow Hvalid)|].
    cbn zeta in Hr. destruct event.
    + destruct Hr as [-> _].
      destruct (publishing_tables p
                  (mkApp (<[id := mkRow (rowCustomerId row) status]>
                            (orders app))
                         (history app ++ [record]) (publisher app)))
        as (-> & _ & ->).
      cbn [orders publisher]. split; [done|]. intros _.
      split; [by apply (Hnot row)|]. split; [|done].
      eexists. by rewrite lookup_insert_eq.
    + rewrite Hr. cbn [fst publisher]. split; [done|]. by intros [].
Qed.

(** X19. An order has at most one event after its creation, and only with
    a final status. [updateStatus] touches the publisher (sequence
    counter, buffer, emissions) only for [DELIVERED], so a cancellation
    through [updateStatus] publishes nothing; [cancel] publishes
    [order.cancelled]. Whenever either of them has touched the publisher,
    whether or not the publication went through, the order is left in the
    requested final status; and on an order in a final status both are
    refused and change nothing. So a publication that failed is never
    made up for. *)
Theorem X19_events_and_final_status id app :
  (forall status adminId' reason' isFromSystem,
      let r := updateStatus' id status adminId' reason' isFromSystem app in
      (status <> DELIVERED -> publisher r.1 = publisher app)
      /\ (final id app -> r.1 = app /\ exists f, r.2 = Throws f)
      /\ (publisher r.1 <> publisher app ->
          ~ final id app
          /\ (exists row, orders r.1 !! id = Some row
                          /\ rowStatus row = DELIVERED)
          /\ publisher r.1
             = (Publisher.publishOrderDelivered storage configService
                  handler uuid broker id None (publisher app)).1))
  /\ (forall reason',
        let r := cancel' id reason' app in
        (final id app -> r.1 = app /\ exists f, r.2 = Throws f)
        /\ (publisher r.1 <> publisher app ->
            ~ final id app
            /\ (exists row, orders r.1 !! id = Some row
                            /\ rowStatus row = CANCELLED)
            /\ publisher r.1
               = (Publisher.publishOrderCancelled storage configService
                    handler uuid broker id None (publisher app)).1)).
Proof.
  split.
  - intros status adminId' reason' isFromSystem r.
    destruct (changed_publisher _ _ _ _ _ _
                (updateStatus_changed id status adminId' reason'
                   isFromSystem app)) as (Hfinal & Hquiet & Hloud).
    fold r in Hfinal, Hquiet, Hloud.
    split; [intros Hne; apply Hquiet; by apply bool_decide_eq_false|].
    split; [exact Hfinal|]. intros Hch.
    destruct (Hloud Hch) as (Hnf & (row & Hrow & Hst) & Hpub).
    split; [exact Hnf|]. split; [|exact Hpub].
    exists row. split; [exact Hrow|].
    destruct (decide (status = DELIVERED)) as [<-|Hne]; [done|].
    destruct Hch. apply Hquiet. by apply bool_decide_eq_false.
  - intros reason' r.
    destruct (changed_publisher _ _ _ _ _ _ (cancel_changed id reason' app))
      as (Hfinal & _ & Hloud).
    split; [exact Hfinal|exact Hloud].
Qed.

End OrderServiceFacts.

Section OrderCreation.

Import OrderService.

Variable repositories : Repositories.
Variable storage : Sequence.Storage.
Variable configService : Retry.Order.ConfigService.
Variable handler :
  list EventBuffer.Call -> EventBuffer.OrderedEvent -> option Thrown.
Variable uuid : nat -> string.
Variable broker : nat -> Publisher.Sink -> string -> option Thrown.
Variable validateInventoryItems : App -> option Failure.
Variable mockPaymentService : App -> OrderEntity -> Completion PaymentResult.

Local Abbreviation create' :=
  (create repositories storage configService handler uuid broker
     validateInventoryItems mockPaymentService).

(** The [catch] block never turns a failure into a result, and passes on
    the two exceptions of the client's making. *)
Lemma create_eq customerId app :
  create' customerId app
  = match customerId with
    | Some c =>
        if bool_decide (c = "")
        then (app, Throws (BadRequestException "Customer ID is required"
                                               None))
        else
          match creation repositories storage configService handler uuid
                  broker validateInventoryItems mockPaymentService c app with
          | (app', Returns order) => (app', Returns order)
          | (app', Throws f) => (app', Throws (caught f))
          end
    | None => (app, Throws (BadRequestException "Customer ID is required"
                                                None))
    end.
Proof.
  unfold create. destruct customerId as [c|]; [|done].
  by destruct (bool_decide (c = "")).
Qed.

(** X20. [create] with an order id that is not in the table yet. No other
    order changes. When [create] returns, it returns the new order, which
    is [CONFIRMED] in the table with the caller as its customer; when it
    throws, the new order may still be in the table, as [PENDING],
    [CONFIRMED] or [CANCELLED]. In particular, with repositories that do
    not fail: a declined payment leaves the order [CANCELLED] with a
    [BadRequestException] that carries the payment's message, and no event
    of the order is published, neither its creation nor its cancellation;
    and when the publication of [order.created] fails, the caller gets an
    [InternalServerErrorException] although the order stays [CONFIRMED]. *)
Theorem X20_create customerId app :
  let newId := uuid (Publisher.uuids (publisher app)) in
  let r := create' customerId app in
  orders app !! newId = None ->
  (forall id', id' <> newId -> orders r.1 !! id' = orders app !! id')
  /\ match r.2 with
     | Returns order =>
         exists c,
           customerId = Some c /\ c <> ""
           /\ order = mkEntity newId c CONFIRMED
           /\ orders r.1 !! newId = Some (mkRow c CONFIRMED)
     | Throws _ =>
         orders r.1 !! newId = None
         \/ exists c status,
              customerId = Some c
              /\ orders r.1 !! newId = Some (mkRow c status)
              /\ status ∈ [PENDING; CONFIRMED; CANCELLED]
     end
  /\ (forall c,
        customerId = Some c -> c <> "" ->
        repositories = sound ->
        validateInventoryItems app = None ->
        (forall declined,
            (forall a o, mockPaymentService a o
                         = Resolved (mkPayment false declined)) ->
            r.2 = Throws (BadRequestException
                            ("Payment failed: " +:+ interpolate declined)
                            None)
            /\ orders r.1 !! newId = Some (mkRow c CANCELLED)
            /\ Publisher.ordering (publisher r.1)
               = Publisher.ordering (publisher app)
            /\ Publisher.emissions (publisher r.1)
               = Publisher.emissions (publisher app))
        /\ (forall accepted e,
              (forall a o, mockPaymentService a o
                           = Resolved (mkPayment true accepted)) ->
              (Publisher.publishOrderCreated storage configService
                 handler uuid broker (Publisher.mkOrder newId c) None
                 (Publisher.uuidv4 uuid (publisher app)).2).2
              = Rejected (ThrowError e) ->
              r.2 = Throws (InternalServerErrorException
                              "Failed to create order" (Other (ThrowError e)))
              /\ orders r.1 !! newId = Some (mkRow c CONFIRMED))).
Proof.
  intros newId r Hfresh. subst r. rewrite create_eq.
  assert (Hnothing :
    (forall id', id' <> newId -> orders app !! id' = orders app !! id')
    /\ (orders app !! newId = None
        \/ exists c status,
             customerId = Some c
             /\ orders app !! newId = Some (mkRow c status)
             /\ status ∈ [PENDING; CONFIRMED; CANCELLED])).
  { split; [done|by left]. }
  destruct customerId as [c|]; cbn [fst snd].
  2:{ split; [apply Hnothing|]. split; [apply Hnothing|]. done. }
  destruct (bool_decide (c = "")) eqn:Hc; cbn [fst snd].
  { apply bool_decide_eq_true in Hc.
    split; [apply Hnothing|]. split; [by left|].
    intros c' [= <-] Hne. done. }
  apply bool_decide_eq_false in Hc.
  unfold creation.
  destruct (validateInventoryItems app) as [f|] eqn:Hvalidate;
    cbn [fst snd].
  { split; [apply Hnothing|]. split; [by left|].
    intros c' _ _ _ Hv. done. }
  cbn [Publisher.uuidv4]. fold newId.
  set (app0 := mkApp (orders app) (history app) _).
  unfold save. cbn [orderId orderCustomerId orderStatus].
  destruct (saveFault repositories app0 _) as [t|] eqn:Hsave; cbn [fst snd].
  { split; [done|]. split; [by left|].
    intros c' _ _ -> _. done. }
  set (app1 := mkApp (<[newId := mkRow c PENDING]> (orders app0))
                     (history app0) (publisher app0)).
  assert (Hrow1 : orders app1 !! newId = Some (mkRow c PENDING))
    by apply lookup_insert_eq.
  assert (Hother1 : forall id', id' <> newId ->
            orders app1 !! id' = orders app !! id').
  { intros id' Hne. unfold app1. cbn [orders].
    by rewrite lookup_insert_ne. }
  (* the two status changes that may follow *)
  assert (Hupdate : forall status reason',
    status = CONFIRMED \/ status = CANCELLED ->
    let u := updateStatus repositories storage configService handler uuid
               broker newId status (Some "system-payment") reason' false
               app1 in
    (forall id', id' <> newId -> orders u.1 !! id' = orders app !! id')
    /\ publisher u.1 = publisher app1
    /\ match u.2 with
       | Returns order =>
           order = mkEntity newId c status
           /\ orders u.1 !! newId = Some (mkRow c status)
       | Throws _ =>
           exists status',
             orders u.1 !! newId = Some (mkRow c status')
             /\ status' ∈ [PENDING; CONFIRMED; CANCELLED]
       end
    /\ (repositories = sound ->
        u.2 = Returns (mkEntity newId c status))).
  { intros status reason' Hstatus u.
    pose proof (updateStatus_changed repositories storage configService
                  handler uuid broker newId status (Some "system-payment")
                  reason' false app1) as Hch.
    fold u in Hch.
    destruct (changed_publisher _ _ _ _ _ _ _ _ _ _ _ Hch)
      as (_ & Hquiet & _).
    destruct (changed_tables _ _ _ _ _ _ _ _ _ _ _ Hch)
      as (_ & Hothers & _).
    split; [intros id' Hne; rewrite Hothers by done; by apply Hother1|].
    split; [apply Hquiet; by destruct Hstatus as [-> | ->]|].
    assert (Hdelivered : bool_decide (status = DELIVERED) = false)
      by (by destruct Hstatus as [-> | ->]).
    split.
    - destruct Hch as [[Hu [f Hf]]|(row & Hrow & Hvalid & [[Hu [f Hf]]|Hrec])].
      + rewrite Hf, Hu. exists PENDING. split; [done|].
        (rewrite !elem_of_cons; auto).
      + rewrite Hrow1 in Hrow. injection Hrow as <-.
        rewrite Hf, Hu. cbn [orders rowCustomerId].
        exists status. rewrite lookup_insert_eq. split; [done|].
        destruct Hstatus as [-> | ->]; (rewrite !elem_of_cons; auto).
      + rewrite Hrow1 in Hrow. injection Hrow as <-.
        destruct Hrec as (record & _ & _ & _ & Hu). cbn zeta in Hu.
        rewrite Hdelivered in Hu. rewrite Hu. cbn [fst snd orders
          rowCustomerId]. split; [done|]. by rewrite lookup_insert_eq.
    - intros ->. subst u. unfold updateStatus, findOne, save,
        createHistoryRecord. cbn [negb absent andb sound findOneFault
        saveFault historyFault bool_decide decide_rel].
      rewrite Hrow1. cbn [orderStatus rowStatus orderId orderCustomerId
        rowCustomerId].
      rewrite Hdelivered.
      by destruct Hstatus as [-> | ->]. }
  unfold processPayment.
  destruct (mockPaymentService app1 _) as [paymentResult|[e|]] eqn:Hpay;
    cbn [fst snd].
  3:{ split; [exact Hother1|]. split.
      - right. exists c, PENDING. split; [done|]. split; [done|].
        (rewrite !elem_of_cons; auto).
      - intros c' _ _ _ _. split.
        + intros declined Hd. by rewrite Hd in Hpay.
        + intros accepted e Ha. by rewrite Ha in Hpay. }
  - (* the payment service answered *)
    destruct (success paymentResult) eqn:Hsuccess.
    + destruct (Hupdate CONFIRMED None (or_introl eq_refl))
        as (Hothers & Hpub & Hout & Hsound).
      cbn zeta in Hothers, Hpub, Hout, Hsound.
      destruct (updateStatus _ _ _ _ _ _ _ _ _ _ _ app1)
        as [app2 [confirmedOrder|f]]; cbn [fst snd] in *.
      * destruct Hout as [-> Hrow2]. cbn [orderId orderCustomerId].
        destruct (publishing_tables storage configService handler uuid
                    broker (Publisher.created (Publisher.mkOrder newId c))
                    app2) as (Ho & _ & Hp).
        unfold publishing in *.
        destruct (Publisher.publish _ _ _ _ _ _ _ _) as [system [[]|t]]
          eqn:Hpublish; cbn [fst snd orders] in *.
        -- split; [exact Hothers|]. split; [by exists c|].
           intros c' [= <-] _ _ _. split.
           ++ intros declined Hd. rewrite Hd in Hpay.
              injection Hpay as <-. done.
           ++ intros accepted e Ha Hrejected.
              cbn [Publisher.publish] in Hpublish.
              rewrite Hpub in Hpublish. unfold app1, app0 in Hpublish.
              cbn [publisher] in Hpublish.
              cbn [Publisher.uuidv4 snd] in Hrejected.
              rewrite Hpublish in Hrejected. done.
        -- split; [exact Hothers|]. split.
           ++ right. exists c, CONFIRMED. split; [done|]. split; [done|].
              (rewrite !elem_of_cons; auto).
           ++ intros c' [= <-] _ _ _. split.
              ** intros declined Hd. rewrite Hd in Hpay.
                 injection Hpay as <-. done.
              ** intros accepted e Ha Hrejected.
                 cbn [Publisher.publish] in Hpublish.
                 rewrite Hpub in Hpublish. unfold app1, app0 in Hpublish.
                 cbn [publisher] in Hpublish.
                 cbn [Publisher.uuidv4 snd] in Hrejected.
                 rewrite Hpublish in Hrejected. cbn [snd] in Hrejected.
                 injection Hrejected as ->. by split.
      * destruct Hout as (status' & Hrow2 & Hin).
        split; [exact Hothers|]. split.
        -- right. by exists c, status'.
        -- intros c' [= <-] _ Hs _. by specialize (Hsound Hs).
    + set (message := "Payment failed: "
                      +:+ interpolate (errorMessage paymentResult)).
      destruct (Hupdate CANCELLED (Some message) (or_intror eq_refl))
        as (Hothers & Hpub & Hout & Hsound).
      cbn zeta in Hothers, Hpub, Hout, Hsound.
      destruct (updateStatus _ _ _ _ _ _ _ _ _ _ _ app1)
        as [app2 [cancelledOrder|f]]; cbn [fst snd] in *.
      * destruct Hout as [-> Hrow2].
        split; [exact Hothers|]. split.
        -- right. exists c, CANCELLED. split; [done|]. split; [done|].
           (rewrite !elem_of_cons; auto).
        -- intros c' [= <-] _ _ _. split.
           ++ intros declined Hd. rewrite Hd in Hpay.
              injection Hpay as <-. cbn [errorMessage] in message.
              split; [done|]. split; [done|]. rewrite Hpub.
              by split.
           ++ intros accepted e Ha. rewrite Ha in Hpay.
              injection Hpay as <-. done.
      * destruct Hout as (status' & Hrow2 & Hin).
        split; [exact Hothers|]. split.
        -- right. by exists c, status'.
        -- intros c' [= <-] _ Hs _. by specialize (Hsound Hs).
  - (* the payment service threw an error *)
    set (message := "Payment failed: "
                    +:+ interpolate (Some "Payment processing system error")).
    cbn [success errorMessage]. fold message.
    destruct (Hupdate CANCELLED (Some message) (or_intror eq_refl))
      as (Hothers & Hpub & Hout & Hsound).
    cbn zeta in Hothers, Hpub, Hout, Hsound.
    destruct (updateStatus _ _ _ _ _ _ _ _ _ _ _ app1)
      as [app2 [cancelledOrder|f]]; cbn [fst snd] in *.
    + destruct Hout as [-> Hrow2].
      split; [exact Hothers|]. split.
      * right. exists c, CANCELLED. split; [done|]. split; [done|].
        (rewrite !elem_of_cons; auto).
      * intros c' _ _ _ _. split.
        -- intros declined Hd. by rewrite Hd in Hpay.
        -- intros accepted e' Ha. by rewrite Ha in Hpay.
    + destruct Hout as (status' & Hrow2 & Hin).
      split; [exact Hothers|]. split.
      * right. by exists c, status'.
      * intros c' _ _ _ _. split.
        -- intros declined Hd. by rewrite Hd in Hpay.
        -- intros accepted e' Ha. by rewrite Ha in Hpay.
Qed.

End OrderCreation.

(** ** OrderService: the events of an order *)

Section OrderEvents.

Import OrderService.

Variable repositories : Repositories.
Variable storage : Sequence.Storage.
Variable configService : Retry.Order.ConfigService.
Variable handler :
  list EventBuffer.Call -> EventBuffer.OrderedEvent -> option Thrown.
Variable uuid : nat -> string.
Variable broker : nat -> Publisher.Sink -> string -> option Thrown.
Variable validateInventoryItems : App -> option Failure.
Variable mockPaymentService : App -> OrderEntity -> Completion PaymentResult.

Local Abbreviation publish' :=
  (Publisher.publish storage configService handler uuid broker).

(** A publication draws identifiers and moves the counter of its order by
    at most one; it moves no other counter. *)
Lemma publish_counters p correlationId w :
  let w' := (publish' p correlationId w).1 in
  (Publisher.uuids w <= Publisher.uuids w')%nat
  /\ forall id,
       let before := Sequence.getCurrentSequence id "order" (Publisher.db w) in
       let after := Sequence.getCurrentSequence id "order" (Publisher.db w') in
       before <= after <= before + 1
       /\ (id <> Publisher.orderOf p -> after = before).
Proof.
  intros w'. split.
  - subst w'. rewrite publish_eq.
    pose proof (admitOrderEvent_cases storage handler uuid
                  (Publisher.typeOf p) (Publisher.orderOf p) correlationId w)
      as Hadm. cbn zeta in Hadm.
    destruct (Sequence.getNextSequenceNumber storage _ _ _)
      as [db1 [n|t]]; cbn [fst snd] in Hadm.
    2:{ by rewrite Hadm. }
    destruct Hadm as (event & Hres & _ & _ & _ & _ & _ & _ & Hlt & _).
    destruct (Publisher.admitOrderEvent _ _ _ _ _ _ _) as [w4 c].
    cbn [fst snd] in *. subst c.
    pose proof (retryLoop_frame
                  (Publisher.emit broker Publisher.inventoryClient
                     (Publisher.typeOf p) (Publisher.eventId event)
                     (Publisher.eventCorrelationId event))
                  Publisher.uuids) as Hframe.
    unfold Publisher.publishToInventory, Retry.Order.executeWithRetry.
    rewrite (surjective_pairing (Retry.retryLoop _ _ _ _ _ _ _ _ _)).
    specialize (Hframe
      (fun e => Retry.Order.isRetryableError e
         (default [] (Retry.retryableErrors
            (Retry.Order.mergeOptions configService
               (Retry.mkOptions None None (Some Retry.opRabbitmq))))))
      3 (Retry.Order.exhausted 3
           ("publish-inventory-event-" +:+ Publisher.eventId event))
      "message" (fun _ => eq_refl) 4%nat 0 ThrowUndefined w4).
    change (default 0 _) with 3. change (Z.to_nat (3 + 1)) with 4%nat.
    destruct (Retry.retryLoop _ _ _ _ _ _ _ _ _) as [w5 [[]|t]];
      cbn [fst snd] in *; [|lia].
    unfold Publisher.publishToNotification, Retry.Order.executeWithRetry.
    cbn [Publisher.uuidv4].
    change (default 0 _) with 3. change (Z.to_nat (3 + 1)) with 4%nat.
    match goal with
    | |- context [Retry.retryLoop ?op ?isR ?m ?ex ?prop ?fuel ?a ?l ?s] =>
        destruct (retryLoop_bound op isR m ex prop fuel a l s)
          as (k & _ & -> & _);
        assert (Hk : Publisher.uuids (Retry.invocations op k s)
                     = (Publisher.uuids s + 3 * k)%nat)
          by exact (notification_uuids uuid broker
                      (Publisher.notificationKeyOf p) k s)
    end.
    rewrite Hk. cbn [Publisher.uuids]. lia.
  - intros id before after.
    pose proof (publish_ordering configService handler uuid broker storage p
                  correlationId w) as Hord.
    fold w' in Hord. unfold Publisher.ordering in Hord.
    injection Hord as Hdb _.
    pose proof (admitOrderEvent_cases storage handler uuid
                  (Publisher.typeOf p) (Publisher.orderOf p) correlationId w)
      as Hadm. cbn zeta in Hadm.
    pose proof (getNextSequenceNumber_current storage id "order"
                  (Publisher.orderOf p) "order" (Publisher.db w)) as Hcur.
    cbn zeta in Hcur.
    destruct (Sequence.getNextSequenceNumber storage _ _ _)
      as [db1 [n|t]]; cbn [fst snd] in Hadm, Hcur.
    + destruct Hadm as (event & _ & _ & _ & _ & _ & Hdb1 & _).
      destruct Hcur as [Hn Hafter].
      unfold after. rewrite Hdb, Hdb1, Hafter. fold before.
      case_decide as Hid.
      * injection Hid as Hid. rewrite Hid in Hn. fold before in Hn.
        split; [lia|done].
      * split; [lia|done].
    + rewrite Hadm in Hdb. cbn [fst Publisher.db] in Hdb.
      unfold after, before, Sequence.getCurrentSequence.
      rewrite Hdb, Hcur. split; [lia|done].
Qed.

(** A status change keeps the account. *)
Lemma changed_accounted id status event p app r :
  changed storage configService handler uuid broker id status event p app r ->
  Publisher.orderOf p = id ->
  (event = true -> isFinalStatus status = true) ->
  accounted uuid app -> accounted uuid r.1.
Proof.
  intros Hch Hp Hevent Hacc.
  assert (Hset : forall row system,
    orders app !! id = Some row ->
    isValidStatusTransition (rowStatus row) status = true ->
    (Publisher.uuids (publisher app) <= Publisher.uuids system)%nat ->
    (forall id',
        let before := eventsOf id' app in
        let after := Sequence.getCurrentSequence id' "order"
                       (Publisher.db system) in
        before <= after <= before + 1
        /\ (id' <> id -> after = before)) ->
    (system = publisher app \/ isFinalStatus status = true) ->
    forall h,
      accounted uuid
        (mkApp (<[id := mkRow (rowCustomerId row) status]> (orders app))
               h system)).
  { intros row system Hrow Hvalid Huuids Hcount Hfinal h id'.
    specialize (Hacc id'). specialize (Hcount id'). cbn zeta in Hcount.
    unfold eventsOf in *. cbn [orders publisher].
    destruct (decide (id' = id)) as [->|Hne].
    - rewrite lookup_insert_eq. cbn [rowStatus]. rewrite Hrow in Hacc.
      destruct Hacc as [(n & Hn & Hid) Hbound].
      split; [exists n; split; [lia|done]|].
      assert (isFinalStatus (rowStatus row) = false) as Hnf
        by (by destruct (rowStatus row), status).
      rewrite Hnf in Hbound.
      destruct Hfinal as [-> | ->]; [|lia].
      destruct (isFinalStatus status); lia.
    - rewrite lookup_insert_ne by done.
      destruct Hcount as [_ Hsame]. rewrite (Hsame Hne).
      destruct (orders app !! id') as [row'|]; [|exact Hacc].
      destruct Hacc as [(n & Hn & Hid) Hbound].
      split; [exists n; split; [lia|done]|exact Hbound]. }
  assert (Hquiet : forall id',
    let before := eventsOf id' app in
    before <= before <= before + 1 /\ (id' <> id -> before = before)).
  { intros id'. cbn zeta. split; [lia|done]. }
  destruct Hch as [[-> _]|(row & Hrow & Hvalid & [[-> _]|(record & _ & _ & _
                                                         & Hr)])].
  - exact Hacc.
  - apply Hset; try done. by left.
  - cbn zeta in Hr. destruct event.
    + destruct Hr as [-> _].
      pose proof (publishing_tables storage configService handler uuid
                    broker p
                    (mkApp (<[id := mkRow (rowCustomerId row) status]>
                              (orders app))
                           (history app ++ [record]) (publisher app)))
        as (Ho & Hh & Hpub).
      destruct (publishing _ _ _ _ _ _ _).1 as [orders3 history3 system3].
      cbn [orders history publisher] in *. subst orders3 system3.
      destruct (publish_counters p None (publisher app)) as [Hu Hc].
      apply Hset; try done.
      * intros id'. specialize (Hc id'). cbn zeta in *.
        rewrite Hp in Hc. exact Hc.
      * right. by apply Hevent.
    + rewrite Hr. cbn [fst]. apply Hset; try done. by left.
Qed.

(** The worlds that [create] can leave. *)
Lemma create_world customerId app :
  let newId := uuid (Publisher.uuids (publisher app)) in
  let system0 := (Publisher.uuidv4 uuid (publisher app)).2 in
  let r := create repositories storage configService handler uuid broker
             validateInventoryItems mockPaymentService customerId app in
  r.1 = app
  \/ (orders r.1 = orders app /\ publisher r.1 = system0)
  \/ exists c status,
       orders r.1 = <[newId := mkRow c status]> (orders app)
       /\ (publisher r.1 = system0
           \/ publisher r.1
              = (publish' (Publisher.created (Publisher.mkOrder newId c))
                   None system0).1).
Proof.
  intros newId system0 r. subst r. rewrite create_eq.
  destruct customerId as [c|]; [|by left].
  destruct (bool_decide (c = "")); [by left|].
  unfold creation.
  destruct (validateInventoryItems app) as [f|]; [by left|].
  cbn [Publisher.uuidv4]. fold newId.
  set (app0 := mkApp (orders app) (history app) _).
  unfold save. cbn [orderId orderCustomerId orderStatus].
  destruct (saveFault repositories app0 _) as [t|]; [right; by left|].
  set (app1 := mkApp (<[newId := mkRow c PENDING]> (orders app0))
                     (history app0) (publisher app0)).
  assert (Hupdate : forall status reason',
    status = CONFIRMED \/ status = CANCELLED ->
    let u := updateStatus repositories storage configService handler uuid
               broker newId status (Some "system-payment") reason' false
               app1 in
    (exists status', orders u.1 = <[newId := mkRow c status']> (orders app))
    /\ publisher u.1 = system0
    /\ forall order, u.2 = Returns order -> order = mkEntity newId c status).
  { intros status reason' Hstatus u.
    pose proof (updateStatus_changed repositories storage configService
                  handler uuid broker newId status (Some "system-payment")
                  reason' false app1) as Hch.
    fold u in Hch.
    assert (Hdelivered : bool_decide (status = DELIVERED) = false)
      by (by destruct Hstatus as [-> | ->]).
    rewrite Hdelivered in Hch.
    destruct Hch as [[-> [f ->]]|(row & Hrow & _ & [[-> [f ->]]|Hrec])].
    - split; [by exists PENDING|]. by split.
    - unfold app1 in Hrow. cbn [orders] in Hrow.
      rewrite lookup_insert_eq in Hrow. injection Hrow as <-.
      cbn [orders publisher rowCustomerId fst snd]. unfold app1.
      cbn [orders]. rewrite insert_insert_eq.
      split; [by exists status|]. by split.
    - unfold app1 in Hrow. cbn [orders] in Hrow.
      rewrite lookup_insert_eq in Hrow. injection Hrow as <-.
      destruct Hrec as (record & _ & _ & _ & ->).
      cbn [orders publisher rowCustomerId fst snd]. unfold app1.
      cbn [orders]. rewrite insert_insert_eq.
      split; [by exists status|]. split; [done|]. by intros ? [= <-]. }
  assert (Hleft : forall status reason' (k : App -> OrderEntity ->
                                             App * Outcome OrderEntity),
    status = CONFIRMED \/ status = CANCELLED ->
    (forall a o, publisher (k a o).1 = publisher a
                 /\ orders (k a o).1 = orders a) ->
    let r := match updateStatus repositories storage configService handler
                     uuid broker newId status (Some "system-payment")
                     reason' false app1 with
             | (app2, Returns order) => k app2 order
             | (app2, Throws f) => (app2, Throws f)
             end in
    exists c' status',
      orders (let (app', o) := r in
              match o with
              | Returns order => (app', Returns order)
              | Throws f => (app', Throws (caught f))
              end).1
      = <[newId := mkRow c' status']> (orders app)
      /\ publisher (let (app', o) := r in
                    match o with
                    | Returns order => (app', Returns order)
                    | Throws f => (app', Throws (caught f))
                    end).1 = system0).
  { intros status reason' k Hstatus Hk r.
    destruct (Hupdate status reason' Hstatus) as ((status' & Ho) & Hp & _).
    subst r. cbn zeta in Ho, Hp.
    destruct (updateStatus _ _ _ _ _ _ _ _ _ _ _ app1)
      as [app2 [order|f]]; cbn [fst snd] in *.
    - destruct (Hk app2 order) as [Hkp Hko].
      destruct (k app2 order) as [app3 [o|f]]; cbn [fst] in *;
        exists c, status'; by rewrite Hko, Hkp.
    - by exists c, status'. }
  unfold processPayment.
  destruct (mockPaymentService app1 _) as [paymentResult|[e|]].
  - destruct (success paymentResult).
    + destruct (Hupdate CONFIRMED None (or_introl eq_refl))
        as ((status' & Ho) & Hp & Hret).
      cbn zeta in Ho, Hp, Hret.
      destruct (updateStatus _ _ _ _ _ _ _ _ _ _ _ app1)
        as [app2 [order|f]]; cbn [fst snd] in *.
      * rewrite (Hret order eq_refl). cbn [orderId orderCustomerId].
        pose proof (publishing_tables storage configService handler uuid
                      broker (Publisher.created (Publisher.mkOrder newId c))
                      app2) as (Ho3 & _ & Hp3).
        destruct (publishing _ _ _ _ _ _ _) as [app3 [[]|f]];
          cbn [fst] in *; right; right; exists c, status';
          (split; [by rewrite Ho3|]); right; by rewrite Hp3, Hp.
      * right. right. exists c, status'. split; [done|by left].
    + destruct (Hleft CANCELLED
                  (Some ("Payment failed: "
                         +:+ interpolate (errorMessage paymentResult)))
                  (fun a _ => (a, Throws (BadRequestException
                     ("Payment failed: "
                      +:+ interpolate (errorMessage paymentResult)) None)))
                  (or_intror eq_refl)) as (c' & status' & Ho & Hp);
        [done|].
      right. right. exists c', status'. split; [exact Ho|by left].
  - cbn [success errorMessage].
    destruct (Hleft CANCELLED
                (Some ("Payment failed: "
                       +:+ interpolate
                             (Some "Payment processing system error")))
                (fun a _ => (a, Throws (BadRequestException
                   ("Payment failed: "
                    +:+ interpolate
                          (Some "Payment processing system error")) None)))
                (or_intror eq_refl)) as (c' & status' & Ho & Hp);
      [done|].
    right. right. exists c', status'. split; [exact Ho|by left].
  - right. right. exists c, PENDING. split; [done|by left].
Qed.

(** [create] keeps the account, when [uuidv4] does not repeat itself. *)
Lemma create_accounted customerId app :
  (forall a b, uuid a = uuid b -> a = b) ->
  accounted uuid app ->
  accounted uuid
    (create repositories storage configService handler uuid broker
       validateInventoryItems mockPaymentService customerId app).1.
Proof.
  intros Huuid Hacc.
  set (newId := uuid (Publisher.uuids (publisher app))).
  assert (Hfresh : orders app !! newId = None).
  { specialize (Hacc newId).
    destruct (orders app !! newId); [|done].
    destruct Hacc as [(n & Hn & Hid) _]. apply Huuid in Hid. lia. }
  assert (Hzero : eventsOf newId app = 0).
  { specialize (Hacc newId). by rewrite Hfresh in Hacc. }
  assert (Hdrawn : forall id,
    match orders app !! id with
    | Some row =>
        (exists n, (n < S (Publisher.uuids (publisher app)))%nat
                   /\ id = uuid n)
        /\ 0 <= eventsOf id app
             <= (if isFinalStatus (rowStatus row) then 2 else 1)
    | None => eventsOf id app = 0
    end).
  { intros id. specialize (Hacc id).
    destruct (orders app !! id); [|done].
    destruct Hacc as [(n & Hn & Hid) Hb].
    split; [exists n; split; [lia|done]|exact Hb]. }
  destruct (create_world customerId app)
    as [->|[[Ho Hp]|(c & status & Ho & Hp)]]; [exact Hacc|..].
  - intros id. unfold eventsOf. rewrite Ho, Hp. by apply Hdrawn.
  - intros id. unfold eventsOf. rewrite Ho. unfold newId in *.
    set (system0 := (Publisher.uuidv4 uuid (publisher app)).2) in *.
    assert (Hu0 : Publisher.uuids system0 = S (Publisher.uuids (publisher app)))
      by done.
    assert (Hd0 : Publisher.db system0 = Publisher.db (publisher app))
      by done.
    destruct (publish_counters
                (Publisher.created
                   (Publisher.mkOrder
                      (uuid (Publisher.uuids (publisher app))) c))
                None system0) as [Hu Hc].
    specialize (Hc id). cbn zeta in Hc.
    cbn [Publisher.orderOf Publisher.id] in Hc. rewrite Hd0 in Hc.
    specialize (Hdrawn id). unfold eventsOf in Hdrawn, Hzero.
    destruct (decide (id = uuid (Publisher.uuids (publisher app))))
      as [->|Hne].
    + rewrite lookup_insert_eq. cbn [rowStatus]. split.
      * exists (Publisher.uuids (publisher app)).
        split; [|done]. destruct Hp as [-> | ->]; lia.
      * destruct Hp as [-> | ->]; [rewrite Hd0|];
          destruct (isFinalStatus status); lia.
    + rewrite lookup_insert_ne by done.
      assert (Hsame :
        Sequence.getCurrentSequence id "order"
          (Publisher.db
             (publisher
                (create repositories storage configService handler uuid
                   broker validateInventoryItems mockPaymentService
                   customerId app).1))
        = Sequence.getCurrentSequence id "order"
            (Publisher.db (publisher app))).
      { destruct Hp as [-> | ->]; [by rewrite Hd0|]. by apply Hc. }
      rewrite Hsame.
      destruct (orders app !! id); [|exact Hdrawn].
      destruct Hdrawn as [(n & Hn & Hid) Hb].
      split; [|exact Hb]. exists n. split; [|done].
      destruct Hp as [-> | ->]; lia.
Qed.

(** X21. Through the service an order gets at most two events, its
    creation and its delivery or cancellation: after any requests to
    [create], [updateStatus] and [cancel], whatever the repositories, the
    storage layer, the broker, the inventory and the payment service do,
    the sequence counter of every order is at most 2, it is at most 1
    while the status of the order is not final, and there is no counter
    for an id that is not in the table. It takes that [uuidv4] does not
    repeat itself. *)
Theorem X21_two_events_per_order (requests : list Request) :
  (forall a b, uuid a = uuid b -> a = b) ->
  let app :=
    serveAll repositories storage configService handler uuid broker
      validateInventoryItems mockPaymentService requests freshApp in
  forall id,
    0 <= eventsOf id app <= 2
    /\ (eventsOf id app = 2 -> final id app)
    /\ (0 < eventsOf id app -> exists row, orders app !! id = Some row).
Proof.
  intros Huuid app.
  assert (Hacc : accounted uuid app).
  { subst app. unfold serveAll.
    assert (Hfresh : accounted uuid freshApp).
    { intros id. unfold freshApp, eventsOf. cbn [orders].
      by rewrite lookup_empty. }
    revert Hfresh. generalize freshApp.
    induction requests as [|request requests IH]; intros a Ha; [exact Ha|].
    cbn [fold_left]. apply IH. destruct request as [c|id s ad re sys|id re].
    - by apply create_accounted.
    - apply (changed_accounted id s (bool_decide (s = DELIVERED))
               (Publisher.delivered id) a); [|done| |exact Ha].
      + apply updateStatus_changed.
      + intros Hd. apply bool_decide_eq_true in Hd. by subst s.
    - apply (changed_accounted id CANCELLED true (Publisher.cancelled id) a);
        [|done|done|exact Ha].
      apply cancel_changed. }
  intros id. specialize (Hacc id). unfold final.
  destruct (orders app !! id) as [row|].
  - destruct Hacc as [_ Hb].
    destruct (isFinalStatus (rowStatus row)) eqn:Hf.
    + split; [lia|]. split; [intros _; by exists row|intros _; by exists row].
    + split; [lia|]. split; [lia|intros _; by exists row].
  - rewrite Hacc. split; [lia|]. split; [done|lia].
Qed.

End OrderEvents.

Section OrderServiceExamples.

Import OrderService.

(** The longest life of an order. *)
Lemma X17_status_rules_witness :
  NoDup [PENDING; CONFIRMED; SHIPPED; DELIVERED]
  /\ (length [PENDING; CONFIRMED; SHIPPED; DELIVERED] <= 4)%nat.
Proof.
  destruct X17_status_rules as (H & _).
  apply H. reflexivity.
Defined.

(** Cancelling the shipped order leaves the cancelled one alone. *)
Lemma X18_status_follows_table_witness :
  orders (cancel sound Sequence.reliable (Retry.Order.mkConfig None)
            EventBuffer.sourceHandler pretty Publisher.brokerDown
            "order-2" "changed my mind" twoOrders).1 !! "order-1"
  = Some (mkRow "customer-1" CANCELLED).
Proof.
  destruct (X18_status_follows_table sound Sequence.reliable
              (Retry.Order.mkConfig None) EventBuffer.sourceHandler pretty
              Publisher.brokerDown "order-2" twoOrders) as [_ H].
  destruct (H "changed my mind") as (_ & Hother & _).
  rewrite Hother; [reflexivity|discriminate].
Defined.

(** Cancelling the cancelled order again is refused and changes
    nothing. *)
Lemma X19_events_and_final_status_witness :
  (cancel sound Sequence.reliable (Retry.Order.mkConfig None)
     EventBuffer.sourceHandler pretty Publisher.brokerDown
     "order-1" "again" twoOrders).1 = twoOrders.
Proof.
  destruct (X19_events_and_final_status sound Sequence.reliable
              (Retry.Order.mkConfig None) EventBuffer.sourceHandler pretty
              Publisher.brokerDown "order-1" twoOrders) as [_ H].
  destruct (H "again") as (Hfinal & _).
  apply Hfinal. exists (mkRow "customer-1" CANCELLED).
  split; reflexivity.
Defined.

(** The first order of an application, with a payment that is declined
    for insufficient funds. *)
Lemma X20_create_witness :
  let r :=
    create sound Sequence.reliable (Retry.Order.mkConfig None)
      EventBuffer.sourceHandler pretty Publisher.brokerDown
      (fun _ => None)
      (fun _ _ => Resolved (mkPayment false (Some "Insufficient funds")))
      (Some "customer-1") freshApp in
  r.2 = Throws (BadRequestException "Payment failed: Insufficient funds" None)
  /\ orders r.1 !! "0" = Some (mkRow "customer-1" CANCELLED)
  /\ Publisher.emissions (publisher r.1) = [].
Proof.
  intros r.
  destruct (X20_create sound Sequence.reliable (Retry.Order.mkConfig None)
              EventBuffer.sourceHandler pretty Publisher.brokerDown
              (fun _ => None)
              (fun _ _ => Resolved (mkPayment false (Some "Insufficient funds")))
              (Some "customer-1") freshApp) as (_ & _ & H).
  { reflexivity. }
  destruct (H "customer-1") as [Hdeclined _]; [done|done|done|done|].
  destruct (Hdeclined (Some "Insufficient funds")) as (H1 & H2 & _ & H4);
    [done|].
  split; [exact H1|]. split; [exact H2|exact H4].
Defined.

(** An order is created, shipped, delivered and then cancelled. *)
Lemma X21_two_events_per_order_witness :
  let app :=
    serveAll sound Sequence.reliable (Retry.Order.mkConfig None)
      EventBuffer.sourceHandler pretty Publisher.brokerDown
      (fun _ => None) (fun _ _ => Resolved (mkPayment true None))
      [createOrder (Some "customer-1");
       updateOrderStatus "0" SHIPPED (Some "admin") None false;
       updateOrderStatus "0" DELIVERED (Some "admin") None false;
       cancelOrder "0" "too late"] freshApp in
  0 <= eventsOf "0" app <= 2.
Proof.
  intros app.
  destruct (X21_two_events_per_order sound Sequence.reliable
              (Retry.Order.mkConfig None) EventBuffer.sourceHandler pretty
              Publisher.brokerDown (fun _ => None)
              (fun _ _ => Resolved (mkPayment true None))
              [createOrder (Some "customer-1");
               updateOrderStatus "0" SHIPPED (Some "admin") None false;
               updateOrderStatus "0" DELIVERED (Some "admin") None false;
               cancelOrder "0" "too late"]
              (fun a b H => inj pretty a b H) "0") as [H _].
  exact H.
Defined.

End OrderServiceExamples.

Section EventBufferMoreExamples.

Import EventBuffer.

(** The buffer of another entity, [f], before and after the event of
    sequence 3 of [e] is admitted. *)
Lemma X2_watermark_monotone_witness :
  getBufferStatus "f" (addEvent sourceHandler 0 (freshService heap312 0)).1
  = getBufferStatus "f" (freshService heap312 0).
Proof.
  destruct (X2_watermark_monotone sourceHandler 0%nat
              (freshService heap312 0) "f") as [_ H].
  apply H. discriminate.
Defined.

(** The event of sequence 1 is not touched when the event of sequence 3
    is admitted first. *)
Lemma X3_calls_own_queue_witness :
  heap (world (addEvent sourceHandler 0 (freshService heap312 0)).1)
    !!! 1%nat
  = heap312 !!! 1%nat.
Proof.
  destruct (X3_calls_own_queue sourceHandler 0%nat (freshService heap312 0))
    as [_ H].
  apply (H 1%nat). vm_compute. intros Hin.
  apply list_elem_of_In in Hin. simpl in Hin. destruct Hin as [Hin|[]].
  discriminate.
Defined.

End EventBufferMoreExamples.

(** ** Message headers: the retry count *)

Section HeadersFacts.

Import Stdlib.Strings.Ascii.
Import Headers.

Lemma digitOf_pretty_N_char (d : N) :
  (d < 10)%N -> digitOf (pretty_N_char d) = Some (Z.of_N d).
Proof.
  intros Hd.
  assert (Hcases : d = 0%N \/ d = 1%N \/ d = 2%N \/ d = 3%N \/ d = 4%N
                   \/ d = 5%N \/ d = 6%N \/ d = 7%N \/ d = 8%N \/ d = 9%N)
    by lia.
  repeat (destruct Hcases as [->|Hcases]; [reflexivity|]).
  by subst d.
Qed.

(** The digits that [pretty] writes before [s] are digits, at least one
    for a positive number, and read back they give the number. *)
Lemma pretty_N_go_digits (x : N) :
  forall s,
    (allDigits s = true -> allDigits (pretty_N_go x s) = true)
    /\ ((0 < x)%N \/ s <> "" -> pretty_N_go x s <> "")
    /\ exists k : N,
         forall acc,
           digitsFrom 10 (pretty_N_go x s) acc
           = digitsFrom 10 s (acc * Z.of_N (10 ^ k) + Z.of_N x).
Proof.
  induction (N.lt_wf_0 x) as [x _ IH]. intros s.
  destruct (decide (x = 0%N)) as [->|Hx].
  - rewrite pretty_N_go_0. split; [done|]. split.
    + intros [?|?]; [lia|done].
    + exists 0%N. intros acc. f_equal.
      change (Z.of_N (10 ^ 0)) with 1. change (Z.of_N 0) with 0. lia.
  - assert (Hpos : (0 < x)%N) by lia.
    rewrite pretty_N_go_step by done.
    assert (Hd : (x mod 10 < 10)%N) by (apply N.mod_lt; lia).
    pose proof (digitOf_pretty_N_char _ Hd) as Hdigit.
    set (c := pretty_N_char (x mod 10)) in *.
    assert (Hc : isDigitOf 10 c = true).
    { unfold isDigitOf. rewrite Hdigit. apply Z.ltb_lt. lia. }
    destruct (IH (x / 10)%N) with (s := String c s) as (Hall & Hne & k & Hk).
    { apply N.div_lt; lia. }
    split; [|split].
    + intros Hs. apply Hall. cbn [allDigits]. by rewrite Hc, Hs.
    + intros _. apply Hne. by right.
    + exists (k + 1)%N. intros acc. rewrite Hk. cbn [digitsFrom].
      rewrite Hdigit.
      destruct (Z.ltb_spec (Z.of_N (x mod 10)) 10); [|lia].
      f_equal. rewrite N.pow_add_r, N.pow_1_r.
      rewrite (N.div_mod x 10) at 3 by lia. lia.
Qed.

(** What [pretty] writes for a natural number is a decimal numeral that
    reads back as the number. *)
Lemma pretty_N_decimal (x : N) :
  decimal (pretty x) = true /\ digitsFrom 10 (pretty x) 0 = Z.of_N x.
Proof.
  unfold pretty, pretty_N. destruct (decide (x = 0%N)) as [->|Hx]; [done|].
  destruct (pretty_N_go_digits x "") as (Hall & Hne & k & Hk).
  split.
  - assert (Hpos : (0 < x)%N) by lia.
    specialize (Hall eq_refl). specialize (Hne (or_introl Hpos)).
    unfold decimal. by destruct (pretty_N_go x "").
  - rewrite Hk. cbn [digitsFrom]. lia.
Qed.

(** A decimal digit is no white space, sign or [x]. *)
Lemma digit_plain (c : Ascii.ascii) :
  isDigitOf 10 c = true ->
  isWhiteSpace c = false
  /\ Ascii.eqb c "-" = false /\ Ascii.eqb c "+" = false
  /\ Ascii.eqb c "x" = false /\ Ascii.eqb c "X" = false.
Proof.
  destruct c as [[] [] [] [] [] [] [] []]; vm_compute; intros; try done;
    by repeat split.
Qed.

(** [parseInt] of a decimal numeral, with or without a minus sign. *)
Lemma parseIntString_decimal (s : string) :
  decimal s = true ->
  parseIntString s = Some (digitsFrom 10 s 0)
  /\ parseIntString ("-" +:+ s) = Some (- digitsFrom 10 s 0).
Proof.
  destruct s as [|c s]; [done|]. cbn [decimal allDigits].
  intros Hd. apply andb_true_iff in Hd as [Hc Hs].
  destruct (digit_plain c Hc) as (Hws & Hminus & Hplus & _ & _).
  assert (Hradix : radixOf (String c s) = (10, String c s)).
  { unfold radixOf. destruct s as [|c' s]; [done|]. cbn [allDigits] in Hs.
    apply andb_true_iff in Hs as [Hc' _].
    destruct (digit_plain c' Hc') as (_ & _ & _ & -> & ->).
    by rewrite andb_false_r. }
  assert (Hsign : signOf (String c s) = (1, String c s)).
  { unfold signOf. by rewrite Hminus, Hplus. }
  split.
  - unfold parseIntString. cbn [trimStart]. rewrite Hws, Hsign.
    cbn beta iota. rewrite Hradix. cbn beta iota. rewrite Hc.
    f_equal; lia.
  - unfold parseIntString.
    change ("-" +:+ String c s) with (String "-" (String c s)).
    cbn [trimStart]. change (isWhiteSpace "-") with false. cbn iota.
    change (signOf (String "-" (String c s))) with (-1, String c s).
    cbn beta iota. rewrite Hradix. cbn beta iota. rewrite Hc.
    f_equal; lia.
Qed.

(** [parseInt] reads back what [toString] wrote. *)
Lemma parseIntString_numberToString (n : Z) :
  parseIntString (numberToString n) = Some n.
Proof.
  unfold numberToString. destruct n as [|p|p]; [done|..].
  - change (pretty (Z.pos p)) with (pretty (N.pos p)).
    destruct (pretty_N_decimal (N.pos p)) as [Hd Hv].
    destruct (parseIntString_decimal _ Hd) as [-> _]. by rewrite Hv.
  - change (pretty (Z.neg p)) with ("-" +:+ pretty (N.pos p)).
    destruct (pretty_N_decimal (N.pos p)) as [Hd Hv].
    destruct (parseIntString_decimal _ Hd) as [_ ->]. by rewrite Hv.
Qed.

(** X22. The retry count survives the headers: [getRetryCount] reads back
    the count that [setRetryHeaders] wrote, for every count that is a safe
    integer, also through [DLQService]'s reader; headers without a count
    read as 0; [setRetryHeaders] leaves every other header as it was, and
    keeps the original error unless it is given a new one; and with the
    count it wrote, [shouldRetry] allows a retry only below
    [maxRetries]. *)
Theorem X22_retry_count_round_trip (toISOString : Z -> string) (now : Z)
    (headers : gmap string HeaderValue) (retryCount : Z) (originalError : option string) :
  - 2 ^ 53 < retryCount < 2 ^ 53 ->
  let headers' :=
    setRetryHeaders toISOString now headers retryCount originalError in
  getRetryCount headers' = Some retryCount
  /\ DLQ.getRetryCount (Some headers') = Some retryCount
  /\ (headers !! "x-retry-count" = None -> getRetryCount headers = Some 0)
  /\ DLQ.getRetryCount None = Some 0
  /\ (forall key,
        key <> "x-retry-count" -> key <> "x-retry-timestamp" ->
        key <> "x-original-error" ->
        headers' !! key = headers !! key)
  /\ get headers' "x-original-error"
     = match originalError with
       | Some e => if decide (e = "") then get headers "x-original-error"
                   else hString e
       | None => get headers "x-original-error"
       end
  /\ (forall error maxRetries,
        shouldRetry error (getRetryCount headers') maxRetries = true ->
        retryCount < maxRetries).
Proof.
  intros _ headers'.
  assert (Hcount : get headers' "x-retry-count"
                   = hString (numberToString retryCount)).
  { unfold get, headers', setRetryHeaders.
    rewrite lookup_insert_ne by done. rewrite lookup_insert_ne by done.
    by rewrite lookup_insert_eq. }
  assert (Hread : parseInt (orValue (get headers' "x-retry-count")
                                    (hString "0")) = Some retryCount).
  { rewrite Hcount. cbn [orValue].
    destruct (decide (numberToString retryCount = "")) as [Hempty|_].
    - pose proof (parseIntString_numberToString retryCount) as Hp.
      by rewrite Hempty in Hp.
    - apply parseIntString_numberToString. }
  split; [exact Hread|]. split; [exact Hread|].
  split; [intros Hnone; unfold getRetryCount, get; by rewrite Hnone|].
  split; [done|]. split; [|split].
  - intros key H1 H2 H3. unfold headers', setRetryHeaders.
    by rewrite !lookup_insert_ne.
  - unfold get at 1. unfold headers', setRetryHeaders.
    by rewrite lookup_insert_eq.
  - intros error maxRetries. unfold getRetryCount. rewrite Hread.
    unfold shouldRetry. intros Hs. apply andb_true_iff in Hs as [Hlt _].
    by apply Z.ltb_lt.
Qed.

(** X23. [cleanDLQHeaders] takes the three DLQ headers away, sets the
    retry count to 0 and leaves every other header as it was; cleaning
    twice is cleaning once. [reprocessDLQMessage] never gets that far: as
    the message store returns nothing, it is rejected for every message
    id with the error that the message was not found, and emits
    nothing. *)
Theorem X23_dlq_headers (headers : gmap string HeaderValue) :
  let clean := DLQ.cleanDLQHeaders headers in
  DLQ.getRetryCount (Some clean) = Some 0
  /\ getRetryCount clean = Some 0
  /\ clean !! "x-dlq-timestamp" = None
  /\ clean !! "x-dlq-reason" = None
  /\ clean !! "x-dlq-stack" = None
  /\ (forall key,
        key <> "x-retry-count" -> key <> "x-dlq-timestamp" ->
        key <> "x-dlq-reason" -> key <> "x-dlq-stack" ->
        clean !! key = headers !! key)
  /\ DLQ.cleanDLQHeaders clean = clean
  /\ (forall messageId targetQueue client,
        DLQ.reprocessDLQMessage messageId targetQueue client
        = (client,
           Rejected (ThrowError (newError
             ("DLQ message with ID " +:+ messageId +:+ " not found"))))).
Proof.
  intros clean. unfold clean, DLQ.cleanDLQHeaders.
  assert (Hcount : forall h : gmap string HeaderValue,
    parseInt (orValue (get (<["x-retry-count" := hString "0"]> h)
                           "x-retry-count") (hString "0")) = Some 0).
  { intros h. unfold get. by rewrite lookup_insert_eq. }
  split; [apply Hcount|]. split; [apply Hcount|].
  split; [|split; [|split; [|split; [|split]]]].
  - rewrite lookup_insert_ne by done. rewrite !lookup_delete_ne by done.
    apply lookup_delete_eq.
  - rewrite lookup_insert_ne by done. rewrite lookup_delete_ne by done.
    apply lookup_delete_eq.
  - rewrite lookup_insert_ne by done. apply lookup_delete_eq.
  - intros key H1 H2 H3 H4. rewrite lookup_insert_ne by done.
    by rewrite !lookup_delete_ne.
  - apply map_eq. intros key.
    repeat (progress (rewrite ?lookup_insert, ?lookup_delete);
            repeat case_decide; try done).
  - done.
Qed.

End HeadersFacts.

Section HeadersExamples.

Import Headers.

(** The third retry of a message that arrived without headers. *)
Lemma X22_retry_count_round_trip_witness :
  getRetryCount
    (setRetryHeaders (fun t => "t" +:+ pretty t) 0 ∅ 3 (Some "ECONNREFUSED"))
  = Some 3.
Proof.
  destruct (X22_retry_count_round_trip (fun t => "t" +:+ pretty t) 0 ∅ 3
              (Some "ECONNREFUSED")) as (H & _).
  - lia.
  - exact H.
Defined.

(** A dead-lettered message after its third retry, cleaned. *)
Lemma X23_dlq_headers_witness :
  DLQ.cleanDLQHeaders
    (<["x-dlq-reason" := hString "ECONNREFUSED"]>
       (<["x-retry-count" := hString "3"]> ∅))
  !! "x-retry-timestamp" = None.
Proof.
  destruct (X23_dlq_headers
              (<["x-dlq-reason" := hString "ECONNREFUSED"]>
                 (<["x-retry-count" := hString "3"]> ∅)))
    as (_ & _ & _ & _ & _ & H & _).
  rewrite H; [reflexivity|discriminate..].
Defined.

End HeadersExamples.
